(** * Timeline synthesis and synchronisation engine: a shallow embedding

    The development follows the Python sources file by file:
    - [Py]          the handful of Python built-ins the code relies on;
    - [Double]      the vocabulary of the rounding of doubles;
    - [Ffmpeg]      the command lines handed to the transcoder, kept structured;
    - [Eff]         the effects of the code: an action log plus exceptions;
    - [Final]       generate_video_final.py;
    - [Single]      generate_video_single.py;
    - [Engagement]  video_engagement.py;
    - [Image]       generate_image.py;
    - [Main]        main.py.

    Durations are Python floats.  The synchronizer and the overlay point
    generator compare, divide and multiply them, so they are kept there as
    IEEE binary64 numbers ([float], the primitive doubles); [to_Q] gives the
    rational a finite double stands for.  The segment planner divides a
    duration by a constant, adds a jitter and clamps the sum between
    constants before handing it to the transcoder: its durations are read
    as rationals ([Q]). *)

From Stdlib Require Import QArith Qabs Qpower Lqa ZArith Lia List String Ascii Bool Arith DecimalString.
From Stdlib Require Import Sorted Floats.
Import ListNotations.

Set Implicit Arguments.
Set Warnings "-inexact-float".
Open Scope string_scope.
Open Scope list_scope.
Open Scope Q_scope.

(* ================================================================== *)
(** * Python built-ins *)
(* ================================================================== *)

Module Py.

Definition path := string.

Definition Qlt_bool (a b : Q) : bool := negb (Qle_bool b a).

(** [max(a, b)] keeps its first argument unless the second is larger. *)
Definition py_max (a b : Q) : Q := if Qlt_bool a b then b else a.

(** [min(a, b)] keeps its first argument unless the second is smaller. *)
Definition py_min (a b : Q) : Q := if Qlt_bool b a then b else a.

(** [int(x)] on a float truncates towards zero. *)
Definition py_int (q : Q) : Z := Z.quot (Qnum q) (Zpos (Qden q)).

(** [str(n)] / [f"{n}"] for a non-negative integer. *)
Definition str_nat (n : nat) : string := NilZero.string_of_uint (Nat.to_uint n).

(** Truthiness of a string: the empty string is falsy. *)
Definition truthy (s : string) : bool := negb (String.eqb s "").

(** Truthiness of an [Optional[str]]. *)
Definition truthy_opt (o : option string) : bool :=
  match o with
  | Some s => truthy s
  | None => false
  end.

(** The exceptions that the modelled code raises or lets through. *)
Inductive exn : Type :=
| ValueError (msg : string)
| ZeroDivisionError
| CalledProcessError
| FileNotFoundError (name : string)
| SameFileError
| RequestException
| ApiError (status : nat)
| NameError (name : string)
| OtherError (msg : string).

Definition is_CalledProcessError (e : exn) : bool :=
  match e with
  | CalledProcessError => true
  | _ => false
  end.

Inductive result (A : Type) : Type :=
| Ok (a : A)
| Raise (e : exn).

Arguments Ok {A} a.
Arguments Raise {A} e.

(** *** Floats *)

(** The rational a double stands for; the infinities and NaN, which no
    duration takes, are sent to 0. *)
Definition SF2Q (x : spec_float) : Q :=
  match x with
  | S754_finite s m e =>
      let v := inject_Z (Zpos m) * Qpower 2 e in
      if s then - v else v
  | _ => 0
  end.

Definition to_Q (x : float) : Q := SF2Q (Prim2SF x).

(** [float(n)] for a small non-negative integer, as in [x / n] and [x * n]
    with [x] a float: the conversion is exact below 2^53. *)
Definition float_of_nat (n : nat) : float :=
  PrimFloat.of_uint63 (Uint63.of_Z (Z.of_nat n)).

(** [a / b] on floats raises when the divisor is zero, of either sign. *)
Definition py_div (a b : float) : result float :=
  if PrimFloat.eqb b 0%float then Raise ZeroDivisionError else Ok (PrimFloat.div a b).

(** *** The random module *)

(** [random.random()]: 53 random bits scaled to [[0, 1)]. *)
Definition random_unit (bits : N) : Q :=
  Z.of_N (N.modulo bits (2 ^ 53)%N) # (2 ^ 53)%positive.

(** [random.uniform(a, b)] is [a + (b - a) * random()]. *)
Definition uniform (a b : Q) (bits : N) : Q := a + (b - a) * random_unit bits.

End Py.
Export Py.


(** * Rounding of doubles *)

(** The vocabulary of the error analysis of [x / y] and [x * y] on doubles:
    the operations of the machine are those of [SpecFloat], at precision 53
    and maximal exponent 1024. *)
Module Double.

Definition pow2 (e : Z) : Q := 2 ^ e.

(** [t] lies in [[m, m + 1)], at the place the two bits of the record tell:
    on [m], below the middle, in the middle, or above it. *)
Definition located (mrs : shr_record) (t : Q) : Prop :=
  let m := inject_Z (shr_m mrs) in
  match shr_r mrs, shr_s mrs with
  | false, false => t == m
  | false, true => m < t /\ t < m + (1 # 2)
  | true, false => t == m + (1 # 2)
  | true, true => m + (1 # 2) < t /\ t < m + 1
  end.

(** A record stands for [x] at the exponent [e]. *)
Definition represents (mrs : shr_record) (e : Z) (x : Q) : Prop :=
  located mrs (x * pow2 (- e)).

(** The largest finite double. *)
Definition max_float : Q := inject_Z (2 ^ 53 - 1) * pow2 971.

Definition nonneg_SF (r : spec_float) : bool :=
  match r with
  | S754_zero _ => true
  | S754_finite false _ _ => true
  | _ => false
  end.

(** [r] is [x] rounded: within [2^-53] of it in relative terms when [x] is in
    the normal range, within [2^-1075] below that range. *)
Definition rounds_to (r : spec_float) (x : Q) : Prop :=
  nonneg_SF r = true
  /\ (pow2 (-1022) <= x ->
      x - pow2 (-53) * x <= SF2Q r /\ SF2Q r <= x + pow2 (-53) * x)
  /\ (x <= pow2 (-1022) ->
      x - pow2 (-1075) <= SF2Q r /\ SF2Q r <= x + pow2 (-1075)).

(** A double with a full mantissa, as every double of the normal range. *)
Definition normal_pos (b : float) : bool :=
  match Prim2SF b with
  | S754_finite false m _ => (Zpos (digits2_pos m) =? 53)%Z
  | _ => false
  end.

End Double.

(* ================================================================== *)
(** * ffmpeg command lines *)
(* ================================================================== *)

Module Ffmpeg.

(** Stream labels of a filter graph: [[i:v]], [[v{i}]], [[vout{i}]], [[aout]]. *)
Inductive label : Type :=
| LIn (i : nat)
| LV (i : nat)
| LVout (i : nat)
| LAout.

(** One [drawtext] filter; [enable] is the window in which it is shown. *)
Inductive enable : Type :=
| Between (t0 t1 : float)
| After (t0 : float).

Record drawtext : Type := {
  dt_text : string;
  dt_fontsize : nat;
  dt_fontcolor : string;
  dt_y : string;
  dt_enable : enable
}.

(** Filters of a [-vf] / [-filter:v] chain: they act on the video stream. *)
Inductive vfilter : Type :=
| VScaleCrop                       (* scale=1080:1920:force_original_aspect_ratio=increase,crop=1080:1920 *)
| VScaleCropCentered               (* ...,crop=1080:1920:(in_w-1080)/2:(in_h-1920)/2 *)
| VZoompan (frames : Z)            (* zoompan=...:d={frames}:s=1080x1920:fps=30 *)
| VFadeIn (st d : Q)
| VFadeOut (st d : Q)
| VSetpts (factor : float)         (* setpts={factor}*PTS *)
| VFps (n : nat)
| VDrawtext (d : drawtext).

(** Filters of an audio chain ([-af] / [-filter:a]). *)
Inductive afilter : Type :=
| ATempo (factor : Q)
| AVolume (v : Q).

(** Entries of a [-filter_complex] graph. *)
Inductive cfilter : Type :=
| CScale (i : nat)                                   (* [i:v]scale...,fps=30,setsar=1[v{i}] *)
| CXfade (a b : label) (duration offset : Q) (out : label)
| CAmixShortest.                                     (* [0:a][1:a]amix=inputs=2:duration=shortest[aout] *)

Inductive input : Type :=
| Input (p : path)
| InConcat (list_file : path)      (* -f concat -safe 0 -i list_file *)
| InLoop (p : path).               (* -loop 1 -i p *)

Inductive stream : Type :=
| MapVideo (i : nat)               (* -map i:v:0 *)
| MapAudio (i : nat)               (* -map i:a:0 *)
| MapLabel (l : label).            (* -map [l] *)

(** An ffmpeg invocation.  [opts] keeps the remaining literal flags
    (codecs, preset, crf, bit rate, ...) in the order of the source. *)
Record cmd : Type := {
  inputs : list input;
  filter_v : list vfilter;
  filter_a : list afilter;
  filter_complex : list cfilter;
  maps : list stream;
  limit_t : option Q;
  shortest : bool;
  opts : list (string * string);
  output : path
}.

End Ffmpeg.
Export Ffmpeg.

(* ================================================================== *)
(** * Effects: the outside world, an action log and exceptions *)
(* ================================================================== *)

Module Eff.

(** HTTP answers of the image inference endpoint. *)
Inductive http : Type :=
| Response (status : nat) (content : string)
| NoResponse.                      (* the request itself raised *)

(** What the code does to the outside, in the order it does it. *)
Inductive action : Type :=
| Run (c : cmd)                           (* subprocess.run(cmd, check=True) *)
| Copy (src dst : path)                   (* shutil.copy *)
| WriteConcatList (f : path) (entries : list path)
| WriteBytes (f : path) (content : string)
| Unlink (f : path)
| Rename (src dst : path)
| Sleep (seconds : nat)
| Post (target : path) (attempt : nat)
| Try (provider : string).

(** What the code touches outside itself.  A run of the transcoder either
    ends with exit status 0 or fails; [run_error] tells how it fails:
    [CalledProcessError] for a failure status, another exception when the
    process cannot be started at all.  [fs_error] tells whether a file
    operation of the compilation fails, and with which exception. *)
Record world : Type := {
  ffmpeg : cmd -> bool;                    (* true: the run ends with exit status 0 *)
  run_error : cmd -> exn;                  (* what subprocess.run raises otherwise *)
  fs_error : action -> option exn;         (* a file operation that raises *)
  ffprobe : path -> option float;          (* None: the probe or float() failed *)
  file_exists : path -> bool;              (* os.path.exists *)
  getenv : string -> option string;        (* os.getenv *)
  random_bits : nat -> N;                  (* the bits drawn by random(), per loop position *)
  timestamp : nat -> string;               (* datetime.now().strftime(...), per call site index *)
  parent : path -> path;                   (* str(Path(p).parent) *)
  joinpath : path -> path -> path;         (* str(Path(a) / b) *)
  pexels : string -> path -> bool;         (* generate_with_pexels succeeds *)
  unsplash : string -> path -> bool;       (* generate_with_unsplash succeeds *)
  hf_post : path -> nat -> http;           (* requests.post of the n-th attempt *)
  pil_save : string -> path -> bool        (* the PIL drawing of generate_placeholder succeeds *)
}.

(** A computation logs its actions and ends normally or with an exception. *)
Definition M (A : Type) : Type := (list action * result A)%type.

Definition ret {A} (a : A) : M A := ([], Ok a).

Definition raise {A} (e : exn) : M A := ([], Raise e).

Definition bind {A B} (m : M A) (k : A -> M B) : M B :=
  match m with
  | (l, Ok a) => let (l', r) := k a in (l ++ l', r)
  | (l, Raise e) => (l, Raise e)
  end.

(** [try: m except <class>: h]; the handler runs for the exceptions
    selected by [sel], the others pass through. *)
Definition try_except {A} (sel : exn -> bool) (m : M A) (h : exn -> M A) : M A :=
  match m with
  | (l, Ok a) => (l, Ok a)
  | (l, Raise e) =>
      if sel e then let (l', r) := h e in (l ++ l', r) else (l, Raise e)
  end.

(** [except Exception] and a bare [except] catch everything modelled here. *)
Definition any_exception (e : exn) : bool := true.

Definition tell (a : action) : M unit := ([a], Ok tt).

Definition lift {A} (r : result A) : M A := ([], r).

(** [subprocess.run(c, ..., check=True)]: the command is run;
    [CalledProcessError] is raised when it ends with a failure status, and
    the exception of the operating system when it cannot be started.  The
    answer is a function of the command. *)
Definition run (w : world) (c : cmd) : M unit :=
  if ffmpeg w c then ([Run c], Ok tt) else ([Run c], Raise (run_error w c)).

(** A file operation: attempted, and raising when the file system says so. *)
Definition io (w : world) (a : action) : M unit :=
  match fs_error w a with
  | None => ([a], Ok tt)
  | Some e => ([a], Raise e)
  end.

(** [shutil.copy(src, dst)]: a missing source raises [FileNotFoundError],
    an existing source that is the destination itself [SameFileError]. *)
Definition shutil_copy (w : world) (src dst : path) : M unit :=
  if negb (file_exists w src) then ([Copy src dst], Raise (FileNotFoundError src))
  else if String.eqb src dst then ([Copy src dst], Raise SameFileError)
  else io w (Copy src dst).

Definition log_of {A} (m : M A) : list action := fst m.
Definition outcome {A} (m : M A) : result A := snd m.

Definition commands (l : list action) : list cmd :=
  flat_map (fun a => match a with Run c => [c] | _ => [] end) l.

End Eff.
Export Eff.

Declare Scope eff_scope.
Delimit Scope eff_scope with eff.
Notation "x <- m ;; k" := (bind m (fun x => k))
  (at level 61, m at next level, right associativity) : eff_scope.
Notation "m ;;; k" := (bind m (fun _ => k))
  (at level 61, right associativity) : eff_scope.
Open Scope eff_scope.

(* ================================================================== *)
(** * generate_video_final.py *)
(* ================================================================== *)

Module Final.

Inductive mix_mode : Type := Replace | Mix.

(** [get_video_duration] / [get_audio_duration]: the probed duration, or
    [0.0] when anything goes wrong. *)
Definition get_video_duration (w : world) (video_path : path) : float :=
  match ffprobe w video_path with
  | Some d => d
  | None => 0%float
  end.

Definition get_audio_duration (w : world) (audio_path : path) : float :=
  match ffprobe w audio_path with
  | Some d => d
  | None => 0%float
  end.

Definition transition_duration : Q := 3 # 10.

(** The scale filters, one per input, of the cross-fade graph. *)
Definition scale_parts (n : nat) : list cfilter := map CScale (seq 0 n).

(** The chain of xfade filters for inputs [1 .. n-1]. *)
Definition xfade_part (i : nat) : cfilter :=
  if Nat.eqb i 1
  then CXfade (LV 0) (LV i) transition_duration 0 (LVout i)
  else CXfade (LVout (i - 1)) (LV i) transition_duration 0 (LVout i).

Definition xfade_parts (n : nat) : list cfilter := map xfade_part (seq 1 (n - 1)).

Definition xfade_cmd (video_paths : list path) (output_path : path) : cmd :=
  let n := List.length video_paths in
  {| inputs := map Input video_paths;
     filter_v := [];
     filter_a := [];
     filter_complex := scale_parts n ++ xfade_parts n;
     maps := [MapLabel (if Nat.ltb 1 n then LVout (n - 1) else LV 0)];
     limit_t := None;
     shortest := false;
     opts := [("-c:v", "libx264"); ("-preset", "medium"); ("-crf", "23");
              ("-r", "30"); ("-pix_fmt", "yuv420p")];
     output := output_path |}.

Definition concat_simple_cmd (concat_file output_path : path) : cmd :=
  {| inputs := [InConcat concat_file];
     filter_v := [];
     filter_a := [];
     filter_complex := [];
     maps := [];
     limit_t := None;
     shortest := false;
     opts := [("-c:v", "libx264"); ("-preset", "fast"); ("-crf", "23");
              ("-r", "30"); ("-c:a", "aac")];
     output := output_path |}.

Definition concat_cmd (concat_file output_path : path) : cmd :=
  {| inputs := [InConcat concat_file];
     filter_v := [];
     filter_a := [];
     filter_complex := [];
     maps := [];
     limit_t := None;
     shortest := false;
     opts := [("-c:v", "libx264"); ("-preset", "fast"); ("-crf", "23");
              ("-c:a", "aac"); ("-b:a", "192k")];
     output := output_path |}.

(** [concatenate_videos_simple]: plain concatenation, no handler of its
    own.  The list file is written with one line per clip, in order. *)
Definition concatenate_videos_simple (w : world) (video_paths : list path)
    (output_path : path) : M path :=
  let concat_file := joinpath w (parent w output_path) "concat_list_simple.txt" in
  io w (WriteConcatList concat_file video_paths) ;;;
  run w (concat_simple_cmd concat_file output_path) ;;;
  io w (Unlink concat_file) ;;;
  ret output_path.

(** [concatenate_with_smooth_transitions]. *)
Definition concatenate_with_smooth_transitions (w : world) (video_paths : list path)
    (output_path : path) : M path :=
  match video_paths with
  | [single] => shutil_copy w single output_path ;;; ret output_path
  | _ =>
      try_except any_exception
        (run w (xfade_cmd video_paths output_path) ;;; ret output_path)
        (fun _ => concatenate_videos_simple w video_paths output_path)
  end.

(** [concatenate_videos]; the copy of a single clip is outside the [try]. *)
Definition concatenate_videos (w : world) (video_paths : list path)
    (output_path : path) (with_transitions : bool) : M path :=
  match video_paths with
  | [] => raise (ValueError "No videos to concatenate")
  | [single] => shutil_copy w single output_path ;;; ret output_path
  | _ =>
      try_except any_exception
        (let concat_file := joinpath w (parent w output_path) "concat_list.txt" in
         io w (WriteConcatList concat_file video_paths) ;;;
         if with_transitions && Nat.leb (List.length video_paths) 10
         then concatenate_with_smooth_transitions w video_paths output_path
         else
           run w (concat_cmd concat_file output_path) ;;;
           (if file_exists w concat_file then io w (Unlink concat_file) else ret tt) ;;;
           ret output_path)
        (fun e => raise e)
  end.

(** The decision taken at lines 267-268 of the source, on doubles:
    [abs(video_duration - audio_duration) > 2.0] chooses between no
    adjustment ([None]) and the quotient of the two durations. *)
Definition speed_factor (video_duration audio_duration : float)
    : result (option float) :=
  if PrimFloat.ltb 2%float (PrimFloat.abs (PrimFloat.sub video_duration audio_duration))
  then match py_div video_duration audio_duration with
       | Ok f => Ok (Some f)
       | Raise e => Raise e
       end
  else Ok None.

Definition sync_cmd (video_path audio_path output_path : path) (factor : float) : cmd :=
  {| inputs := [Input video_path; Input audio_path];
     filter_v := [VSetpts factor; VFps 30];
     filter_a := [];
     filter_complex := [];
     maps := [MapVideo 0; MapAudio 1];
     limit_t := None;
     shortest := true;
     opts := [("-c:v", "libx264"); ("-preset", "fast"); ("-crf", "23");
              ("-c:a", "aac"); ("-b:a", "192k")];
     output := output_path |}.

Definition mux_cmd (video_path audio_path output_path : path) : cmd :=
  {| inputs := [Input video_path; Input audio_path];
     filter_v := [];
     filter_a := [];
     filter_complex := [];
     maps := [MapVideo 0; MapAudio 1];
     limit_t := None;
     shortest := true;
     opts := [("-c:v", "copy"); ("-c:a", "aac"); ("-b:a", "192k")];
     output := output_path |}.

Definition amix_cmd (video_path audio_path output_path : path) : cmd :=
  {| inputs := [Input video_path; Input audio_path];
     filter_v := [];
     filter_a := [];
     filter_complex := [CAmixShortest];
     maps := [MapVideo 0; MapLabel LAout];
     limit_t := None;
     shortest := false;
     opts := [("-c:v", "copy")];
     output := output_path |}.

(** [add_audio_to_video]; the handler logs and re-raises. *)
Definition add_audio_to_video (w : world) (video_path audio_path output_path : path)
    (mode : mix_mode) : M path :=
  try_except any_exception
    (let video_duration := get_video_duration w video_path in
     let audio_duration := get_audio_duration w audio_path in
     c <- match mode with
          | Replace =>
              f <- lift (speed_factor video_duration audio_duration) ;;
              match f with
              | Some factor => ret (sync_cmd video_path audio_path output_path factor)
              | None => ret (mux_cmd video_path audio_path output_path)
              end
          | Mix => ret (amix_cmd video_path audio_path output_path)
          end ;;
     run w c ;;;
     ret output_path)
    (fun e => raise e).

(** [generate_final_video].  The paths are built by [output_dir / name].
    The second component of [merged] tells whether the concatenated file
    has been renamed: [os.path.exists(concat_video)] then holds only if it
    was renamed onto itself. *)
Definition generate_final_video (w : world) (intro_video : option path)
    (segments : list path) (audio_path outro_video output_filename : option path)
    : M path :=
  let output_filename :=
    match output_filename with
    | Some f => f
    | None => ("final_video_" ++ timestamp w 0 ++ ".mp4")%string
    end in
  let output_path := joinpath w "videos" output_filename in
  let present (o : option path) : list path :=
    match o with
    | Some p => if truthy p && file_exists w p then [p] else []
    | None => []
    end in
  let all_segments := present intro_video ++ segments ++ present outro_video in
  try_except any_exception
    (let concat_video :=
       joinpath w "videos" ("temp_concat_" ++ timestamp w 1 ++ ".mp4")%string in
     concatenate_videos w all_segments concat_video true ;;;
     merged <-
       match present audio_path with
       | [a] =>
           final_path <- add_audio_to_video w concat_video a output_path Replace ;;
           ret (final_path, false)
       | _ => io w (Rename concat_video output_path) ;;; ret (output_path, true)
       end ;;
     let final_path := fst merged in
     let concat_exists :=
       if snd merged then String.eqb concat_video output_path
       else file_exists w concat_video in
     (if concat_exists && negb (String.eqb concat_video final_path)
      then io w (Unlink concat_video) else ret tt) ;;;
     ret final_path)
    (fun e => raise e).

End Final.

(* ================================================================== *)
(** * generate_video_single.py *)
(* ================================================================== *)

Module Single.

(** 0 = video, 1 = image: four stock clips, then one image, five times. *)
Definition pattern : list nat :=
  [0;0;0;0;1; 0;0;0;0;1; 0;0;0;0;1; 0;0;0;0;1; 0;0;0;0;1]%nat.

(** [get_audio_duration] of this module: the probed value or [0.0]. *)
Definition get_audio_duration (w : world) (audio_path : path) : Q :=
  match ffprobe w audio_path with
  | Some d => to_Q d
  | None => 0
  end.

(** Lines 55-60: with a narration file the base duration is the narration
    length over 25, clamped to [2.0, 2.5]; otherwise the argument is kept. *)
Definition base_duration (w : world) (audio_path : option path)
    (duration_per_clip : Q) : Q :=
  match audio_path with
  | Some a =>
      if truthy a && file_exists w a
      then
        let audio_duration := get_audio_duration w a in
        let optimal_duration := audio_duration / 25 in
        py_max 2 (py_min (5 # 2) optimal_duration)
      else duration_per_clip
  | None => duration_per_clip
  end.

(** Lines 83-84: [random.uniform(-0.3, 0.3)] is drawn for the position and
    added, then the sum is clamped to [2.0, 3.0]. *)
Definition segment_duration (w : world) (duration_per_clip : Q) (position : nat) : Q :=
  py_max 2 (py_min 3 (duration_per_clip
                      + uniform (- (3 # 10)) (3 # 10) (random_bits w position))).

Definition trim_cmd (video_path : path) (duration : Q) (output_path : path) : cmd :=
  {| inputs := [Input video_path];
     filter_v := [VScaleCrop; VFadeIn 0 (2 # 10); VFadeOut (duration - (2 # 10)) (2 # 10)];
     filter_a := [];
     filter_complex := [];
     maps := [];
     limit_t := Some duration;
     shortest := false;
     opts := [("-c:v", "libx264"); ("-preset", "fast"); ("-crf", "23"); ("-c:a", "aac")];
     output := output_path |}.

Definition image_cmd (image_path : path) (duration : Q) (output_path : path) : cmd :=
  let actual_duration := py_min duration (5 # 2) in
  {| inputs := [InLoop image_path];
     filter_v := [VScaleCropCentered; VZoompan (py_int (actual_duration * 30));
                  VFadeIn 0 (2 # 10); VFadeOut (actual_duration - (2 # 10)) (2 # 10)];
     filter_a := [];
     filter_complex := [];
     maps := [];
     limit_t := Some actual_duration;
     shortest := false;
     opts := [("-c:v", "libx264"); ("-preset", "medium"); ("-crf", "23");
              ("-pix_fmt", "yuv420p"); ("-r", "30")];
     output := output_path |}.

(** [create_video_from_image]: both handlers log and re-raise. *)
Definition create_video_from_image (w : world) (image_path output_path : path)
    (duration : Q) : M path :=
  try_except any_exception
    (run w (image_cmd image_path duration output_path) ;;; ret output_path)
    (fun e => raise e).

(** An output segment.  The Python list holds [seg_path] only; the other
    fields record what the loop knew when it appended the path. *)
Record segment : Type := {
  seg_path : path;
  seg_kind : nat;
  seg_position : nat;
  seg_source : nat;
  seg_duration : Q
}.

Record loop_state : Type := {
  video_idx : nat;
  image_idx : nat;
  segments : list segment
}.

Definition init : loop_state :=
  {| video_idx := 0; image_idx := 0; segments := [] |}.

Definition stock_output (w : world) (position : nat) : path :=
  ("videos/segment_stock_" ++ timestamp w position ++ "_" ++ str_nat position ++ ".mp4")%string.

Definition image_output (w : world) (position : nat) : path :=
  ("videos/segment_image_" ++ timestamp w position ++ "_" ++ str_nat position ++ ".mp4")%string.

(** One iteration of the loop over [enumerate(pattern)]. *)
Definition body (w : world) (images stock_videos : list path) (duration_per_clip : Q)
    (st : loop_state) (slot : nat * nat) : M loop_state :=
  let (position, segment_type) := slot in
  let d := segment_duration w duration_per_clip position in
  if Nat.eqb segment_type 0 then
    if Nat.ltb (video_idx st) (List.length stock_videos) then
      let video_path := nth (video_idx st) stock_videos "" in
      let output_path := stock_output w position in
      try_except any_exception
        (run w (trim_cmd video_path d output_path) ;;;
         ret {| video_idx := S (video_idx st);
                image_idx := image_idx st;
                segments := segments st ++
                  [{| seg_path := output_path; seg_kind := 0; seg_position := position;
                      seg_source := video_idx st; seg_duration := d |}] |})
        (fun _ =>
         ret {| video_idx := S (video_idx st);
                image_idx := image_idx st;
                segments := segments st |})
    else ret st
  else if Nat.eqb segment_type 1 then
    if Nat.ltb (image_idx st) (List.length images) then
      let image_path := nth (image_idx st) images "" in
      let output_path := image_output w position in
      try_except any_exception
        (create_video_from_image w image_path output_path d ;;;
         ret {| video_idx := video_idx st;
                image_idx := S (image_idx st);
                segments := segments st ++
                  [{| seg_path := output_path; seg_kind := 1; seg_position := position;
                      seg_source := image_idx st; seg_duration := d |}] |})
        (fun _ =>
         ret {| video_idx := video_idx st;
                image_idx := S (image_idx st);
                segments := segments st |})
    else ret st
  else ret st.

Fixpoint loop (w : world) (images stock_videos : list path) (duration_per_clip : Q)
    (slots : list (nat * nat)) (st : loop_state) : M loop_state :=
  match slots with
  | [] => ret st
  | slot :: rest =>
      st' <- body w images stock_videos duration_per_clip st slot ;;
      loop w images stock_videos duration_per_clip rest st'
  end.

Definition enumerate (l : list nat) : list (nat * nat) :=
  combine (seq 0 (List.length l)) l.

(** The loop run on the first [n] slots of the pattern. *)
Definition run_slots (w : world) (images stock_videos : list path)
    (audio_path : option path) (duration_per_clip : Q) (n : nat) : M loop_state :=
  loop w images stock_videos (base_duration w audio_path duration_per_clip)
       (firstn n (enumerate pattern)) init.

(** The segments of [generate_single_video], with their bookkeeping. *)
Definition plan (w : world) (images stock_videos : list path)
    (audio_path : option path) (duration_per_clip : Q) : M (list segment) :=
  st <- run_slots w images stock_videos audio_path duration_per_clip
          (List.length pattern) ;;
  ret (segments st).

(** [generate_single_video]: the list of produced segment paths. *)
Definition generate_single_video (w : world) (images stock_videos : list path)
    (audio_path : option path) (duration_per_clip : Q) : M (list path) :=
  segs <- plan w images stock_videos audio_path duration_per_clip ;;
  ret (map seg_path segs).

(** *** Vocabulary for the properties of the loop *)

(** The pool index of a kind, and the pool itself. *)
Definition idx (k : nat) (st : loop_state) : nat :=
  if Nat.eqb k 0 then video_idx st else image_idx st.

Definition pool (k : nat) (images stock_videos : list path) : list path :=
  if Nat.eqb k 0 then stock_videos else images.

(** The asset a segment was rendered from: its kind and pool index. *)
Definition key (s : segment) : nat * nat := (seg_kind s, seg_source s).

(** The command the loop runs for a slot in a given state. *)
Definition render_cmd (w : world) (images stock_videos : list path)
    (duration_per_clip : Q) (st : loop_state) (slot : nat * nat) : cmd :=
  let (position, k) := slot in
  let d := segment_duration w duration_per_clip position in
  if Nat.eqb k 0
  then trim_cmd (nth (video_idx st) stock_videos "") d (stock_output w position)
  else image_cmd (nth (image_idx st) images "") d (image_output w position).

Definition new_segment (w : world) (duration_per_clip : Q) (st : loop_state)
    (slot : nat * nat) : segment :=
  let (position, k) := slot in
  {| seg_path := if Nat.eqb k 0 then stock_output w position else image_output w position;
     seg_kind := k;
     seg_position := position;
     seg_source := idx k st;
     seg_duration := segment_duration w duration_per_clip position |}.

(** The state once the asset of kind [k] is consumed, with or without a segment. *)
Definition advance (k : nat) (st : loop_state) (new : option segment) : loop_state :=
  {| video_idx := if Nat.eqb k 0 then S (video_idx st) else video_idx st;
     image_idx := if Nat.eqb k 0 then image_idx st else S (image_idx st);
     segments := match new with
                 | Some s => segments st ++ [s]
                 | None => segments st
                 end |}.

(** A slot has an asset to render. *)
Definition has_asset (images stock_videos : list path) (st : loop_state)
    (slot : nat * nat) : bool :=
  let (_, k) := slot in
  (Nat.eqb k 0 || Nat.eqb k 1)
  && Nat.ltb (idx k st) (List.length (pool k images stock_videos)).

(** One iteration, as a relation between states. *)
Inductive step (w : world) (images stock_videos : list path) (duration_per_clip : Q)
    (st : loop_state) (slot : nat * nat) : loop_state -> Prop :=
| step_skipped :
    has_asset images stock_videos st slot = false ->
    step w images stock_videos duration_per_clip st slot st
| step_rendered :
    has_asset images stock_videos st slot = true ->
    ffmpeg w (render_cmd w images stock_videos duration_per_clip st slot) = true ->
    step w images stock_videos duration_per_clip st slot
         (advance (snd slot) st (Some (new_segment w duration_per_clip st slot)))
| step_failed :
    has_asset images stock_videos st slot = true ->
    ffmpeg w (render_cmd w images stock_videos duration_per_clip st slot) = false ->
    step w images stock_videos duration_per_clip st slot (advance (snd slot) st None).

Inductive steps (w : world) (images stock_videos : list path) (duration_per_clip : Q)
    : loop_state -> list (nat * nat) -> loop_state -> Prop :=
| steps_done st : steps w images stock_videos duration_per_clip st [] st
| steps_next st slot st1 rest st2 :
    step w images stock_videos duration_per_clip st slot st1 ->
    steps w images stock_videos duration_per_clip st1 rest st2 ->
    steps w images stock_videos duration_per_clip st (slot :: rest) st2.

(** The state a computation ends in. *)
Definition final_state (m : M loop_state) : loop_state :=
  match outcome m with
  | Ok st => st
  | Raise _ => init
  end.

(** The loop state after the first [n] slots. *)
Definition state_after (w : world) (images stock_videos : list path)
    (audio_path : option path) (duration_per_clip : Q) (n : nat) : loop_state :=
  final_state (run_slots w images stock_videos audio_path duration_per_clip n).

(** *** Further functions of the module *)

Definition copy_trim_cmd (input_path : path) (duration : Q) (output_path : path) : cmd :=
  {| inputs := [Input input_path];
     filter_v := [];
     filter_a := [];
     filter_complex := [];
     maps := [];
     limit_t := Some duration;
     shortest := false;
     opts := [("-c", "copy")];
     output := output_path |}.

Definition reencode_trim_cmd (input_path : path) (duration : Q) (output_path : path)
    : cmd :=
  {| inputs := [Input input_path];
     filter_v := [];
     filter_a := [];
     filter_complex := [];
     maps := [];
     limit_t := Some duration;
     shortest := false;
     opts := [("-c:v", "libx264"); ("-c:a", "aac")];
     output := output_path |}.

(** [trim_video_segment]: a stream copy first; on any failure a re-encode,
    whose exception is re-raised. *)
Definition trim_video_segment (w : world) (input_path output_path : path)
    (duration : Q) : M path :=
  try_except any_exception
    (run w (copy_trim_cmd input_path duration output_path) ;;; ret output_path)
    (fun _ =>
       try_except any_exception
         (run w (reencode_trim_cmd input_path duration output_path) ;;; ret output_path)
         (fun e => raise e)).

End Single.

(* ================================================================== *)
(** * video_engagement.py *)
(* ================================================================== *)

Module Engagement.

(** Characters below 256 for which [str.isspace] holds. *)
Definition is_space (c : ascii) : bool :=
  let n := nat_of_ascii c in
  (Nat.leb 9 n && Nat.leb n 13) || (Nat.leb 28 n && Nat.leb n 32)
  || Nat.eqb n 133 || Nat.eqb n 160.

Fixpoint lstrip (s : string) : string :=
  match s with
  | EmptyString => EmptyString
  | String c r => if is_space c then lstrip r else s
  end.

Fixpoint rstrip (s : string) : string :=
  match s with
  | EmptyString => EmptyString
  | String c r =>
      match rstrip r with
      | EmptyString => if is_space c then EmptyString else String c EmptyString
      | r' => String c r'
      end
  end.

(** [s.strip()]. *)
Definition strip (s : string) : string := rstrip (lstrip s).

(** [s.split(sep)] for a one-character separator. *)
Fixpoint split (sep : ascii) (s : string) : list string :=
  match s with
  | EmptyString => [EmptyString]
  | String c r =>
      if Ascii.eqb c sep then EmptyString :: split sep r
      else match split sep r with
           | h :: t => String c h :: t
           | [] => [String c EmptyString]
           end
  end.

(** [s.replace(c, "")] for a one-character [c]. *)
Fixpoint remove_char (c : ascii) (s : string) : string :=
  match s with
  | EmptyString => EmptyString
  | String x r => if Ascii.eqb x c then remove_char c r else String x (remove_char c r)
  end.

(** The dictionaries [{"text": ..., "start": ..., "duration": ...}]. *)
Record point : Type := {
  text : string;
  start : float;
  duration : float
}.

Definition key_phrases (content : string) : list string :=
  let sentences := firstn 5 (split "." content) in
  map (fun s => substring 0 50 (strip s))
      (filter (fun s => truthy (strip s)) sentences).

(** The loop over [enumerate(key_phrases)], from index [i] on; the product
    [interval * (i + 1)] is a product of doubles. *)
Fixpoint points_from (interval : float) (i : nat) (phrases : list string) : list point :=
  match phrases with
  | [] => []
  | phrase :: rest =>
      {| text := phrase;
         start := PrimFloat.mul interval (float_of_nat (i + 1));
         duration := 2%float |} :: points_from interval (S i) rest
  end.

(** [generate_engagement_points]; the divisor [len(key_phrases) + 1] is never
    zero, and the quotient is a quotient of doubles. *)
Definition generate_engagement_points (video_duration : float) (content : string)
    : list point :=
  let phrases := key_phrases content in
  let interval := PrimFloat.div video_duration (float_of_nat (List.length phrases + 1)) in
  points_from interval 0 phrases.

(** [get_video_duration] of the optimizer: 30.0 when the probe fails. *)
Definition get_video_duration (w : world) (video_path : path) : float :=
  match ffprobe w video_path with
  | Some d => d
  | None => 30%float
  end.

Definition clean (s : string) : string :=
  remove_char ":" (remove_char "!" (remove_char "'" s)).

Definition overlay_filter (p : point) : vfilter :=
  VDrawtext {| dt_text := clean (text p);
               dt_fontsize := 60;
               dt_fontcolor := "white";
               dt_y := "h-150";
               dt_enable := Between (start p) (PrimFloat.add (start p) (duration p)) |}.

Definition overlay_cmd (video_path : path) (text_points : list point)
    (output_path : path) : cmd :=
  {| inputs := [Input video_path];
     filter_v := map overlay_filter text_points;
     filter_a := [];
     filter_complex := [];
     maps := [];
     limit_t := None;
     shortest := false;
     opts := [("-c:v", "libx264"); ("-c:a", "copy")];
     output := output_path |}.

(** [add_text_overlay_intervals]: only [CalledProcessError] is handled. *)
Definition add_text_overlay_intervals (w : world) (video_path : path)
    (text_points : list point) (output_path : path) : M path :=
  try_except is_CalledProcessError
    (run w (overlay_cmd video_path text_points output_path) ;;; ret output_path)
    (fun _ => ret video_path).

Definition cta_cmd (w : world) (video_path : path) (cta_text : string)
    (output_path : path) : cmd :=
  let cta_clean := clean cta_text in
  let video_duration := get_video_duration w video_path in
  {| inputs := [Input video_path];
     filter_v := [VDrawtext {| dt_text := cta_clean;
                               dt_fontsize := 70;
                               dt_fontcolor := "yellow";
                               dt_y := "h-200";
                               dt_enable := After (PrimFloat.sub video_duration 5%float) |}];
     filter_a := [];
     filter_complex := [];
     maps := [];
     limit_t := None;
     shortest := false;
     opts := [("-c:v", "libx264"); ("-c:a", "copy")];
     output := output_path |}.

(** [add_call_to_action]: only [CalledProcessError] is handled. *)
Definition add_call_to_action (w : world) (video_path : path) (cta_text : string)
    (output_path : path) : M path :=
  try_except is_CalledProcessError
    (run w (cta_cmd w video_path cta_text output_path) ;;; ret output_path)
    (fun _ => ret video_path).

(** *** Further functions of the optimizer *)

Definition OPTIMAL_SEGMENT_LENGTH : Q := 5 # 2.

(** [s.replace(old, new)] for a non-empty [old]: the occurrences are taken
    from left to right and do not overlap.  [skip] counts the characters of
    a matched occurrence that are still to be dropped. *)
Fixpoint replace_from (old new : string) (skip : nat) (s : string) : string :=
  match s with
  | EmptyString => EmptyString
  | String c r =>
      match skip with
      | S k => replace_from old new k r
      | O =>
          if prefix old s
          then (new ++ replace_from old new (String.length old - 1) r)%string
          else String c (replace_from old new 0 r)
      end
  end.

Definition str_replace (old new s : string) : string := replace_from old new 0 s.

Definition pace_cmd (segment output_path : path) : cmd :=
  {| inputs := [Input segment];
     filter_v := [];
     filter_a := [];
     filter_complex := [];
     maps := [];
     limit_t := Some OPTIMAL_SEGMENT_LENGTH;
     shortest := false;
     opts := [("-c:v", "libx264"); ("-c:a", "aac")];
     output := output_path |}.

(** One iteration of [optimize_pacing]: the bare [except] keeps the segment. *)
Definition pace_one (w : world) (optimized : list path) (segment : path)
    : M (list path) :=
  let output_path := str_replace ".mp4" "_paced.mp4" segment in
  try_except any_exception
    (run w (pace_cmd segment output_path) ;;; ret (optimized ++ [output_path]))
    (fun _ => ret (optimized ++ [segment])).

Fixpoint pace_loop (w : world) (segments : list path) (optimized : list path)
    : M (list path) :=
  match segments with
  | [] => ret optimized
  | segment :: rest =>
      optimized' <- pace_one w optimized segment ;;
      pace_loop w rest optimized'
  end.

(** [optimize_pacing]. *)
Definition optimize_pacing (w : world) (segments : list path) : M (list path) :=
  pace_loop w segments [].

End Engagement.

(* ================================================================== *)
(** * generate_image.py *)
(* ================================================================== *)

Module Image.

Definition image_file (w : world) (i : nat) : path :=
  ("assets/image_" ++ timestamp w i ++ "_" ++ str_nat (i + 1) ++ ".png")%string.

Definition has_key (w : world) (name : string) : bool := truthy_opt (getenv w name).

(** [generate_with_pexels]: needs its key, then searches and downloads. *)
Definition generate_with_pexels (w : world) (prompt : string) (output_path : path) : M path :=
  tell (Try "pexels") ;;;
  try_except any_exception
    (if has_key w "PEXELS_API_KEY"
     then if pexels w prompt output_path then ret output_path else raise RequestException
     else raise (ValueError "PEXELS_API_KEY not set"))
    (fun e => raise e).

(** [generate_with_unsplash]: one download, no key. *)
Definition generate_with_unsplash (w : world) (prompt : string) (output_path : path) : M path :=
  tell (Try "unsplash") ;;;
  try_except any_exception
    (if unsplash w prompt output_path then ret output_path else raise RequestException)
    (fun e => raise e).

Definition max_retries : nat := 3.

(** The [for attempt in range(max_retries)] loop; it yields the response
    bound to [response] when the loop is left. *)
Fixpoint hf_loop (w : world) (output_path : path) (attempt remaining : nat)
    (response : option (nat * string)) : M (option (nat * string)) :=
  match remaining with
  | O => ret response
  | S remaining' =>
      tell (Post output_path attempt) ;;;
      match hf_post w output_path attempt with
      | NoResponse => raise RequestException
      | Response status content =>
          if Nat.eqb status 503
          then tell (Sleep 20) ;;;
               hf_loop w output_path (S attempt) remaining' (Some (status, content))
          else if negb (Nat.eqb status 200)
               then raise (ApiError status)
               else ret (Some (status, content))
      end
  end.

(** [generate_with_huggingface]. *)
Definition generate_with_huggingface (w : world) (prompt : string) (output_path : path)
    : M path :=
  tell (Try "huggingface") ;;;
  try_except any_exception
    (if has_key w "HUGGINGFACE_API_KEY"
     then
       response <- hf_loop w output_path 0 max_retries None ;;
       match response with
       | Some (_, content) => tell (WriteBytes output_path content) ;;; ret output_path
       | None => raise (NameError "response")
       end
     else raise (ValueError "HUGGINGFACE_API_KEY not set"))
    (fun e => raise e).

(** [generate_with_stability] and [generate_with_dalle] are named by
    [generate_images] but defined nowhere in the sources: looking the name
    up raises [NameError], and no provider is called. *)
Definition generate_with_stability (output_path : path) : M path :=
  raise (NameError "generate_with_stability").

Definition generate_with_dalle (output_path : path) : M path :=
  raise (NameError "generate_with_dalle").

(** [generate_placeholder]. *)
Definition generate_placeholder (w : world) (text : string) (output_path : path) : M path :=
  tell (Try "placeholder") ;;;
  try_except any_exception
    (if pil_save w text output_path then ret output_path
     else raise (OtherError "placeholder"))
    (fun e => raise e).

(** An inner [try: img_path = provider(...) except Exception: img_path = None]. *)
Definition attempt (m : M path) : M (option path) :=
  try_except any_exception (p <- m ;; ret (Some p)) (fun _ => ret None).

(** The body of the outer [try] for image [i]. *)
Definition chain (w : world) (prompt : string) (image_path : path) : M path :=
  img1 <- (if has_key w "PEXELS_API_KEY"
           then attempt (generate_with_pexels w prompt image_path)
           else ret None) ;;
  img2 <- (if negb (truthy_opt img1)
           then attempt (generate_with_unsplash w prompt image_path)
           else ret img1) ;;
  img3 <- (if negb (truthy_opt img2) && has_key w "HUGGINGFACE_API_KEY"
           then attempt (generate_with_huggingface w prompt image_path)
           else ret img2) ;;
  img4 <- (if negb (truthy_opt img3) && has_key w "STABILITY_API_KEY"
           then attempt (generate_with_stability image_path)
           else ret img3) ;;
  img5 <- (if negb (truthy_opt img4) && has_key w "OPENAI_API_KEY"
           then attempt (generate_with_dalle image_path)
           else ret img4) ;;
  match img5 with
  | Some p => if truthy p then ret p else generate_placeholder w prompt image_path
  | None => generate_placeholder w prompt image_path
  end.

(** One iteration of [for i in range(count)]: the image paths after it. *)
Definition one_image (w : world) (prompt : string) (image_paths : list path) (i : nat)
    : M (list path) :=
  let image_path := image_file w i in
  try_except any_exception
    (p <- chain w prompt image_path ;; ret (image_paths ++ [p]))
    (fun _ =>
       try_except any_exception
         (p <- generate_placeholder w ("Image " ++ str_nat (i + 1))%string image_path ;;
          ret (image_paths ++ [p]))
         (fun _ => ret image_paths)).

Fixpoint images_loop (w : world) (prompt : string) (indices : list nat)
    (image_paths : list path) : M (list path) :=
  match indices with
  | [] => ret image_paths
  | i :: rest =>
      image_paths' <- one_image w prompt image_paths i ;;
      images_loop w prompt rest image_paths'
  end.

(** [generate_images]. *)
Definition generate_images (w : world) (prompt : string) (count : nat) : M (list path) :=
  images_loop w prompt (seq 0 count) [].

(** The provider calls of a log, in order. *)
Definition provider_calls (l : list action) : list string :=
  flat_map (fun a => match a with Try p => [p] | _ => [] end) l.

End Image.

(* ================================================================== *)
(** * main.py *)
(* ================================================================== *)

Module Main.

(** [c.lower()] for a character below 256. *)
Definition lower_char (c : ascii) : ascii :=
  let n := nat_of_ascii c in
  if (Nat.leb 65 n && Nat.leb n 90)
     || (Nat.leb 192 n && Nat.leb n 222 && negb (Nat.eqb n 215))
  then ascii_of_nat (n + 32)
  else c.

(** [s.lower()]. *)
Fixpoint lower (s : string) : string :=
  match s with
  | EmptyString => EmptyString
  | String c r => String (lower_char c) (lower r)
  end.

(** [sub in s] on strings. *)
Fixpoint contains (sub s : string) : bool :=
  prefix sub s
  || match s with
     | EmptyString => false
     | String _ r => contains sub r
     end.

Definition important_words : list string :=
  ["gaming"; "mouse"; "keyboard"; "precision"; "ergonomic"; "RGB";
   "wireless"; "mechanical"; "optical"; "sensor"; "design"; "technology";
   "performance"; "quality"; "speed"; "accuracy"; "comfort"; "professional";
   "studio"; "headset"; "audio"; "microphone"; "streaming"; "equipment"].

(** The body of the loop over [important_words]. *)
Definition add_keyword (content_lower : string) (keywords : list string)
    (word : string) : list string :=
  if contains word content_lower
     && negb (existsb (String.eqb word) (map lower keywords))
  then keywords ++ [word]
  else keywords.

(** [extract_content_keywords]; the capitalised words found by the regular
    expression are never used by the function. *)
Definition extract_content_keywords (content : string)
    (original_keywords : option (list string)) : list string :=
  let keywords :=
    match original_keywords with
    | Some l => l
    | None => []
    end in
  let content_lower := lower content in
  firstn 7 (fold_left (add_keyword content_lower) important_words keywords).

(** Steps 9 and 10 of [run_full_pipeline] (lines 254-279): the engagement
    points, the compilation, then the two burn-ins.  [with_stem p suffix]
    stands for [Path(p).with_stem(Path(p).stem + suffix)]. *)
Definition compile_and_engage (with_stem : path -> string -> path) (w : world)
    (hook_video intro_video : path) (segments : list path) (audio_path : path)
    (content : string) : M path :=
  let audio_duration :=
    if file_exists w audio_path
    then Engagement.get_video_duration w audio_path
    else 30%float in
  let engagement_points :=
    Engagement.generate_engagement_points audio_duration content in
  let all_segments := [hook_video; intro_video] ++ segments in
  final_video <- Final.generate_final_video w None all_segments (Some audio_path)
                   None None ;;
  let final_with_overlays := with_stem final_video "_engaged" in
  final_video <- Engagement.add_text_overlay_intervals w final_video
                   engagement_points final_with_overlays ;;
  let final_with_cta := with_stem final_video "_cta" in
  Engagement.add_call_to_action w final_video "Get Yours Now!" final_with_cta.

End Main.

(* ================================================================== *)
(** * Vocabulary of the properties *)
(* ================================================================== *)

Module Vocabulary.

(** ** Observations on [generate_video_final.py] *)

Section OnFinal.

Import Final.

(** The narration is mapped straight from the second input: no audio
    filter, no filter graph. *)
Definition audio_untouched (c : cmd) : Prop :=
  filter_a c = [] /\ filter_complex c = [] /\ maps c = [MapVideo 0; MapAudio 1].

(** The video stream is copied and the output stops with the shorter stream. *)
Definition no_speed_adjustment (c : cmd) : Prop :=
  filter_v c = [] /\ In ("-c:v", "copy") (opts c) /\ shortest c = true.

(** The video timestamps are multiplied by [f]. *)
Definition video_retimed (f : float) (c : cmd) : Prop :=
  filter_v c = [VSetpts f; VFps 30] /\ shortest c = true.

(** The test of the synchronizer, as the code evaluates it on doubles:
    [abs(v - n) > 2.0]. *)
Definition far_apart (v n : float) : bool :=
  PrimFloat.ltb 2%float (PrimFloat.abs (PrimFloat.sub v n)).

(** The command reads the video, then the narration, and writes [out]. *)
Definition merges (vp ap out : path) (c : cmd) : Prop :=
  inputs c = [Input vp; Input ap] /\ output c = out.

(** The policy of the synchronizer for one merge in replace mode. *)
Definition sync_policy (w : world) (vp ap out : path) : Prop :=
  let v := get_video_duration w vp in
  let n := get_audio_duration w ap in
  exists c,
    commands (log_of (add_audio_to_video w vp ap out Replace)) = [c] /\
    merges vp ap out c /\
    audio_untouched c /\
    (far_apart v n = false -> no_speed_adjustment c) /\
    (far_apart v n = true -> video_retimed (PrimFloat.div v n) c).

(** The durations of the xfade transitions of a command. *)
Definition xfade_durations (c : cmd) : list Q :=
  flat_map (fun f => match f with CXfade _ _ d _ _ => [d] | _ => [] end)
           (filter_complex c).

Definition simple_list (w : world) (out : path) : path :=
  joinpath w (parent w out) "concat_list_simple.txt".

Definition concat_list (w : world) (out : path) : path :=
  joinpath w (parent w out) "concat_list.txt".

End OnFinal.

(** ** Observations on [generate_video_single.py] *)

Section OnSingle.

Import Single.

(** Every segment comes from an asset below the current index of its pool,
    and no asset is used twice. *)
Definition consumed_once (st : loop_state) : Prop :=
  (forall s, In s (segments st) -> (seg_source s < idx (seg_kind s) st)%nat)
  /\ NoDup (map key (segments st)).

(** A step only moves the indices forward; what it appends comes from the
    asset at the current index of the slot's pool, and has the slot's
    position, kind and planned duration. *)
Definition extends (w : world) (dpc : Q) (slots : list (nat * nat))
    (st st' : loop_state) : Prop :=
  (video_idx st <= video_idx st')%nat
  /\ (image_idx st <= image_idx st')%nat
  /\ (List.length (segments st') <= List.length (segments st) + List.length slots)%nat
  /\ forall s, In s (segments st') ->
       In s (segments st)
       \/ ((idx (seg_kind s) st <= seg_source s)%nat
           /\ In (seg_position s, seg_kind s) slots
           /\ seg_duration s = segment_duration w dpc (seg_position s)).

End OnSingle.

(** ** Observations on [video_engagement.py] *)

Section OnEngagement.

Import Engagement.

(** An overlay ends inside a timeline of length [T]: the sum is the exact
    sum of the two doubles of the point. *)
Definition within_timeline (T : float) (p : point) : Prop :=
  to_Q (start p) + to_Q (duration p) <= to_Q T.

End OnEngagement.

(** ** Observations on [generate_image.py] *)

Section OnImage.

Import Image.

(** The providers that [generate_images] tries before the placeholder, in
    the order of the source; a provider with a key is tried only when its
    key is configured. *)
Definition enabled_chain (w : world) : list string :=
  (if has_key w "PEXELS_API_KEY" then ["pexels"] else [])
  ++ ["unsplash"]
  ++ (if has_key w "HUGGINGFACE_API_KEY" then ["huggingface"] else []).

(** Every provider fails for this prompt, the placeholder included. *)
Definition all_failing (w : world) (prompt : string) : Prop :=
  (forall out, pexels w prompt out = false)
  /\ (forall out, unsplash w prompt out = false)
  /\ (forall out, exists e, outcome (generate_with_huggingface w prompt out) = Raise e)
  /\ (forall text out, pil_save w text out = false).

(** The requests and the pauses of a log. *)
Definition posts (l : list action) : list nat :=
  flat_map (fun a => match a with Post _ n => [n] | _ => [] end) l.

Definition sleeps (l : list action) : list nat :=
  flat_map (fun a => match a with Sleep s => [s] | _ => [] end) l.

(** The requests of a log, sent for the file [out], that were answered
    with status 503. *)
Definition loading_answers (w : world) (out : path) (l : list action) : nat :=
  List.length
    (filter (fun n => match hf_post w out n with
                      | Response status _ => Nat.eqb status 503
                      | NoResponse => false
                      end)
            (posts l)).

(** The retry discipline of the inference provider, read off a log: the
    requests are numbered from 0 and there are at most three; a request is
    sent again only after a 503 answer; and each 503 answer is followed by
    one pause of 20 s, there being no other pause. *)
Definition bounded_retries (w : world) (out : path) (l : list action) : Prop :=
  posts l = seq 0 (List.length (posts l))
  /\ (List.length (posts l) <= 3)%nat
  /\ (List.length (posts l) <= loading_answers w out l + 1)%nat
  /\ sleeps l = repeat 20%nat (loading_answers w out l).

(** The claim as the spec words it, for one image: the resolution ends in a
    raised failure after one call per provider of the chain. *)
Definition exhaustion_raised (w : world) (prompt : string) : Prop :=
  (exists e, outcome (generate_images w prompt 1) = Raise e)
  /\ provider_calls (log_of (generate_images w prompt 1))
     = enabled_chain w ++ ["placeholder"].

End OnImage.

(** ** Further observations *)

Section Further.

(** An optional path that is given, non-empty and present on disk. *)
Definition existing (w : world) (o : option path) : list path :=
  match o with
  | Some p => if truthy p && file_exists w p then [p] else []
  | None => []
  end.

(** The path [generate_final_video] gives to the concatenation. *)
Definition concat_target (w : world) : path :=
  joinpath w "videos" ("temp_concat_" ++ timestamp w 1 ++ ".mp4")%string.

(** The path [generate_final_video] writes the result to. *)
Definition final_target (w : world) (output_filename : option path) : path :=
  joinpath w "videos" match output_filename with
                      | Some f => f
                      | None => ("final_video_" ++ timestamp w 0 ++ ".mp4")%string
                      end.

(** The segments of a run of [generate_single_video]. *)
Definition produced (w : world) (images stock_videos : list path)
    (audio_path : option path) (dpc : Q) : list Single.segment :=
  Single.segments (Single.state_after w images stock_videos audio_path dpc 25).

(** The number of slots of kind [k]. *)
Definition slots_of_kind (k : nat) (slots : list (nat * nat)) : nat :=
  List.length (filter (fun slot => Nat.eqb (snd slot) k) slots).

(** A segment as the loop should leave it: a duration in [[2.0, 3.0]], a
    source inside its pool, and the kind the pattern has at its position. *)
Definition segment_ok (images stock_videos : list path) (s : Single.segment) : Prop :=
  (2 <= Single.seg_duration s /\ Single.seg_duration s <= 3)
  /\ (Single.seg_source s
      < List.length (Single.pool (Single.seg_kind s) images stock_videos))%nat
  /\ nth_error Single.pattern (Single.seg_position s) = Some (Single.seg_kind s).

(** A segment is the output of a command of the log that succeeded and
    asked for a clip of [t] seconds, with [t] in [[2.0, 3.0]]: the planned
    duration for a stock clip, that duration capped at 2.5 s for an image. *)
Definition rendered (w : world) (l : list action) (s : Single.segment) : Prop :=
  exists c t,
    In (Run c) l /\ ffmpeg w c = true /\ output c = Single.seg_path s
    /\ limit_t c = Some t /\ 2 <= t /\ t <= 3
    /\ (Single.seg_kind s = 0%nat -> t = Single.seg_duration s)
    /\ (Single.seg_kind s = 1%nat -> t = py_min (Single.seg_duration s) (5 # 2)).

(** Sources stay inside their pool. *)
Definition sources_in_pool (images stock_videos : list path)
    (st : Single.loop_state) : Prop :=
  Forall (fun s => (Single.seg_source s
                    < List.length (Single.pool (Single.seg_kind s) images stock_videos))%nat)
         (Single.segments st).

(** The characters of a string. *)
Definition chars (s : string) : list ascii := list_ascii_of_string s.

(** The characters the overlay code strips before handing a text to ffmpeg. *)
Definition stripped_char (c : ascii) : bool :=
  Ascii.eqb c "'" || Ascii.eqb c "!" || Ascii.eqb c ":".

(** The [drawtext] filters of a command. *)
Definition drawtexts (c : cmd) : list drawtext :=
  flat_map (fun f => match f with VDrawtext d => [d] | _ => [] end) (filter_v c).

(** A string that begins with a white-space character. *)
Definition starts_with_space (s : string) : bool :=
  match s with
  | String c _ => Engagement.is_space c
  | EmptyString => false
  end.

(** What every key phrase satisfies. *)
Definition phrase_ok (ph : string) : Prop :=
  ph <> EmptyString
  /\ (String.length ph <= 50)%nat
  /\ ~ In "."%char (chars ph)
  /\ starts_with_space ph = false.

(** The file name [optimize_pacing] writes a paced segment to. *)
Definition paced (segment : path) : path :=
  Engagement.str_replace ".mp4" "_paced.mp4" segment.

(** The segment [optimize_pacing] keeps for an input segment. *)
Definition paced_or_kept (w : world) (segment : path) : path :=
  if ffmpeg w (Engagement.pace_cmd segment (paced segment))
  then paced segment else segment.

(** A computation ended normally. *)
Definition is_ok {A} (m : M A) : bool :=
  match outcome m with
  | Ok _ => true
  | Raise _ => false
  end.

(** Whether a provider of the image chain, named as in the log, delivers
    the image for a prompt and a target file. *)
Definition succeeds (w : world) (prompt : string) (out : path) (provider : string)
    : bool :=
  if String.eqb provider "pexels" then pexels w prompt out
  else if String.eqb provider "unsplash" then unsplash w prompt out
  else if String.eqb provider "huggingface"
       then is_ok (Image.generate_with_huggingface w prompt out)
  else if String.eqb provider "placeholder" then pil_save w prompt out
  else false.

(** The providers called when a list is tried in order until one succeeds. *)
Fixpoint until_success (ok : string -> bool) (providers : list string) : list string :=
  match providers with
  | [] => []
  | p :: rest => if ok p then [p] else p :: until_success ok rest
  end.

(** Image [i] is obtained: by the chain, or by the placeholder of the handler. *)
Definition obtained (w : world) (prompt : string) (i : nat) : bool :=
  existsb (succeeds w prompt (Image.image_file w i))
          (enabled_chain w ++ ["placeholder"])
  || pil_save w ("Image " ++ str_nat (i + 1))%string (Image.image_file w i).

(** An important word is wanted for a content and original keywords when
    it occurs in the lowercased content and is not, lowercased, among the
    original keywords. *)
Definition wanted (content : string) (base : list string) (word : string) : bool :=
  Main.contains word (Main.lower content)
  && negb (existsb (String.eqb word) (map Main.lower base)).

(** No word of the list equals the lowercased form of an earlier one. *)
Fixpoint unblocked (l : list string) : bool :=
  match l with
  | [] => true
  | x :: rest =>
      forallb (fun y => negb (String.eqb y (Main.lower x))) rest && unblocked rest
  end.

(** The original keywords as a list. *)
Definition given (original_keywords : option (list string)) : list string :=
  match original_keywords with
  | Some l => l
  | None => []
  end.

(** *** Pads of a filter graph *)

Definition label_eqb (a b : label) : bool :=
  match a, b with
  | LIn i, LIn j => Nat.eqb i j
  | LV i, LV j => Nat.eqb i j
  | LVout i, LVout j => Nat.eqb i j
  | LAout, LAout => true
  | _, _ => false
  end.

Definition has_pad (x : label) (pads : list label) : bool :=
  existsb (label_eqb x) pads.

(** Consuming a pad: an output pad feeds one filter only. *)
Fixpoint take_pad (x : label) (pads : list label) : option (list label) :=
  match pads with
  | [] => None
  | y :: rest =>
      if label_eqb x y then Some rest
      else option_map (cons y) (take_pad x rest)
  end.

(** The free pads after the filters of a graph over [n] inputs, or [None]
    when a filter reads an input that does not exist, consumes a pad that
    is not free, or names a pad that is already free. *)
Fixpoint pads_after (n : nat) (pads : list label) (graph : list cfilter)
    : option (list label) :=
  match graph with
  | [] => Some pads
  | CScale i :: rest =>
      if Nat.ltb i n && negb (has_pad (LV i) pads)
      then pads_after n (pads ++ [LV i]) rest
      else None
  | CXfade a b _ _ o :: rest =>
      match take_pad a pads with
      | Some pads1 =>
          match take_pad b pads1 with
          | Some pads2 =>
              if has_pad o pads2 then None
              else pads_after n (pads2 ++ [o]) rest
          | None => None
          end
      | None => None
      end
  | CAmixShortest :: rest =>
      if has_pad LAout pads then None else pads_after n (pads ++ [LAout]) rest
  end.

(** *** What a joining command does *)



(** No file operation fails. *)
Definition files_writable (w : world) : Prop := forall a, fs_error w a = None.

End Further.

(** ** Concrete worlds used to run the code *)

(** Every tool succeeds, nothing is probed, no key is configured; the
    generator draws three quarters, so that the jitter is 0.15 s. *)
Definition calm_world : world :=
  {| ffmpeg := fun _ => true;
     run_error := fun _ => CalledProcessError;
     fs_error := fun _ => None;
     ffprobe := fun _ => None;
     file_exists := fun _ => true;
     getenv := fun _ => None;
     random_bits := fun _ => (3 * 2 ^ 51)%N;
     timestamp := fun _ => "20240101_120000";
     parent := fun _ => "videos";
     joinpath := fun a b => (a ++ "/" ++ b)%string;
     pexels := fun _ _ => false;
     unsplash := fun _ _ => false;
     hf_post := fun _ _ => NoResponse;
     pil_save := fun _ _ => true |}.

(** [calm_world] with the durations reported for one video and one audio file. *)
Definition probing_world (video : path) (v : option float) (audio : path)
    (n : option float) : world :=
  {| ffmpeg := ffmpeg calm_world;
     run_error := run_error calm_world;
     fs_error := fs_error calm_world;
     ffprobe := fun p => if String.eqb p video then v
                         else if String.eqb p audio then n else None;
     file_exists := file_exists calm_world;
     getenv := getenv calm_world;
     random_bits := random_bits calm_world;
     timestamp := timestamp calm_world;
     parent := parent calm_world;
     joinpath := joinpath calm_world;
     pexels := pexels calm_world;
     unsplash := unsplash calm_world;
     hf_post := hf_post calm_world;
     pil_save := pil_save calm_world |}.

(** The run used below: the narration file exists but its probe fails, so
    [get_audio_duration] reports 0.0; the concatenated video lasts 53 s. *)
Definition silent_world : world :=
  probing_world "videos/temp_concat_20240101_120000.mp4" (Some 53%float)
                "audio/narration.mp3" None.

(** A world in which the transcoder rejects one stock clip. *)
Definition flaky_world : world :=
  {| ffmpeg := fun c => match inputs c with
                        | [Input p] => negb (String.eqb p "stock/bad.mp4")
                        | _ => true
                        end;
     run_error := run_error calm_world;
     fs_error := fs_error calm_world;
     ffprobe := ffprobe calm_world;
     file_exists := file_exists calm_world;
     getenv := getenv calm_world;
     random_bits := random_bits calm_world;
     timestamp := timestamp calm_world;
     parent := parent calm_world;
     joinpath := joinpath calm_world;
     pexels := pexels calm_world;
     unsplash := unsplash calm_world;
     hf_post := hf_post calm_world;
     pil_save := pil_save calm_world |}.

(** A world whose transcoder fails on every command. *)
Definition broken_world : world :=
  {| ffmpeg := fun _ => false;
     run_error := run_error calm_world;
     fs_error := fs_error calm_world;
     ffprobe := ffprobe calm_world;
     file_exists := file_exists calm_world;
     getenv := getenv calm_world;
     random_bits := random_bits calm_world;
     timestamp := timestamp calm_world;
     parent := parent calm_world;
     joinpath := joinpath calm_world;
     pexels := pexels calm_world;
     unsplash := unsplash calm_world;
     hf_post := hf_post calm_world;
     pil_save := pil_save calm_world |}.

(** No key configured, no network, and the drawing library fails. *)
Definition bleak_world : world :=
  {| ffmpeg := ffmpeg calm_world;
     run_error := run_error calm_world;
     fs_error := fs_error calm_world;
     ffprobe := ffprobe calm_world;
     file_exists := file_exists calm_world;
     getenv := getenv calm_world;
     random_bits := random_bits calm_world;
     timestamp := timestamp calm_world;
     parent := parent calm_world;
     joinpath := joinpath calm_world;
     pexels := pexels calm_world;
     unsplash := unsplash calm_world;
     hf_post := hf_post calm_world;
     pil_save := fun _ _ => false |}.

(** A world whose inference endpoint is still loading at the first
    request and answers at the second; its key is configured. *)
Definition warming_world : world :=
  {| ffmpeg := ffmpeg calm_world;
     run_error := run_error calm_world;
     fs_error := fs_error calm_world;
     ffprobe := ffprobe calm_world;
     file_exists := file_exists calm_world;
     getenv := fun name => if String.eqb name "HUGGINGFACE_API_KEY"
                           then Some "hf_token" else None;
     random_bits := random_bits calm_world;
     timestamp := timestamp calm_world;
     parent := parent calm_world;
     joinpath := joinpath calm_world;
     pexels := pexels calm_world;
     unsplash := unsplash calm_world;
     hf_post := fun _ n => if Nat.eqb n 0 then Response 503 "loading"
                           else Response 200 "png-bytes";
     pil_save := pil_save calm_world |}.

(** A text with a NUL character in it. *)
Definition has_nul (s : string) : bool := existsb (Ascii.eqb Ascii.zero) (chars s).

(** Arguments with a NUL character cannot be handed to a process:
    [subprocess.run] raises [ValueError] before the transcoder is started.
    Everything else is as in [calm_world]. *)
Definition nul_world : world :=
  {| ffmpeg := fun c => negb (existsb (fun d => has_nul (dt_text d)) (drawtexts c));
     run_error := fun _ => ValueError "embedded null byte";
     fs_error := fs_error calm_world;
     ffprobe := ffprobe calm_world;
     file_exists := file_exists calm_world;
     getenv := getenv calm_world;
     random_bits := random_bits calm_world;
     timestamp := timestamp calm_world;
     parent := parent calm_world;
     joinpath := joinpath calm_world;
     pexels := pexels calm_world;
     unsplash := unsplash calm_world;
     hf_post := hf_post calm_world;
     pil_save := pil_save calm_world |}.

(** The transcoder is not installed: no command can be started. *)
Definition toolless_world : world :=
  {| ffmpeg := fun _ => false;
     run_error := fun _ => FileNotFoundError "ffmpeg";
     fs_error := fs_error calm_world;
     ffprobe := ffprobe calm_world;
     file_exists := file_exists calm_world;
     getenv := getenv calm_world;
     random_bits := random_bits calm_world;
     timestamp := timestamp calm_world;
     parent := parent calm_world;
     joinpath := joinpath calm_world;
     pexels := pexels calm_world;
     unsplash := unsplash calm_world;
     hf_post := hf_post calm_world;
     pil_save := pil_save calm_world |}.

End Vocabulary.
Export Vocabulary.

(* ================================================================== *)
(** * Properties *)
(* ================================================================== *)

(** ** Comparisons, clamps and division *)

Lemma Qlt_bool_iff (a b : Q) : Qlt_bool a b = true <-> a < b.
Proof.
  unfold Qlt_bool. rewrite negb_true_iff. split; intro H.
  - apply Qnot_le_lt. intro Hle. apply Qle_bool_iff in Hle. congruence.
  - destruct (Qle_bool b a) eqn:E; [|reflexivity].
    apply Qle_bool_iff in E. exfalso. apply (Qlt_not_le _ _ H E).
Qed.

Lemma Qlt_bool_false_iff (a b : Q) : Qlt_bool a b = false <-> b <= a.
Proof.
  unfold Qlt_bool. rewrite negb_false_iff. apply Qle_bool_iff.
Qed.

Lemma py_max_lower (a b : Q) : a <= py_max a b.
Proof.
  unfold py_max. destruct (Qlt_bool a b) eqn:E.
  - apply Qlt_bool_iff in E. lra.
  - lra.
Qed.

Lemma py_max_upper (a b c : Q) : a <= c -> b <= c -> py_max a b <= c.
Proof.
  unfold py_max. destruct (Qlt_bool a b); auto.
Qed.

Lemma py_min_upper (a b : Q) : py_min a b <= a.
Proof.
  unfold py_min. destruct (Qlt_bool b a) eqn:E.
  - apply Qlt_bool_iff in E. lra.
  - lra.
Qed.

Lemma py_min_upper_r (a b : Q) : py_min a b <= b.
Proof.
  unfold py_min. destruct (Qlt_bool b a) eqn:E.
  - lra.
  - apply Qlt_bool_false_iff in E. lra.
Qed.

(** A clamp [max(lo, min(hi, x))] with [lo <= hi] lands in [[lo, hi]]. *)
Lemma clamp_range (lo hi x : Q) :
  lo <= hi -> lo <= py_max lo (py_min hi x) /\ py_max lo (py_min hi x) <= hi.
Proof.
  intro H. split.
  - apply py_max_lower.
  - apply py_max_upper; [exact H | apply py_min_upper].
Qed.

(** Inside the interval, the clamp is the identity. *)
Lemma clamp_inside (lo hi x : Q) :
  lo <= x -> x <= hi -> py_max lo (py_min hi x) == x.
Proof.
  intros H1 H2. unfold py_max, py_min.
  destruct (Qlt_bool x hi) eqn:E1.
  - destruct (Qlt_bool lo x) eqn:E2; [reflexivity|].
    apply Qlt_bool_false_iff in E2. lra.
  - apply Qlt_bool_false_iff in E1.
    destruct (Qlt_bool lo hi) eqn:E2; [lra|].
    apply Qlt_bool_false_iff in E2. lra.
Qed.

Lemma py_div_nonzero (a b : float) :
  PrimFloat.eqb b 0%float = false -> py_div a b = Ok (PrimFloat.div a b).
Proof. intro H. unfold py_div. now rewrite H. Qed.

Lemma py_div_zero (a b : float) :
  PrimFloat.eqb b 0%float = true -> py_div a b = Raise ZeroDivisionError.
Proof. intro H. unfold py_div. now rewrite H. Qed.

(** ** The monad *)

Lemma bind_ok {A B} (l : list action) (a : A) (k : A -> M B) :
  bind (l, Ok a) k = (l ++ fst (k a), snd (k a)).
Proof. simpl. now destruct (k a). Qed.

Lemma commands_app (l1 l2 : list action) :
  commands (l1 ++ l2) = commands l1 ++ commands l2.
Proof. unfold commands. apply flat_map_app. Qed.

Lemma run_log (w : world) (c : cmd) : log_of (run w c) = [Run c].
Proof. unfold run, log_of. now destruct (ffmpeg w c). Qed.

Lemma run_outcome (w : world) (c : cmd) :
  outcome (run w c) = if ffmpeg w c then Ok tt else Raise (run_error w c).
Proof. unfold run, outcome. now destruct (ffmpeg w c). Qed.

Lemma io_cases (w : world) (a : action) :
  io w a = ([a], match fs_error w a with
                 | None => Ok tt
                 | Some e => Raise e
                 end).
Proof. unfold io. now destruct (fs_error w a). Qed.

Lemma io_ok (w : world) (a : action) : files_writable w -> io w a = ([a], Ok tt).
Proof. intro H. unfold io. now rewrite H. Qed.

Lemma log_bind {A B} (m : M A) (k : A -> M B) :
  log_of (bind m k)
  = log_of m ++ match outcome m with
                | Ok a => log_of (k a)
                | Raise _ => []
                end.
Proof.
  destruct m as [l [a|e]]; cbn; [|now rewrite app_nil_r].
  now destruct (k a).
Qed.

Lemma outcome_bind {A B} (m : M A) (k : A -> M B) :
  outcome (bind m k)
  = match outcome m with
    | Ok a => outcome (k a)
    | Raise e => Raise e
    end.
Proof.
  destruct m as [l [a|e]]; cbn; [|reflexivity].
  now destruct (k a).
Qed.

Lemma reraise {A} (m : M A) : try_except any_exception m (fun e => raise e) = m.
Proof. destruct m as [l [a|e]]; cbn; [reflexivity | now rewrite app_nil_r]. Qed.

Lemma log_outcome {A} (m : M A) : m = (log_of m, outcome m).
Proof. now destruct m. Qed.

(** ** Rounding of doubles *)

Section DoubleRounding.

Import Double.

(** *** Powers of two *)

Lemma pow2_pos (e : Z) : 0 < pow2 e.
Proof. apply Qpower_0_lt. reflexivity. Qed.

Lemma pow2_add (a b : Z) : pow2 (a + b) == pow2 a * pow2 b.
Proof. apply Qpower_plus. discriminate. Qed.

Lemma pow2_le (a b : Z) : (a <= b)%Z -> pow2 a <= pow2 b.
Proof. intro H. apply Qpower_le_compat_l; [exact H | discriminate]. Qed.

Lemma pow2_lt (a b : Z) : (a < b)%Z -> pow2 a < pow2 b.
Proof. intro H. apply Qpower_lt_compat_l; [exact H | reflexivity]. Qed.

Lemma pow2_0 : pow2 0 == 1.
Proof. reflexivity. Qed.

Lemma pow2_1 : pow2 1 == 2.
Proof. reflexivity. Qed.

Lemma pow2_succ (e : Z) : pow2 (e + 1) == 2 * pow2 e.
Proof. rewrite pow2_add, pow2_1. ring. Qed.

Lemma pow2_pred (e : Z) : pow2 (e - 1) == pow2 e * (1 # 2).
Proof.
  assert (H : pow2 e == 2 * pow2 (e - 1)).
  { rewrite <- pow2_succ. now replace (e - 1 + 1)%Z with e by lia. }
  rewrite H. ring.
Qed.

Lemma pow2_opp (e : Z) : pow2 e * pow2 (- e) == 1.
Proof. rewrite <- pow2_add. now replace (e + - e)%Z with 0%Z by lia. Qed.

Lemma pow2_Z (n : Z) : (0 <= n)%Z -> pow2 n == inject_Z (2 ^ n).
Proof. intro H. unfold pow2. now rewrite Zpower_Qpower. Qed.

Lemma pow2_sub (a b : Z) : pow2 (a - b) == pow2 a / pow2 b.
Proof. apply Qpower_minus. discriminate. Qed.

(** *** Digits *)

Lemma digits2_pos_bounds (p : positive) :
  (2 ^ (Zpos (digits2_pos p) - 1) <= Zpos p < 2 ^ Zpos (digits2_pos p))%Z.
Proof.
  induction p as [p IH | p IH |]; cbn [digits2_pos].
  - rewrite Pos2Z.inj_succ.
    replace (Z.succ (Z.pos (digits2_pos p)) - 1)%Z
      with (Z.succ (Z.pos (digits2_pos p) - 1))%Z by lia.
    rewrite !Z.pow_succ_r by lia. lia.
  - rewrite Pos2Z.inj_succ.
    replace (Z.succ (Z.pos (digits2_pos p)) - 1)%Z
      with (Z.succ (Z.pos (digits2_pos p) - 1))%Z by lia.
    rewrite !Z.pow_succ_r by lia. lia.
  - cbn. lia.
Qed.

Lemma Zdigits2_nonneg (m : Z) : (0 <= Zdigits2 m)%Z.
Proof. destruct m; cbn; lia. Qed.

(** [m + 1 <= 2 ^ digits m] for [0 <= m]. *)
Lemma Zdigits2_upper (m : Z) : (0 <= m)%Z -> inject_Z m + 1 <= pow2 (Zdigits2 m).
Proof.
  intro H. rewrite pow2_Z by apply Zdigits2_nonneg.
  change 1 with (inject_Z 1). rewrite <- inject_Z_plus, <- Zle_Qle.
  destruct m as [|p|p]; [cbn; lia | | lia].
  cbn [Zdigits2]. pose proof (digits2_pos_bounds p). lia.
Qed.

(** [2 ^ (digits m - 1) <= m] for [0 < m]. *)
Lemma Zdigits2_lower (m : Z) : (0 < m)%Z -> pow2 (Zdigits2 m - 1) <= inject_Z m.
Proof.
  intro H. destruct m as [|p|p]; try lia. cbn [Zdigits2].
  rewrite pow2_Z by lia. rewrite <- Zle_Qle.
  pose proof (digits2_pos_bounds p). lia.
Qed.

Lemma Zdigits2_le (m : Z) (k : Z) :
  (0 <= k)%Z -> (0 <= m < 2 ^ k)%Z -> (Zdigits2 m <= k)%Z.
Proof.
  intros Hk H. destruct m as [|p|p]; [cbn; lia | | lia].
  cbn [Zdigits2]. pose proof (digits2_pos_bounds p) as Hd.
  assert (Hlt : (2 ^ (Z.pos (digits2_pos p) - 1) < 2 ^ k)%Z) by lia.
  apply Z.pow_lt_mono_r_iff in Hlt; lia.
Qed.

(** *** Records of a shifted mantissa *)

Lemma located_ext (mrs : shr_record) (t t' : Q) :
  t == t' -> located mrs t -> located mrs t'.
Proof.
  intro E. unfold located. destruct (shr_r mrs), (shr_s mrs); cbn zeta;
    rewrite E; auto.
Qed.

Lemma located_bounds (mrs : shr_record) (t : Q) :
  located mrs t -> inject_Z (shr_m mrs) <= t /\ t < inject_Z (shr_m mrs) + 1.
Proof.
  unfold located. destruct (shr_r mrs), (shr_s mrs); cbn zeta; intro H; lra.
Qed.

Lemma inject_xO (p : positive) : inject_Z (Zpos p~0) == 2 * inject_Z (Zpos p).
Proof. unfold Qeq. cbn. lia. Qed.

Lemma inject_xI (p : positive) : inject_Z (Zpos p~1) == 2 * inject_Z (Zpos p) + 1.
Proof. unfold Qeq. cbn. lia. Qed.

Lemma shr_1_located (mrs : shr_record) (t : Q) :
  (0 <= shr_m mrs)%Z -> located mrs t ->
  located (shr_1 mrs) (t * (1 # 2)) /\ (0 <= shr_m (shr_1 mrs))%Z.
Proof.
  destruct mrs as [m r s]. cbn [shr_m]. intros Hm H.
  destruct m as [|p|p]; [| |lia].
  - unfold located in *. cbn [shr_1 shr_m shr_r shr_s] in *.
    change (inject_Z 0) with 0 in *.
    destruct r, s; cbn [orb]; split; try lia; lra.
  - unfold located in *.
    destruct p as [q|q|]; cbn [shr_1 shr_m shr_r shr_s] in *.
    + pose proof (inject_xI q) as HI.
      destruct r, s; cbn [orb]; split; try lia; lra.
    + pose proof (inject_xO q) as HO.
      destruct r, s; cbn [orb]; split; try lia; lra.
    + change (inject_Z 1) with 1 in *. change (inject_Z 0) with 0.
      destruct r, s; cbn [orb]; split; try lia; lra.
Qed.

Lemma iter_pos_located (p : positive) :
  forall mrs t,
    (0 <= shr_m mrs)%Z -> located mrs t ->
    located (iter_pos shr_1 p mrs) (t * pow2 (- Zpos p))
    /\ (0 <= shr_m (iter_pos shr_1 p mrs))%Z.
Proof.
  induction p as [p IH | p IH |]; intros mrs t Hm H; cbn [iter_pos].
  - destruct (@shr_1_located mrs t Hm H) as [H1 Hm1].
    destruct (IH _ _ Hm1 H1) as [H2 Hm2].
    destruct (IH _ _ Hm2 H2) as [H3 Hm3].
    split; [|exact Hm3]. eapply located_ext; [|exact H3].
    replace (- Z.pos p~1)%Z with (-1 + (- Z.pos p + - Z.pos p))%Z by lia.
    rewrite !pow2_add. change (pow2 (-1)) with (1 # 2). ring.
  - destruct (IH _ _ Hm H) as [H2 Hm2].
    destruct (IH _ _ Hm2 H2) as [H3 Hm3].
    split; [|exact Hm3]. eapply located_ext; [|exact H3].
    replace (- Z.pos p~0)%Z with (- Z.pos p + - Z.pos p)%Z by lia.
    rewrite !pow2_add. ring.
  - destruct (@shr_1_located mrs t Hm H) as [H1 Hm1].
    split; [|exact Hm1]. exact H1.
Qed.

Lemma shr_represents (mrs : shr_record) (e n : Z) (x : Q) :
  (0 <= shr_m mrs)%Z -> represents mrs e x ->
  represents (fst (shr mrs e n)) (snd (shr mrs e n)) x
  /\ (0 <= shr_m (fst (shr mrs e n)))%Z
  /\ snd (shr mrs e n) = (e + Z.max n 0)%Z.
Proof.
  intros Hm H. unfold shr. destruct n as [|p|p]; cbn [fst snd].
  - split; [exact H|]. split; [exact Hm|lia].
  - destruct (@iter_pos_located p mrs _ Hm H) as [H1 Hm1].
    split; [|split; [exact Hm1|lia]].
    unfold represents. eapply located_ext; [|exact H1].
    replace (- (e + Z.pos p))%Z with (- e + - Z.pos p)%Z by lia.
    rewrite pow2_add. ring.
  - split; [exact H|]. split; [exact Hm|lia].
Qed.

Lemma record_of_loc_m (m : Z) (l : location) : shr_m (shr_record_of_loc m l) = m.
Proof. destruct l as [|[]]; reflexivity. Qed.

(** Rounding to nearest, ties to even: at most one half away. *)
Lemma round_nearest_even_located (mrs : shr_record) (t : Q) :
  located mrs t ->
  let m' := round_nearest_even (shr_m mrs) (loc_of_shr_record mrs) in
  (shr_m mrs <= m' <= shr_m mrs + 1)%Z
  /\ - (1 # 2) <= inject_Z m' - t /\ inject_Z m' - t <= 1 # 2
  /\ (shr_r mrs = false -> shr_s mrs = false -> m' = shr_m mrs).
Proof.
  destruct mrs as [m r s]. unfold located. cbn [shr_m shr_r shr_s].
  intro H. cbn zeta.
  assert (E : inject_Z (m + 1) == inject_Z m + 1).
  { rewrite inject_Z_plus. reflexivity. }
  destruct r, s; cbn [loc_of_shr_record round_nearest_even];
    try destruct (Z.even m); repeat split; try lia; try lra; try discriminate.
Qed.

(** *** Rounding a located value to a double *)

Lemma fexp_unfold (z : Z) : fexp prec emax z = Z.max (z - 53) (-1074).
Proof. reflexivity. Qed.

Lemma scale_near (a t P : Q) :
  0 < P -> - (1 # 2) <= a - t -> a - t <= 1 # 2 ->
  t * P - P * (1 # 2) <= a * P /\ a * P <= t * P + P * (1 # 2).
Proof. intros HP H1 H2. split; nra. Qed.

Lemma inject_Z_lt_pow2 (a k : Z) :
  (0 <= k)%Z -> inject_Z a < pow2 k -> (a < 2 ^ k)%Z.
Proof. intros Hk H. rewrite pow2_Z in H by exact Hk. rewrite Zlt_Qlt. exact H. Qed.

Lemma SF2Q_finite (p : positive) (e : Z) :
  SF2Q (S754_finite false p e) == inject_Z (Zpos p) * pow2 e.
Proof. reflexivity. Qed.

Lemma round_aux_error (m e : Z) (l : location) (x : Q) :
  (0 <= m)%Z ->
  located (shr_record_of_loc m l) (x * pow2 (- e)) ->
  (e <= fexp prec emax (Zdigits2 m + e))%Z ->
  (0 < m \/ fexp prec emax (Zdigits2 m + e) = -1074)%Z ->
  x <= max_float ->
  rounds_to (binary_round_aux prec emax false m e l) x.
Proof.
  intros Hm Hloc He Hcase Hmax.
  unfold binary_round_aux, shr_fexp.
  set (d := Zdigits2 m) in *. set (e1 := fexp prec emax (d + e)) in *.
  assert (Hd : (0 <= d)%Z) by apply Zdigits2_nonneg.
  assert (He1 : e1 = Z.max (d + e - 53) (-1074)) by apply fexp_unfold.
  assert (Hm0 : (0 <= shr_m (shr_record_of_loc m l))%Z)
    by (rewrite record_of_loc_m; exact Hm).
  destruct (@shr_represents _ e (e1 - e) x Hm0 Hloc) as [R1 [M1 E1]].
  destruct (shr (shr_record_of_loc m l) e (e1 - e)) as [mrs' e'].
  cbn [fst snd] in R1, M1, E1.
  assert (Ee : e' = e1) by lia. clear E1.
  unfold represents in R1.
  set (t := x * pow2 (- e')) in *.
  set (P := pow2 e').
  assert (HP : 0 < P) by apply pow2_pos.
  assert (Hx : x == t * P).
  { unfold t, P. rewrite <- Qmult_assoc, (Qmult_comm (pow2 (- e'))), pow2_opp.
    ring. }
  destruct (@round_nearest_even_located _ _ R1) as [B1 [Lo [Hi _]]].
  set (m1 := round_nearest_even (shr_m mrs') (loc_of_shr_record mrs')) in *.
  destruct (@located_bounds _ _ R1) as [T1 T2].
  (* the value before rounding is below [2 ^ (d + e)] *)
  assert (Hxd : x < pow2 (d + e)).
  { destruct (@located_bounds _ _ Hloc) as [_ U]. rewrite record_of_loc_m in U.
    pose proof (@Zdigits2_upper _ Hm) as V. fold d in V.
    assert (W : x * pow2 (- e) < pow2 d) by lra.
    rewrite pow2_add.
    assert (X : x == x * pow2 (- e) * pow2 e).
    { rewrite <- Qmult_assoc, (Qmult_comm (pow2 (- e))), pow2_opp. ring. }
    rewrite X. apply Qmult_lt_compat_r; [apply pow2_pos | exact W]. }
  assert (Ht53 : t < pow2 53).
  { unfold t. apply Qlt_le_trans with (pow2 (d + e) * pow2 (- e')).
    - apply Qmult_lt_compat_r; [apply pow2_pos | exact Hxd].
    - rewrite <- pow2_add. apply pow2_le. lia. }
  assert (Hs53 : (shr_m mrs' < 2 ^ 53)%Z).
  { apply inject_Z_lt_pow2; [lia | lra]. }
  (* what is known of [x] from below when [m] is positive *)
  assert (Hlow : (0 < m)%Z -> pow2 (d - 1 + e) <= x).
  { intro Hp. destruct (@located_bounds _ _ Hloc) as [L _].
    rewrite record_of_loc_m in L.
    pose proof (@Zdigits2_lower _ Hp) as V. fold d in V.
    assert (W : pow2 (d - 1) <= x * pow2 (- e)) by lra.
    rewrite pow2_add.
    assert (X : x == x * pow2 (- e) * pow2 e).
    { rewrite <- Qmult_assoc, (Qmult_comm (pow2 (- e))), pow2_opp. ring. }
    rewrite X. apply Qmult_le_compat_r; [exact W | apply Qlt_le_weak, pow2_pos]. }
  assert (Hmaxlt : max_float < pow2 1024).
  { unfold max_float.
    replace 1024%Z with (53 + 971)%Z by reflexivity. rewrite pow2_add.
    apply Qmult_lt_compat_r; [apply pow2_pos|].
    rewrite pow2_Z by lia. rewrite <- Zlt_Qlt. lia. }
  assert (He971 : (e' <= 971)%Z).
  { destruct Hcase as [Hp | Hz]; [|lia].
    specialize (Hlow Hp).
    assert (Hlt : pow2 (d - 1 + e) < pow2 1024) by lra.
    destruct (Z_lt_le_dec (d - 1 + e) 1024) as [A | A]; [lia|].
    apply pow2_le in A. lra. }
  assert (Hm1 : (0 <= m1 <= 2 ^ 53)%Z) by lia.
  assert (Htop : e' = 971%Z -> (m1 < 2 ^ 53)%Z).
  { intro E971.
    assert (Ht : t <= inject_Z (2 ^ 53 - 1)).
    { unfold t. rewrite E971.
      assert (X : inject_Z (2 ^ 53 - 1) == max_float * pow2 (- (971))).
      { unfold max_float. rewrite <- Qmult_assoc, pow2_opp. ring. }
      rewrite X. apply Qmult_le_compat_r; [exact Hmax|].
      apply Qlt_le_weak, pow2_pos. }
    assert (Hq : inject_Z m1 < inject_Z (2 ^ 53 - 1) + 1) by lra.
    change 1 with (inject_Z 1) in Hq. rewrite <- inject_Z_plus in Hq.
    rewrite <- Zlt_Qlt in Hq. lia. }
  (* the rounded mantissa, scaled, is the value of the result *)
  assert (Hval : nonneg_SF
                   (let '(mrs'', e'') :=
                      shr (shr_record_of_loc m1 loc_Exact) e'
                          (fexp prec emax (Zdigits2 m1 + e') - e') in
                    match shr_m mrs'' with
                    | 0%Z => S754_zero false
                    | Z.pos p =>
                        if (e'' <=? emax - prec)%Z then S754_finite false p e''
                        else S754_infinity false
                    | Z.neg _ => S754_nan
                    end) = true
                 /\ SF2Q
                   (let '(mrs'', e'') :=
                      shr (shr_record_of_loc m1 loc_Exact) e'
                          (fexp prec emax (Zdigits2 m1 + e') - e') in
                    match shr_m mrs'' with
                    | 0%Z => S754_zero false
                    | Z.pos p =>
                        if (e'' <=? emax - prec)%Z then S754_finite false p e''
                        else S754_infinity false
                    | Z.neg _ => S754_nan
                    end) == inject_Z m1 * P).
  { destruct (Z_lt_le_dec m1 (2 ^ 53)) as [Hlt | Hge].
    - assert (Hdm : (Zdigits2 m1 <= 53)%Z) by (apply Zdigits2_le; lia).
      assert (Hsh : (fexp prec emax (Zdigits2 m1 + e') - e' <= 0)%Z).
      { rewrite fexp_unfold. lia. }
      unfold shr.
      destruct (fexp prec emax (Zdigits2 m1 + e') - e')%Z as [|q|q] eqn:Eq;
        [| lia |]; cbn [shr_record_of_loc shr_m];
        (destruct m1 as [|p|p]; [| | lia]);
        try (split; [reflexivity | cbn [SF2Q]; ring]);
        replace (e' <=? emax - prec)%Z with true
          by (symmetry; apply Z.leb_le; change (emax - prec)%Z with 971%Z; lia);
        (split; [reflexivity | apply SF2Q_finite]).
    - assert (E53 : m1 = (2 ^ 53)%Z) by lia.
      assert (Hlt971 : (e' < 971)%Z).
      { destruct (Z.eq_dec e' 971) as [A | A]; [apply Htop in A; lia | lia]. }
      rewrite E53.
      replace (fexp prec emax (Zdigits2 (2 ^ 53) + e') - e')%Z with 1%Z
        by (rewrite fexp_unfold; change (Zdigits2 (2 ^ 53)) with 54%Z; lia).
      cbn [shr iter_pos shr_record_of_loc].
      change (shr_m (shr_1 {| shr_m := 2 ^ 53; shr_r := false; shr_s := false |}))
        with (Zpos 4503599627370496).
      replace (e' + 1 <=? emax - prec)%Z with true
        by (symmetry; apply Z.leb_le; change (emax - prec)%Z with 971%Z; lia).
      split; [reflexivity|]. rewrite SF2Q_finite.
      unfold P. rewrite pow2_add. change (pow2 1) with 2.
      change (inject_Z (Z.pos 4503599627370496)) with (4503599627370496 # 1).
      change (inject_Z (2 ^ 53)) with (9007199254740992 # 1). ring. }
  destruct Hval as [Hnn Hv]. unfold rounds_to.
  split; [exact Hnn|].
  destruct (@scale_near (inject_Z m1) t P HP Lo Hi) as [S1 S2].
  assert (Hhalf : P * (1 # 2) == pow2 (e' - 1)).
  { unfold P. now rewrite pow2_pred. }
  assert (H1075 : pow2 (-1075) == pow2 (-53) * pow2 (-1022)).
  { rewrite <- pow2_add. reflexivity. }
  pose proof (pow2_pos (-53)) as Heps.
  destruct (Z.eq_dec e' (-1074)) as [Emin | Enot].
  - assert (Hb : P * (1 # 2) == pow2 (-1075)).
    { rewrite Hhalf, Emin. reflexivity. }
    split.
    + intro Hn.
      assert (Hle : pow2 (-53) * pow2 (-1022) <= pow2 (-53) * x)
        by (apply Qmult_le_l; lra).
      rewrite Hv. lra.
    + intros _. rewrite Hv. lra.
  - assert (Hp : (0 < m)%Z) by (destruct Hcase as [A | A]; [exact A | lia]).
    specialize (Hlow Hp).
    assert (Ed : (d - 1 + e = e' + 52)%Z) by lia.
    rewrite Ed in Hlow.
    assert (Hb : P * (1 # 2) == pow2 (-53) * pow2 (e' + 52)).
    { rewrite Hhalf, <- pow2_add. now replace (-53 + (e' + 52))%Z with (e' - 1)%Z by lia. }
    split.
    + intros _.
      assert (Hle : pow2 (-53) * pow2 (e' + 52) <= pow2 (-53) * x)
        by (apply Qmult_le_l; lra).
      rewrite Hv. lra.
    + intro Hsmall.
      assert (A : pow2 (-1022) < pow2 (e' + 52)) by (apply pow2_lt; lia).
      lra.
Qed.

(** *** Products *)

Lemma Zdigits2_mono (m n : Z) :
  (0 <= m <= n)%Z -> (Zdigits2 m <= Zdigits2 n)%Z.
Proof.
  intros [H0 H]. apply Zdigits2_le; [apply Zdigits2_nonneg|].
  split; [exact H0|].
  destruct n as [|p|p]; [cbn; lia | | lia].
  cbn [Zdigits2]. pose proof (digits2_pos_bounds p). lia.
Qed.

Lemma rounds_to_ext (r : spec_float) (x y : Q) :
  x == y -> rounds_to r x -> rounds_to r y.
Proof.
  intros E [H1 [H2 H3]]. unfold rounds_to.
  split; [exact H1|]. split; intro H; rewrite <- E in *; auto.
Qed.

Lemma SFmul_error (ma mb : positive) (ea eb : Z) :
  Zpos (digits2_pos mb) = 53%Z ->
  SF2Q (S754_finite false ma ea) * SF2Q (S754_finite false mb eb) <= max_float ->
  rounds_to (SFmul prec emax (S754_finite false ma ea) (S754_finite false mb eb))
            (SF2Q (S754_finite false ma ea) * SF2Q (S754_finite false mb eb)).
Proof.
  intros Hb Hmax. cbn [SFmul xorb].
  apply round_aux_error.
  - lia.
  - cbn [shr_record_of_loc]. unfold located. cbn [shr_m shr_r shr_s].
    rewrite !SF2Q_finite.
    replace (- (ea + eb))%Z with (- ea + - eb)%Z by lia.
    rewrite pow2_add. rewrite Pos2Z.inj_mul, inject_Z_mult.
    transitivity (inject_Z (Z.pos ma) * inject_Z (Z.pos mb)
                  * (pow2 ea * pow2 (- ea)) * (pow2 eb * pow2 (- eb))); [ring|].
    rewrite !pow2_opp. ring.
  - rewrite fexp_unfold.
    assert (H : (Zdigits2 (Z.pos mb) <= Zdigits2 (Z.pos (ma * mb)))%Z).
    { apply Zdigits2_mono. nia. }
    cbn [Zdigits2] in H. cbn [Zdigits2]. lia.
  - left. lia.
  - exact Hmax.
Qed.

(** *** Quotients *)

Lemma new_location_located (q r : Z) (p : positive) :
  (0 <= r < Zpos p)%Z ->
  located (shr_record_of_loc q (new_location (Zpos p) r)) (inject_Z q + (r # p)).
Proof.
  intros [H0 H1].
  assert (Hlt1 : (r # p) < 1) by (unfold Qlt; cbn; lia).
  unfold new_location.
  destruct (Z.even (Z.pos p)) eqn:Ev;
    [unfold new_location_even | unfold new_location_odd];
    (destruct (Z.eqb_spec r 0) as [E | N];
     [ cbn [shr_record_of_loc]; unfold located; cbn [shr_m shr_r shr_s];
       (assert (Hz : (r # p) == 0) by (rewrite E; reflexivity));
       rewrite Hz; ring |]);
    (assert (Hpos : 0 < (r # p)) by (unfold Qlt; cbn; lia)).
  - destruct (Z.compare_spec (2 * r) (Z.pos p)) as [C | C | C];
      cbn [shr_record_of_loc]; unfold located; cbn [shr_m shr_r shr_s].
    + assert (Hh : (r # p) == 1 # 2) by (unfold Qeq; cbn; lia).
      rewrite Hh. reflexivity.
    + assert (Hh : (r # p) < 1 # 2) by (unfold Qlt; cbn; lia). lra.
    + assert (Hh : 1 # 2 < (r # p)) by (unfold Qlt; cbn; lia). lra.
  - assert (Ho : Z.odd (Z.pos p) = true) by (rewrite <- Z.negb_even, Ev; reflexivity).
    apply Z.odd_spec in Ho. destruct Ho as [k Hk].
    destruct (Z.compare_spec (2 * r + 1) (Z.pos p)) as [C | C | C];
      cbn [shr_record_of_loc]; unfold located; cbn [shr_m shr_r shr_s].
    + assert (Hh : (r # p) < 1 # 2) by (unfold Qlt; cbn; lia). lra.
    + assert (Hh : (r # p) < 1 # 2) by (unfold Qlt; cbn; lia). lra.
    + assert (Hh : 1 # 2 < (r # p)) by (unfold Qlt; cbn; lia). lra.
Qed.

Lemma Qmake_div (r : Z) (p : positive) :
  (r # p) * inject_Z (Zpos p) == inject_Z r.
Proof. unfold Qeq. cbn. lia. Qed.

Lemma SFdiv_error (mx my : positive) (ex ey : Z) (X : Q) :
  (Zpos (digits2_pos mx) <= 53)%Z ->
  X * SF2Q (S754_finite false my ey) == SF2Q (S754_finite false mx ex) ->
  X <= max_float ->
  rounds_to (SFdiv prec emax (S754_finite false mx ex) (S754_finite false my ey)) X.
Proof.
  intros Hdx HX Hmax. cbn [SFdiv xorb]. unfold SFdiv_core_binary.
  cbn [Zdigits2].
  set (d1 := Zpos (digits2_pos mx)) in *. set (d2 := Zpos (digits2_pos my)).
  set (F := fexp prec emax (d1 + ex - (d2 + ey))).
  assert (HF : F = Z.max (d1 + ex - (d2 + ey) - 53) (-1074)) by apply fexp_unfold.
  set (e' := Z.min F (ex - ey)).
  set (s := (ex - ey - e')%Z).
  assert (Hs : (0 <= s)%Z) by (unfold s, e'; lia).
  set (m' := match s with
             | 0%Z => Z.pos mx
             | Z.pos _ => Z.shiftl (Z.pos mx) s
             | Z.neg _ => 0%Z
             end).
  assert (Hm' : m' = (Z.pos mx * 2 ^ s)%Z).
  { unfold m'. destruct s as [|u|u] eqn:Es; [lia | | lia].
    apply Z.shiftl_mul_pow2. lia. }
  clearbody m'.
  pose proof (digits2_pos_bounds mx) as B1. fold d1 in B1.
  pose proof (digits2_pos_bounds my) as B2. fold d2 in B2.
  assert (Hd1 : (1 <= d1)%Z) by (unfold d1; lia).
  assert (Hd2 : (1 <= d2)%Z) by (unfold d2; lia).
  assert (H2s : (0 < 2 ^ s)%Z) by (apply Z.pow_pos_nonneg; lia).
  pose proof (Z_div_mod m' (Z.pos my) ltac:(lia)) as Hdm.
  destruct (Z.div_eucl m' (Z.pos my)) as [q r].
  destruct Hdm as [Hdiv Hr].
  assert (Hq0 : (0 <= q)%Z) by nia.
  (* the quotient has 53 digits when the exponent is above the least one *)
  assert (Hbig : (-1074 < e')%Z -> (2 ^ 52 <= q)%Z).
  { intro He.
    assert (Es : s = (53 + d2 - d1)%Z) by (unfold s, e' in *; lia).
    assert (A : (2 ^ (d1 - 1) * 2 ^ s <= m')%Z) by nia.
    rewrite <- Z.pow_add_r in A by lia.
    replace (d1 - 1 + s)%Z with (d2 + 52)%Z in A by lia.
    rewrite Z.pow_add_r in A by lia.
    assert (B : (Z.pos my * 2 ^ 52 < 2 ^ d2 * 2 ^ 52)%Z) by nia.
    nia. }
  assert (Hq53 : (e' < -1074)%Z -> (q < 2 ^ 53)%Z).
  { intro He.
    assert (Es : s = 0%Z) by (unfold s, e' in *; lia).
    rewrite Es in Hm'. change (2 ^ 0)%Z with 1%Z in Hm'.
    assert (A : (Z.pos mx < 2 ^ 53)%Z).
    { apply Z.lt_le_trans with (2 ^ d1)%Z; [lia|].
      apply Z.pow_le_mono_r; lia. }
    nia. }
  apply round_aux_error.
  - exact Hq0.
  - apply located_ext with (inject_Z q + (r # my));
      [|apply new_location_located; exact Hr].
    (* X * 2^-e' = m' / my *)
    rewrite !SF2Q_finite in HX.
    assert (Hy : 0 < inject_Z (Z.pos my)) by (rewrite <- (Zlt_Qlt 0); lia).
    assert (E1 : (inject_Z q + (r # my)) * inject_Z (Z.pos my)
                 == inject_Z (Z.pos mx) * pow2 s).
    { rewrite Qmult_plus_distr_l, Qmake_div.
      rewrite pow2_Z by exact Hs.
      rewrite <- !inject_Z_mult, <- inject_Z_plus.
      rewrite <- Hm', Hdiv. now rewrite Z.mul_comm. }
    assert (E2 : X * pow2 (- e') * inject_Z (Z.pos my)
                 == inject_Z (Z.pos mx) * pow2 s).
    { transitivity (X * (inject_Z (Z.pos my) * pow2 ey)
                    * (pow2 (- ey) * pow2 (- e'))).
      - transitivity (X * pow2 (- e') * inject_Z (Z.pos my)
                      * (pow2 ey * pow2 (- ey))); [|ring].
        rewrite pow2_opp. ring.
      - rewrite HX. rewrite <- pow2_add.
        rewrite <- Qmult_assoc, <- pow2_add.
        now replace (ex + (- ey + - e'))%Z with s by (unfold s; lia). }
    apply Qmult_inj_r with (inject_Z (Z.pos my)); [lra|].
    now rewrite E1, E2.
  - rewrite fexp_unfold.
    destruct (Z_lt_le_dec (-1074) e') as [A | A]; [|lia].
    specialize (Hbig A).
    assert (D : (53 <= Zdigits2 q)%Z).
    { pose proof (@Zdigits2_upper q Hq0) as U.
      rewrite pow2_Z in U by apply Zdigits2_nonneg.
      change 1 with (inject_Z 1) in U.
      rewrite <- inject_Z_plus, <- Zle_Qle in U.
      destruct (Z_lt_le_dec (Zdigits2 q) 53) as [L | L]; [|exact L].
      assert (V : (2 ^ Zdigits2 q <= 2 ^ 52)%Z)
        by (apply Z.pow_le_mono_r; lia).
      lia. }
    lia.
  - destruct (Z_lt_le_dec 0 q) as [Qp | Qz]; [left; exact Qp | right].
    assert (q = 0%Z) by lia. subst q. rewrite fexp_unfold. cbn [Zdigits2].
    destruct (Z_lt_le_dec (-1074) e') as [A | A]; [|lia].
    specialize (Hbig A). lia.
  - exact Hmax.
Qed.

(** *** The operations of the machine *)

Lemma SF2Q_positive (m : positive) (e : Z) : 0 < SF2Q (S754_finite false m e).
Proof.
  rewrite SF2Q_finite. apply Qmult_lt_0_compat; [|apply pow2_pos].
  change 0 with (inject_Z 0). rewrite <- Zlt_Qlt. lia.
Qed.

Lemma positive_finite (r : spec_float) :
  0 < SF2Q r -> exists m e, r = S754_finite false m e.
Proof.
  destruct r as [s | s | | s m e]; cbn [SF2Q]; intro H; try lra.
  destruct s; [|now exists m, e].
  pose proof (SF2Q_positive m e) as P. rewrite SF2Q_finite in P.
  unfold pow2 in P. cbv zeta in H. lra.
Qed.

Lemma nonneg_SF_value (r : spec_float) : nonneg_SF r = true -> 0 <= SF2Q r.
Proof.
  destruct r as [s | s | | s m e]; cbn [nonneg_SF]; intro H;
    try discriminate H; try apply Qle_refl.
  destruct s; [discriminate H|]. apply Qlt_le_weak, SF2Q_positive.
Qed.

Lemma valid_digits (s : bool) (m : positive) (e : Z) :
  valid_binary (S754_finite s m e) = true ->
  (Zpos (digits2_pos m) <= 53)%Z /\ (e <= 971)%Z.
Proof.
  cbn [valid_binary]. unfold bounded, canonical_mantissa. intro H.
  apply andb_prop in H. destruct H as [H1 H2].
  apply Z.eqb_eq in H1. apply Z.leb_le in H2.
  rewrite fexp_unfold in H1. change (emax - prec)%Z with 971%Z in H2. lia.
Qed.

Lemma valid_le_max (r : spec_float) :
  valid_binary r = true -> SF2Q r <= max_float.
Proof.
  assert (Hmax : 0 <= max_float).
  { unfold max_float. apply Qmult_le_0_compat.
    - change 0 with (inject_Z 0). rewrite <- Zle_Qle. lia.
    - apply Qlt_le_weak, pow2_pos. }
  destruct r as [s | s | | s m e]; try (intros _; exact Hmax).
  intro H. apply valid_digits in H. destruct H as [Hd He].
  destruct s.
  - pose proof (SF2Q_positive m e) as P. rewrite SF2Q_finite in P.
    cbn [SF2Q]. cbv zeta. unfold pow2 in P. lra.
  - rewrite SF2Q_finite. unfold max_float.
    pose proof (digits2_pos_bounds m) as B.
    assert (Hm : (Z.pos m <= 2 ^ 53 - 1)%Z).
    { assert (A : (2 ^ Z.pos (digits2_pos m) <= 2 ^ 53)%Z)
        by (apply Z.pow_le_mono_r; lia).
      lia. }
    apply Qle_trans with (inject_Z (2 ^ 53 - 1) * pow2 e).
    + apply Qmult_le_compat_r; [now rewrite <- Zle_Qle|].
      apply Qlt_le_weak, pow2_pos.
    + apply Qmult_le_l; [|apply pow2_le; exact He].
      change 0 with (inject_Z 0). rewrite <- Zlt_Qlt. lia.
Qed.

Lemma to_Q_le_max (x : float) : to_Q x <= max_float.
Proof. apply valid_le_max, Prim2SF_valid. Qed.

(** The quotient of two positive doubles is the rounded exact quotient. *)
Lemma div_error (a b : float) (X : Q) :
  0 < to_Q a -> 0 < to_Q b ->
  X * to_Q b == to_Q a -> X <= max_float ->
  rounds_to (Prim2SF (PrimFloat.div a b)) X.
Proof.
  unfold to_Q. intros Ha Hb HX Hmax. rewrite div_spec. unfold SF64div.
  pose proof (Prim2SF_valid a) as Va.
  destruct (positive_finite _ Ha) as [ma [ea Ea]].
  destruct (positive_finite _ Hb) as [mb [eb Eb]].
  rewrite Ea, Eb in *.
  apply valid_digits in Va. destruct Va as [Da _].
  now apply SFdiv_error.
Qed.

(** The product of a non-negative double and a normal positive one is the
    rounded exact product. *)
Lemma mul_error (a b : float) :
  nonneg_SF (Prim2SF a) = true -> normal_pos b = true ->
  to_Q a * to_Q b <= max_float ->
  rounds_to (Prim2SF (PrimFloat.mul a b)) (to_Q a * to_Q b).
Proof.
  unfold to_Q, normal_pos. intros Ha Hb Hmax. rewrite mul_spec. unfold SF64mul.
  destruct (Prim2SF b) as [s | s | | s mb eb]; try discriminate.
  destruct s; [discriminate|]. apply Z.eqb_eq in Hb.
  destruct (Prim2SF a) as [s | s | | s ma ea]; try discriminate.
  - cbn [SFmul]. apply rounds_to_ext with 0; [cbn [SF2Q]; ring|].
    pose proof (pow2_pos (-1075)). pose proof (pow2_pos (-53)).
    unfold rounds_to. cbn [nonneg_SF SF2Q]. repeat split; lra.
  - destruct s; [discriminate|]. now apply SFmul_error.
Qed.

Lemma eps_value : pow2 (-53) == 1 # 9007199254740992.
Proof. reflexivity. Qed.

(** *** Sums *)

Lemma iter_xO_value (m d : positive) :
  Zpos (Pos.iter xO m d) = (Zpos m * 2 ^ Zpos d)%Z.
Proof.
  induction d as [|d IH] using Pos.peano_ind.
  - cbn [Pos.iter]. lia.
  - rewrite Pos.iter_succ, Pos2Z.inj_succ, Z.pow_succ_r by lia.
    rewrite Pos2Z.inj_xO, IH. lia.
Qed.

Lemma iter_xO_digits (m d : positive) :
  Zpos (digits2_pos (Pos.iter xO m d)) = (Zpos (digits2_pos m) + Zpos d)%Z.
Proof.
  induction d as [|d IH] using Pos.peano_ind.
  - cbn [Pos.iter digits2_pos]. lia.
  - rewrite Pos.iter_succ. cbn [digits2_pos].
    rewrite Pos2Z.inj_succ, IH. lia.
Qed.

Lemma shl_align_spec (m : positive) (e e' : Z) :
  inject_Z (Zpos (fst (shl_align m e e'))) * pow2 (snd (shl_align m e e'))
  == inject_Z (Zpos m) * pow2 e
  /\ snd (shl_align m e e') = Z.min e e'
  /\ (Zpos (digits2_pos (fst (shl_align m e e'))) + snd (shl_align m e e')
      = Zpos (digits2_pos m) + e)%Z.
Proof.
  unfold shl_align. destruct (e' - e)%Z as [|d|d] eqn:E; cbn [fst snd].
  - split; [reflexivity|]. split; lia.
  - split; [reflexivity|]. split; lia.
  - assert (Ee : e = (e' + Zpos d)%Z) by lia.
    split; [|split; [lia|]].
    + rewrite iter_xO_value, inject_Z_mult, Ee, pow2_add.
      rewrite <- pow2_Z by lia. ring.
    + rewrite iter_xO_digits. lia.
Qed.

Lemma binary_round_error (m : positive) (e : Z) :
  inject_Z (Zpos m) * pow2 e <= max_float ->
  rounds_to (binary_round prec emax false m e) (inject_Z (Zpos m) * pow2 e).
Proof.
  intro Hmax. unfold binary_round.
  destruct (shl_align_spec m e (fexp prec emax (Zpos (digits2_pos m) + e)))
    as [V [E D]].
  destruct (shl_align m e (fexp prec emax (Z.pos (digits2_pos m) + e)))
    as [mz ez].
  cbn [fst snd] in V, E, D.
  apply rounds_to_ext with (inject_Z (Z.pos mz) * pow2 ez); [exact V|].
  apply round_aux_error.
  - lia.
  - cbn [shr_record_of_loc]. unfold located. cbn [shr_m shr_r shr_s].
    rewrite <- Qmult_assoc, pow2_opp. ring.
  - cbn [Zdigits2]. rewrite D. lia.
  - left. lia.
  - rewrite V. exact Hmax.
Qed.

Lemma SFadd_error (ma mb : positive) (ea eb : Z) :
  SF2Q (S754_finite false ma ea) + SF2Q (S754_finite false mb eb) <= max_float ->
  rounds_to (SFadd prec emax (S754_finite false ma ea) (S754_finite false mb eb))
            (SF2Q (S754_finite false ma ea) + SF2Q (S754_finite false mb eb)).
Proof.
  intro Hmax. cbn [SFadd]. cbv zeta.
  destruct (shl_align_spec ma ea (Z.min ea eb)) as [Va [Ea _]].
  destruct (shl_align_spec mb eb (Z.min ea eb)) as [Vb [Eb _]].
  destruct (shl_align ma ea (Z.min ea eb)) as [za fa].
  destruct (shl_align mb eb (Z.min ea eb)) as [zb fb].
  cbn [fst snd] in *. cbn [cond_Zopp Z.add binary_normalize].
  assert (Fa : fa = Z.min ea eb) by lia.
  assert (Fb : fb = Z.min ea eb) by lia.
  rewrite Fa in Va. rewrite Fb in Vb.
  assert (E : inject_Z (Z.pos (za + zb)) * pow2 (Z.min ea eb)
              == SF2Q (S754_finite false ma ea) + SF2Q (S754_finite false mb eb)).
  { rewrite !SF2Q_finite, <- Va, <- Vb, Pos2Z.inj_add, inject_Z_plus. ring. }
  apply rounds_to_ext with (inject_Z (Z.pos (za + zb)) * pow2 (Z.min ea eb));
    [exact E|].
  apply binary_round_error. rewrite E. exact Hmax.
Qed.

(** The sum of a non-negative double and a positive one is the rounded exact
    sum. *)
Lemma add_error (a b : float) :
  nonneg_SF (Prim2SF a) = true -> 0 < to_Q b ->
  to_Q a + to_Q b <= max_float ->
  rounds_to (Prim2SF (PrimFloat.add a b)) (to_Q a + to_Q b).
Proof.
  unfold to_Q. intros Ha Hb Hmax. rewrite add_spec. unfold SF64add.
  destruct (@positive_finite _ Hb) as [mb [eb Eb]]. rewrite Eb in *.
  destruct (Prim2SF a) as [s | s | | s ma ea]; try discriminate.
  - cbn [SFadd].
    apply rounds_to_ext with (SF2Q (S754_finite false mb eb));
      [cbn [SF2Q]; ring|].
    pose proof (pow2_pos (-1075)). pose proof (pow2_pos (-53)).
    assert (0 <= pow2 (-53) * SF2Q (S754_finite false mb eb))
      by (apply Qmult_le_0_compat; lra).
    unfold rounds_to. cbn [nonneg_SF]. repeat split; lra.
  - destruct s; [discriminate|]. now apply SFadd_error.
Qed.

End DoubleRounding.


(** ** Synchronizer: [speed_factor] and [add_audio_to_video] *)

Section Synchronizer.

Import Final.

Lemma speed_factor_close (v n : float) :
  far_apart v n = false -> speed_factor v n = Ok None.
Proof. unfold far_apart, speed_factor. intro H. now rewrite H. Qed.

Lemma speed_factor_far (v n : float) :
  far_apart v n = true -> PrimFloat.eqb n 0%float = false ->
  speed_factor v n = Ok (Some (PrimFloat.div v n)).
Proof.
  unfold far_apart, speed_factor. intros H Hn. rewrite H.
  now rewrite (py_div_nonzero v Hn).
Qed.

Lemma speed_factor_zero (v n : float) :
  far_apart v n = true -> PrimFloat.eqb n 0%float = true ->
  speed_factor v n = Raise ZeroDivisionError.
Proof.
  unfold far_apart, speed_factor. intros H Hn. rewrite H.
  now rewrite (py_div_zero v Hn).
Qed.

(** What [add_audio_to_video] does in replace mode, by the three cases of
    [speed_factor]. *)
Lemma add_audio_replace (w : world) (vp ap out : path) :
  add_audio_to_video w vp ap out Replace =
  match speed_factor (get_video_duration w vp) (get_audio_duration w ap) with
  | Ok (Some f) =>
      ([Run (sync_cmd vp ap out f)],
       if ffmpeg w (sync_cmd vp ap out f) then Ok out
       else Raise (run_error w (sync_cmd vp ap out f)))
  | Ok None =>
      ([Run (mux_cmd vp ap out)],
       if ffmpeg w (mux_cmd vp ap out) then Ok out
       else Raise (run_error w (mux_cmd vp ap out)))
  | Raise e => ([], Raise e)
  end.
Proof.
  unfold add_audio_to_video.
  destruct (speed_factor _ _) as [[f|]|e]; simpl; unfold run.
  - destruct (ffmpeg w _); reflexivity.
  - destruct (ffmpeg w _); reflexivity.
  - reflexivity.
Qed.

(** The test is the one of the code.  The doubles 2.7 and 0.7 differ by
    more than 2, but their difference is rounded to 2.0: the test fails and
    no factor is computed. *)
Lemma rounded_difference (v n : float) :
  v = 2.7%float -> n = 0.7%float ->
  2 < to_Q v - to_Q n /\ far_apart v n = false /\ speed_factor v n = Ok None.
Proof.
  intros -> ->. split; [|split]; vm_compute; reflexivity.
Qed.

(** A positive double is not equal to zero. *)
Lemma positive_nonzero (n : float) :
  0 < to_Q n -> PrimFloat.eqb n 0%float = false.
Proof.
  unfold to_Q. intro H. rewrite eqb_spec.
  destruct (@positive_finite _ H) as [m [e E]]. rewrite E. reflexivity.
Qed.

(** The factor computed for two positive doubles whose quotient is in the
    normal range: positive, and its exact product with the divisor is within
    [2^-53 * v] of [v]. *)
Lemma quotient_round_trip (v n : float) :
  0 < to_Q v -> 0 < to_Q n ->
  Double.pow2 (-1022) * to_Q n <= to_Q v ->
  to_Q v <= Double.max_float * to_Q n ->
  0 < to_Q (PrimFloat.div v n)
  /\ to_Q v - Double.pow2 (-53) * to_Q v <= to_Q (PrimFloat.div v n) * to_Q n
  /\ to_Q (PrimFloat.div v n) * to_Q n <= to_Q v + Double.pow2 (-53) * to_Q v.
Proof.
  intros Hv Hn Hlo Hhi.
  set (X := to_Q v / to_Q n).
  assert (HX : X * to_Q n == to_Q v) by (unfold X; field; lra).
  assert (Hmax : X <= Double.max_float) by (apply Qle_shift_div_r; assumption).
  assert (Hmin : Double.pow2 (-1022) <= X) by (apply Qle_shift_div_l; assumption).
  assert (HXpos : 0 < X).
  { apply Qlt_le_trans with (Double.pow2 (-1022)); [apply pow2_pos | exact Hmin]. }
  destruct (@div_error v n X Hv Hn HX Hmax) as [_ [Hrel _]].
  destruct (Hrel Hmin) as [L U]. fold (to_Q (PrimFloat.div v n)) in L, U.
  set (f := to_Q (PrimFloat.div v n)) in *.
  rewrite eps_value in *.
  split; [lra|].
  assert (A : (X - (1 # 9007199254740992) * X) * to_Q n <= f * to_Q n)
    by (apply Qmult_le_compat_r; lra).
  assert (B : f * to_Q n <= (X + (1 # 9007199254740992) * X) * to_Q n)
    by (apply Qmult_le_compat_r; lra).
  assert (EA : (X - (1 # 9007199254740992) * X) * to_Q n
               == to_Q v - (1 # 9007199254740992) * to_Q v)
    by (rewrite <- HX; ring).
  assert (EB : (X + (1 # 9007199254740992) * X) * to_Q n
               == to_Q v + (1 # 9007199254740992) * to_Q v)
    by (rewrite <- HX; ring).
  lra.
Qed.

End Synchronizer.

(** ** Claims on the synchronizer *)

Section SynchronizerClaims.

Import Final.

(** C1, as the code has it. In replace mode, when the test
    [abs(v - n) > 2.0] on the probed doubles fails, or the narration
    duration is not zero, exactly one command is run; it reads the video
    and the narration, writes the output path and leaves the narration
    untouched; it copies the video when the test fails and
    retimes the video by the quotient [v / n] of the doubles when it holds. *)
Theorem sync_policy_nonzero (w : world) (vp ap out : path) :
  far_apart (get_video_duration w vp) (get_audio_duration w ap) = false
  \/ PrimFloat.eqb (get_audio_duration w ap) 0%float = false ->
  sync_policy w vp ap out.
Proof.
  intro H. unfold sync_policy. cbv zeta. rewrite add_audio_replace.
  destruct (far_apart (get_video_duration w vp) (get_audio_duration w ap)) eqn:Hfar.
  - destruct H as [H | Hn]; [discriminate|].
    rewrite (speed_factor_far Hfar Hn).
    eexists. split; [reflexivity|]. split; [now split|].
    split; [now repeat split|]. split.
    + intro. discriminate.
    + intros _. now split.
  - rewrite (speed_factor_close Hfar).
    eexists. split; [reflexivity|]. split; [now split|].
    split; [now repeat split|]. split.
    + intros _. split; [reflexivity|]. split; [simpl; auto | reflexivity].
    + intro. discriminate.
Qed.

Lemma sync_policy_nonzero_witness :
  sync_policy (probing_world "videos/clip.mp4" (Some 10%float)
                             "audio/voice.mp3" (Some 5%float))
              "videos/clip.mp4" "audio/voice.mp3" "videos/out.mp4".
Proof.
  apply (sync_policy_nonzero
           (probing_world "videos/clip.mp4" (Some 10%float)
                          "audio/voice.mp3" (Some 5%float))
           "videos/clip.mp4" "audio/voice.mp3" "videos/out.mp4").
  right. reflexivity.
Defined.

(** C1 as stated fails when the narration probe reports 0.0 and the video is
    longer than two seconds: the division raises before any command is built. *)
Lemma sync_policy_zero_narration :
  ~ sync_policy (probing_world "videos/clip.mp4" (Some 10%float) "audio/voice.mp3" None)
                "videos/clip.mp4" "audio/voice.mp3" "videos/out.mp4".
Proof.
  unfold sync_policy. intros [c [Hc _]]. vm_compute in Hc. discriminate.
Qed.

(** C7, as the code has it. For two positive doubles [v] and [n] that the
    test of the code finds more than 2.0 apart, and whose exact quotient is
    in the normal range of the doubles, the factor is the double [v / n]; it
    is strictly positive, and its exact product with [n] is [v] up to the
    rounding of one division: it differs from [v] by at most [2^-53 * v]. *)
Theorem speed_factor_round_trip (v n : float) :
  0 < to_Q v -> 0 < to_Q n -> far_apart v n = true ->
  Double.pow2 (-1022) * to_Q n <= to_Q v ->
  to_Q v <= Double.max_float * to_Q n ->
  exists f, speed_factor v n = Ok (Some f)
    /\ f = PrimFloat.div v n
    /\ 0 < to_Q f
    /\ to_Q v - Double.pow2 (-53) * to_Q v <= to_Q f * to_Q n
    /\ to_Q f * to_Q n <= to_Q v + Double.pow2 (-53) * to_Q v.
Proof.
  intros Hv Hn Hfar Hlo Hhi. exists (PrimFloat.div v n).
  split; [exact (speed_factor_far Hfar (@positive_nonzero n Hn))|].
  split; [reflexivity|].
  exact (@quotient_round_trip v n Hv Hn Hlo Hhi).
Qed.

Lemma speed_factor_round_trip_witness :
  exists f, speed_factor 10%float 3%float = Ok (Some f)
    /\ f = PrimFloat.div 10%float 3%float
    /\ 0 < to_Q f
    /\ to_Q 10%float - Double.pow2 (-53) * to_Q 10%float <= to_Q f * to_Q 3%float
    /\ to_Q f * to_Q 3%float <= to_Q 10%float + Double.pow2 (-53) * to_Q 10%float.
Proof.
  apply (@speed_factor_round_trip 10%float 3%float).
  - vm_compute. reflexivity.
  - vm_compute. reflexivity.
  - vm_compute. reflexivity.
  - vm_compute. discriminate.
  - vm_compute. discriminate.
Defined.

(** C7 as stated fails: the factor is a double, and for a video of 10 s and
    a narration of 3 s its exact product with 3 is not 10. *)
Lemma speed_factor_not_exact :
  0 < to_Q 10%float /\ 0 < to_Q 3%float /\ far_apart 10%float 3%float = true
  /\ exists f, speed_factor 10%float 3%float = Ok (Some f)
             /\ ~ to_Q f * to_Q 3%float == to_Q 10%float.
Proof.
  split; [vm_compute; reflexivity|]. split; [vm_compute; reflexivity|].
  split; [vm_compute; reflexivity|].
  exists (PrimFloat.div 10%float 3%float).
  split; [vm_compute; reflexivity|].
  vm_compute. discriminate.
Qed.

End SynchronizerClaims.

(** ** A narration whose duration is reported as zero *)

Section ZeroNarration.

Import Final.

(** With a zero narration duration and a video longer than two seconds the
    merge raises, and nothing is run. *)
Lemma add_audio_zero_narration (w : world) (vp ap out : path) :
  PrimFloat.eqb (get_audio_duration w ap) 0%float = true ->
  far_apart (get_video_duration w vp) (get_audio_duration w ap) = true ->
  add_audio_to_video w vp ap out Replace = ([], Raise ZeroDivisionError).
Proof.
  intros Hn Hv. rewrite add_audio_replace.
  now rewrite (speed_factor_zero Hv Hn).
Qed.

(** [generate_final_video] lets that exception through: its handler re-raises. *)
Lemma generate_final_video_zero_narration (w : world) (segments : list path)
    (a : path) (l : list action) (c : path) :
  truthy a = true -> file_exists w a = true ->
  concatenate_videos w segments (concat_target w) true = (l, Ok c) ->
  PrimFloat.eqb (get_audio_duration w a) 0%float = true ->
  far_apart (get_video_duration w (concat_target w)) (get_audio_duration w a) = true ->
  outcome (generate_final_video w None segments (Some a) None None)
  = Raise ZeroDivisionError.
Proof.
  intros Ha He Hc Hn Hv.
  unfold generate_final_video. rewrite Ha, He. cbn [andb app].
  rewrite app_nil_r. fold (concat_target w). rewrite Hc.
  rewrite bind_ok.
  rewrite (add_audio_zero_narration w (concat_target w) a _ Hn Hv).
  reflexivity.
Qed.

(** C3. With a narration duration of 0.0 the planner does fall back to 2.0
    seconds per slot, but the final compilation ends with
    [ZeroDivisionError]: no artifact is produced. *)
Theorem zero_narration_aborts :
  Single.base_duration silent_world (Some "audio/narration.mp3") (5 # 2) = 2
  /\ generate_final_video silent_world None
       ["videos/hook.mp4"; "videos/intro.mp4"; "videos/segment_stock_0.mp4"]
       (Some "audio/narration.mp3") None None
     = ([WriteConcatList "videos/concat_list.txt"
           ["videos/hook.mp4"; "videos/intro.mp4"; "videos/segment_stock_0.mp4"];
         Run (xfade_cmd
                ["videos/hook.mp4"; "videos/intro.mp4"; "videos/segment_stock_0.mp4"]
                "videos/temp_concat_20240101_120000.mp4")],
        Raise ZeroDivisionError).
Proof.
  split; vm_compute; reflexivity.
Qed.

End ZeroNarration.

(** ** Concatenation *)

Section Concatenation.

Import Final.




(** *** The pads of the cross-fade graph *)

Lemma has_pad_LV (k : nat) (l : list nat) :
  ~ In k l -> has_pad (LV k) (map LV l) = false.
Proof.
  unfold has_pad. induction l as [|x l IH]; intro H; cbn; [reflexivity|].
  rewrite IH by (intro; apply H; now right).
  destruct (Nat.eqb_spec k x); [|reflexivity].
  exfalso. apply H. now left.
Qed.

Lemma has_pad_LVout (k : nat) (l : list nat) : has_pad (LVout k) (map LV l) = false.
Proof. unfold has_pad. induction l as [|x l IH]; cbn; auto. Qed.

Lemma take_pad_last (x : label) (l : list label) :
  has_pad x l = false -> take_pad x (l ++ [x]) = Some l.
Proof.
  unfold has_pad. induction l as [|y l IH]; cbn; intro H.
  - replace (label_eqb x x) with true; [reflexivity|].
    destruct x; cbn; now rewrite ?Nat.eqb_refl.
  - apply orb_false_iff in H. destruct H as [Hy Hl].
    now rewrite Hy, (IH Hl).
Qed.

(** The scale filters free one pad per input. *)
Lemma scales_pads (n : nat) (rest : list cfilter) (m : nat) :
  forall k, (k + m <= n)%nat ->
    pads_after n (map LV (seq 0 k)) (map CScale (seq k m) ++ rest)
    = pads_after n (map LV (seq 0 (k + m))) rest.
Proof.
  induction m as [|m IH]; intros k H.
  - now rewrite Nat.add_0_r.
  - cbn [seq map app pads_after].
    assert (Hlt : Nat.ltb k n = true) by (apply Nat.ltb_lt; lia).
    rewrite Hlt, has_pad_LV by (rewrite in_seq; lia).
    cbn [andb negb].
    replace (map LV (seq 0 k) ++ [LV k]) with (map LV (seq 0 (S k)))
      by (now rewrite seq_S, map_app).
    rewrite (IH (S k)) by lia. now replace (S k + m)%nat with (k + S m)%nat by lia.
Qed.

(** From the second on, each xfade consumes the previous output and the
    next scaled input, and frees its own output. *)
Lemma xfades_pads (n : nat) (m : nat) :
  forall i, (2 <= i)%nat -> (i + m = n)%nat ->
    pads_after n (map LV (seq i m) ++ [LVout (i - 1)]) (map xfade_part (seq i m))
    = Some [LVout (n - 1)].
Proof.
  induction m as [|m IH]; intros i Hi Hn.
  - cbn. now replace i with n by lia.
  - cbn [seq map pads_after]. unfold xfade_part at 1.
    destruct (Nat.eqb_spec i 1) as [E | _]; [lia|].
    change (LV i :: map LV (seq (S i) m) ++ [LVout (i - 1)])
      with ((LV i :: map LV (seq (S i) m)) ++ [LVout (i - 1)]).
    rewrite take_pad_last by (cbn; apply has_pad_LVout).
    cbn [take_pad label_eqb]. rewrite Nat.eqb_refl, has_pad_LVout.
    replace i with (S i - 1)%nat at 2 by lia.
    apply IH; lia.
Qed.

Lemma xfade_cmd_closed (paths : list path) (out : path) :
  (2 <= List.length paths)%nat ->
  let n := List.length paths in
  let c := xfade_cmd paths out in
  List.length (inputs c) = n
  /\ pads_after n [] (filter_complex c) = Some [LVout (n - 1)]
  /\ maps c = [MapLabel (LVout (n - 1))].
Proof.
  intros H n c. subst c. unfold xfade_cmd. fold n. cbn [inputs filter_complex maps].
  split; [now rewrite length_map|].
  change (2 <= n)%nat in H. clearbody n. split.
  - unfold scale_parts, xfade_parts.
    change (@nil label) with (map LV (seq 0 0)).
    rewrite (@scales_pads n _ n 0) by lia. cbn [Nat.add].
    destruct n as [|[|n']]; try lia.
    cbn [Nat.sub seq map pads_after]. unfold xfade_part at 1. cbn [Nat.eqb].
    cbn [take_pad label_eqb Nat.eqb option_map].
    rewrite has_pad_LVout.
    replace (n' - 0)%nat with n' by lia.
    apply (@xfades_pads (S (S n')) n' 2); lia.
  - destruct (Nat.ltb_spec 1 n); [reflexivity | lia].
Qed.




(** *** The three functions, case by case *)

Lemma simple_cases (w : world) (paths : list path) (out : path) :
  concatenate_videos_simple w paths out =
  let f := simple_list w out in
  let s := concat_simple_cmd f out in
  match fs_error w (WriteConcatList f paths) with
  | Some e => ([WriteConcatList f paths], Raise e)
  | None =>
      if ffmpeg w s
      then ([WriteConcatList f paths; Run s; Unlink f],
            match fs_error w (Unlink f) with
            | None => Ok out
            | Some e => Raise e
            end)
      else ([WriteConcatList f paths; Run s], Raise (run_error w s))
  end.
Proof.
  unfold concatenate_videos_simple, run, simple_list. cbn zeta.
  rewrite !io_cases.
  destruct (fs_error w (WriteConcatList _ paths)); [reflexivity|].
  cbn. destruct (ffmpeg w _); [|reflexivity].
  cbn. destruct (fs_error w (Unlink _)); reflexivity.
Qed.

Lemma smooth_cases (w : world) (paths : list path) (out : path) :
  (2 <= List.length paths)%nat ->
  concatenate_with_smooth_transitions w paths out =
  let x := xfade_cmd paths out in
  if ffmpeg w x then ([Run x], Ok out)
  else (Run x :: log_of (concatenate_videos_simple w paths out),
        outcome (concatenate_videos_simple w paths out)).
Proof.
  intro H.
  assert (E : concatenate_with_smooth_transitions w paths out =
              try_except any_exception
                (run w (xfade_cmd paths out) ;;; ret out)
                (fun _ => concatenate_videos_simple w paths out)).
  { destruct paths as [|p1 [|p2 rest]]; cbn [List.length] in H; try lia; reflexivity. }
  rewrite E. unfold run. cbn zeta.
  destruct (ffmpeg w (xfade_cmd paths out)); [reflexivity|].
  cbn. now destruct (concatenate_videos_simple w paths out).
Qed.

Lemma concatenate_cases (w : world) (paths : list path) (out : path) (wt : bool) :
  (2 <= List.length paths)%nat ->
  concatenate_videos w paths out wt =
  let g := concat_list w out in
  let p := concat_cmd g out in
  match fs_error w (WriteConcatList g paths) with
  | Some e => ([WriteConcatList g paths], Raise e)
  | None =>
      if wt && Nat.leb (List.length paths) 10
      then (WriteConcatList g paths
              :: log_of (concatenate_with_smooth_transitions w paths out),
            outcome (concatenate_with_smooth_transitions w paths out))
      else if ffmpeg w p
           then if file_exists w g
                then ([WriteConcatList g paths; Run p; Unlink g],
                      match fs_error w (Unlink g) with
                      | None => Ok out
                      | Some e => Raise e
                      end)
                else ([WriteConcatList g paths; Run p], Ok out)
           else ([WriteConcatList g paths; Run p], Raise (run_error w p))
  end.
Proof.
  intro H.
  assert (E : concatenate_videos w paths out wt =
    try_except any_exception
      (let concat_file := concat_list w out in
       io w (WriteConcatList concat_file paths) ;;;
       if wt && Nat.leb (List.length paths) 10
       then concatenate_with_smooth_transitions w paths out
       else run w (concat_cmd concat_file out) ;;;
            (if file_exists w concat_file then io w (Unlink concat_file) else ret tt) ;;;
            ret out)
      (fun e => raise e)).
  { destruct paths as [|p1 [|p2 rest]]; cbn [List.length] in H; try lia; reflexivity. }
  rewrite E, reraise. cbn zeta. rewrite !io_cases.
  destruct (fs_error w (WriteConcatList _ paths)); [reflexivity|].
  destruct (wt && Nat.leb (List.length paths) 10).
  - now destruct (concatenate_with_smooth_transitions w paths out).
  - unfold run. destruct (ffmpeg w (concat_cmd _ out)); [|reflexivity].
    destruct (file_exists w (concat_list w out)); [|reflexivity].
    cbn. destruct (fs_error w (Unlink _)); reflexivity.
Qed.




Lemma copy_cases (w : world) (src dst : path) :
  shutil_copy w src dst
  = ([Copy src dst],
     if negb (file_exists w src) then Raise (FileNotFoundError src)
     else if String.eqb src dst then Raise SameFileError
     else match fs_error w (Copy src dst) with
          | None => Ok tt
          | Some e => Raise e
          end).
Proof.
  unfold shutil_copy. rewrite io_cases.
  destruct (file_exists w src); cbn; [|reflexivity].
  now destruct (String.eqb src dst).
Qed.

(** C10. An empty list raises [ValueError] and nothing is done; for a
    single clip the only action is the copy of that clip to the output
    path, and no ffmpeg command is run at all: the output path is returned
    when the copy succeeds, and the exception of the copy is raised
    otherwise (the clip is missing, or it is the output path itself). *)
Theorem concatenate_empty_or_single (w : world) (out : path) (wt : bool) :
  concatenate_videos w [] out wt = ([], Raise (ValueError "No videos to concatenate"))
  /\ forall p : path,
       let r := concatenate_videos w [p] out wt in
       log_of r = [Copy p out]
       /\ commands (log_of r) = []
       /\ outcome r
          = (if negb (file_exists w p) then Raise (FileNotFoundError p)
             else if String.eqb p out then Raise SameFileError
             else match fs_error w (Copy p out) with
                  | None => Ok out
                  | Some e => Raise e
                  end).
Proof.
  split; [reflexivity|]. intro p. cbn zeta.
  unfold concatenate_videos. rewrite copy_cases.
  destruct (file_exists w p); cbn; [|now repeat split].
  destruct (String.eqb p out); cbn; [now repeat split|].
  destruct (fs_error w (Copy p out)); cbn; now repeat split.
Qed.

End Concatenation.

(** ** The segment loop *)

Section SegmentLoop.

Import Single.

Variable w : world.
Variables images stock_videos : list path.
Variable dpc : Q.

Local Abbreviation step' := (step w images stock_videos dpc).
Local Abbreviation steps' := (steps w images stock_videos dpc).
Local Abbreviation body' := (body w images stock_videos dpc).
Local Abbreviation loop' := (loop w images stock_videos dpc).
Local Abbreviation extends := (Vocabulary.extends w dpc).

(** The body never raises, and it performs one [step]. *)
Lemma body_step (st : loop_state) (slot : nat * nat) :
  exists l st', body' st slot = (l, Ok st') /\ step' st slot st'.
Proof.
  destruct slot as [pos k]. unfold body.
  destruct k as [|[|k]]; cbn [Nat.eqb].
  - destruct (Nat.ltb (video_idx st) (List.length stock_videos)) eqn:Hlt.
    + unfold run.
      destruct (ffmpeg w (trim_cmd (nth (video_idx st) stock_videos "")
                            (segment_duration w dpc pos) (stock_output w pos))) eqn:Hf.
      * do 2 eexists. split; [reflexivity|].
        apply (@step_rendered w images stock_videos dpc st (pos, 0%nat)).
        -- unfold has_asset, idx, pool. cbn. exact Hlt.
        -- exact Hf.
      * do 2 eexists. split; [reflexivity|].
        apply (@step_failed w images stock_videos dpc st (pos, 0%nat)).
        -- unfold has_asset, idx, pool. cbn. exact Hlt.
        -- exact Hf.
    + do 2 eexists. split; [reflexivity|].
      apply step_skipped. unfold has_asset, idx, pool. cbn. exact Hlt.
  - destruct (Nat.ltb (image_idx st) (List.length images)) eqn:Hlt.
    + unfold create_video_from_image, run.
      destruct (ffmpeg w (image_cmd (nth (image_idx st) images "")
                            (segment_duration w dpc pos) (image_output w pos))) eqn:Hf.
      * do 2 eexists. split; [reflexivity|].
        apply (@step_rendered w images stock_videos dpc st (pos, 1%nat)).
        -- unfold has_asset, idx, pool. cbn. exact Hlt.
        -- exact Hf.
      * do 2 eexists. split; [reflexivity|].
        apply (@step_failed w images stock_videos dpc st (pos, 1%nat)).
        -- unfold has_asset, idx, pool. cbn. exact Hlt.
        -- exact Hf.
    + do 2 eexists. split; [reflexivity|].
      apply step_skipped. unfold has_asset, idx, pool. cbn. exact Hlt.
  - do 2 eexists. split; [reflexivity|].
    apply step_skipped. reflexivity.
Qed.

(** [step] is a function of the state and the slot. *)
Lemma step_deterministic (st : loop_state) (slot : nat * nat) (st1 st2 : loop_state) :
  step' st slot st1 -> step' st slot st2 -> st1 = st2.
Proof.
  intros H1 H2. inversion H1; inversion H2; subst; congruence.
Qed.

(** The loop never raises either, and performs [steps]. *)
Lemma loop_steps (slots : list (nat * nat)) :
  forall st, exists l st', loop' slots st = (l, Ok st') /\ steps' st slots st'.
Proof.
  induction slots as [|slot rest IH]; intro st.
  - exists [], st. split; [reflexivity | constructor].
  - destruct (body_step st slot) as [l1 [st1 [Hb Hs]]].
    destruct (IH st1) as [l2 [st2 [Hl Hss]]].
    exists (l1 ++ l2), st2. split.
    + cbn [loop]. rewrite Hb, bind_ok, Hl. reflexivity.
    + econstructor; eassumption.
Qed.

Lemma steps_deterministic (slots : list (nat * nat)) :
  forall st st1 st2, steps' st slots st1 -> steps' st slots st2 -> st1 = st2.
Proof.
  induction slots as [|slot rest IH]; intros st st1 st2 H1 H2.
  - inversion H1; inversion H2; congruence.
  - inversion H1 as [|? ? a ? ? Ha Hra]; inversion H2 as [|? ? b ? ? Hb Hrb]; subst.
    assert (a = b) by (eapply step_deterministic; eassumption). subst.
    eapply IH; eassumption.
Qed.

Lemma steps_app (l1 l2 : list (nat * nat)) :
  forall st st', steps' st (l1 ++ l2) st' ->
  exists mid, steps' st l1 mid /\ steps' mid l2 st'.
Proof.
  induction l1 as [|x l1 IH]; intros st st' H.
  - exists st. split; [constructor | exact H].
  - inversion H as [|? ? a ? ? Ha Hr]; subst.
    destruct (IH _ _ Hr) as [mid [H1 H2]].
    exists mid. split; [econstructor; eassumption | exact H2].
Qed.

(** *** What a step preserves *)

Lemma idx_advance_same (k : nat) (st : loop_state) (new : option segment) :
  idx k (advance k st new) = S (idx k st).
Proof. unfold idx, advance. cbn. now destruct (Nat.eqb k 0). Qed.

Lemma idx_advance_le (k k' : nat) (st : loop_state) (new : option segment) :
  (idx k' st <= idx k' (advance k st new))%nat.
Proof.
  unfold idx, advance. cbn.
  destruct (Nat.eqb k' 0), (Nat.eqb k 0); lia.
Qed.

Lemma step_consumed_once (st st' : loop_state) (slot : nat * nat) :
  step' st slot st' -> consumed_once st -> consumed_once st'.
Proof.
  intros Hs [Hlt Hnd]. destruct slot as [pos k].
  inversion Hs as [Hno | Has Hf | Has Hf]; subst; [now split | |].
  - split.
    + intros s Hin. cbn [segments advance] in Hin. apply in_app_or in Hin.
      destruct Hin as [Hin | [<- | []]].
      * specialize (Hlt s Hin). cbn [snd].
        pose proof (idx_advance_le k (seg_kind s) st
                      (Some (new_segment w dpc st (pos, k)))). lia.
      * cbn [snd new_segment seg_kind seg_source]. rewrite idx_advance_same. lia.
    + cbn [segments advance]. rewrite map_app. cbn [map].
      apply NoDup_app; [exact Hnd | repeat constructor; auto |].
      intros a Ha [<- | []].
      apply in_map_iff in Ha. destruct Ha as [s [Hk Hin]].
      specialize (Hlt s Hin). unfold key in Hk. cbn in Hk.
      inversion Hk. subst. lia.
  - split.
    + intros s Hin. cbn [segments advance] in Hin.
      specialize (Hlt s Hin). cbn [snd].
      pose proof (idx_advance_le k (seg_kind s) st None). lia.
    + exact Hnd.
Qed.

Lemma step_extends (st st' : loop_state) (slot : nat * nat) :
  step' st slot st' -> extends [slot] st st'.
Proof.
  intro Hs. destruct slot as [pos k].
  inversion Hs as [Hno | Has Hf | Has Hf]; subst; unfold extends.
  - repeat split; try lia. intros s Hin. now left.
  - cbn [snd advance video_idx image_idx segments].
    repeat split.
    + destruct (Nat.eqb k 0); lia.
    + destruct (Nat.eqb k 0); lia.
    + rewrite length_app. cbn. lia.
    + intros s Hin. apply in_app_or in Hin. destruct Hin as [Hin | [<- | []]].
      * now left.
      * right. cbn. repeat split; auto.
  - cbn [snd advance video_idx image_idx segments].
    repeat split.
    + destruct (Nat.eqb k 0); lia.
    + destruct (Nat.eqb k 0); lia.
    + lia.
    + intros s Hin. now left.
Qed.

Lemma idx_le (k : nat) (st st' : loop_state) :
  (video_idx st <= video_idx st')%nat -> (image_idx st <= image_idx st')%nat ->
  (idx k st <= idx k st')%nat.
Proof. unfold idx. now destruct (Nat.eqb k 0). Qed.

Lemma steps_extends (slots : list (nat * nat)) :
  forall st st', steps' st slots st' -> extends slots st st'.
Proof.
  induction slots as [|slot rest IH]; intros st st' H.
  - inversion H; subst. unfold extends. repeat split; try lia.
    intros s Hin. now left.
  - inversion H as [|? ? st1 ? ? Hs Hr]; subst.
    destruct (step_extends Hs) as [Hv1 [Hi1 [Hl1 Hn1]]].
    destruct (IH _ _ Hr) as [Hv2 [Hi2 [Hl2 Hn2]]].
    unfold extends. repeat split; try lia.
    + cbn [List.length] in *. lia.
    + intros s Hin. destruct (Hn2 s Hin) as [Hold | [Hge [Hslot Hd]]].
      * destruct (Hn1 s Hold) as [Hold' | [Hge [[Hslot | []] Hd]]].
        -- now left.
        -- right. repeat split; auto. now left.
      * right. repeat split; auto.
        -- pose proof (@idx_le (seg_kind s) st st1 Hv1 Hi1). lia.
        -- now right.
Qed.

Lemma steps_consumed_once (slots : list (nat * nat)) :
  forall st st', steps' st slots st' -> consumed_once st -> consumed_once st'.
Proof.
  induction slots as [|slot rest IH]; intros st st' H Hc.
  - inversion H; now subst.
  - inversion H as [|? ? st1 ? ? Hs Hr]; subst.
    eapply IH; [eassumption|]. eapply step_consumed_once; eassumption.
Qed.

(** A failed render consumes its asset for good: no later segment uses it. *)
Lemma failed_asset_never_used (st st' : loop_state) (pos k : nat)
    (rest : list (nat * nat)) :
  consumed_once st ->
  has_asset images stock_videos st (pos, k) = true ->
  ffmpeg w (render_cmd w images stock_videos dpc st (pos, k)) = false ->
  steps' st ((pos, k) :: rest) st' ->
  ~ In (k, idx k st) (map key (segments st')).
Proof.
  intros [Hlt _] Has Hf H Hin.
  inversion H as [|? ? st1 ? ? Hs Hr]; subst.
  assert (E : st1 = advance k st None).
  { eapply step_deterministic; [exact Hs|].
    apply (@step_failed w images stock_videos dpc st (pos, k)); assumption. }
  subst st1.
  apply in_map_iff in Hin. destruct Hin as [s [Hk Hs']].
  unfold key in Hk. injection Hk as Hkind Hsrc.
  destruct (steps_extends Hr) as [_ [_ [_ Hnew]]].
  destruct (Hnew s Hs') as [Hold | [Hge _]].
  - cbn [segments advance] in Hold. specialize (Hlt s Hold).
    rewrite Hkind, Hsrc in Hlt. lia.
  - rewrite Hkind, Hsrc, idx_advance_same in Hge. lia.
Qed.

End SegmentLoop.

(** ** The segment planner: [generate_single_video] *)

Section Planner.

Import Single.

Lemma firstn_split {A} (l : list A) (n m : nat) :
  (n <= m)%nat -> firstn m l = firstn n l ++ skipn n (firstn m l).
Proof.
  intro H. rewrite <- (firstn_skipn n (firstn m l)) at 1.
  now rewrite firstn_firstn, Nat.min_l.
Qed.

Lemma skipn_nth_error {A} (l : list A) :
  forall n x, nth_error l n = Some x -> skipn n l = x :: skipn (S n) l.
Proof.
  induction l as [|y l IH]; intros [|n] x H; try discriminate.
  - now injection H as ->.
  - cbn [nth_error] in H. cbn [skipn]. now apply IH.
Qed.

Lemma skipn_firstn_one {A} (l : list A) :
  forall n x, nth_error l n = Some x -> skipn n (firstn (S n) l) = [x].
Proof.
  induction l as [|y l IH]; intros [|n] x H; try discriminate.
  - injection H as ->. reflexivity.
  - cbn [nth_error] in H. cbn [firstn skipn]. now apply IH.
Qed.

Lemma nth_error_numbered (l : list nat) :
  forall a n k, nth_error l n = Some k ->
  nth_error (combine (seq a (List.length l)) l) n = Some ((a + n)%nat, k).
Proof.
  induction l as [|y l IH]; intros a [|n] k H; try discriminate.
  - injection H as ->. cbn. now rewrite Nat.add_0_r.
  - cbn [nth_error] in H. cbn [List.length seq combine nth_error].
    rewrite (IH (S a) n k H). f_equal. f_equal. lia.
Qed.

Lemma nth_error_enumerate (n k : nat) :
  nth_error pattern n = Some k -> nth_error (enumerate pattern) n = Some (n, k).
Proof. intro H. unfold enumerate. now rewrite (nth_error_numbered pattern 0 n H). Qed.

Variable w : world.
Variables images stock_videos : list path.
Variable audio_path : option path.
Variable dpc : Q.

Local Abbreviation base := (base_duration w audio_path dpc).
Local Abbreviation after := (state_after w images stock_videos audio_path dpc).
Local Abbreviation steps' := (steps w images stock_videos base).

Lemma run_slots_steps (n : nat) :
  (exists l, run_slots w images stock_videos audio_path dpc n = (l, Ok (after n)))
  /\ steps' init (firstn n (enumerate pattern)) (after n).
Proof.
  unfold state_after, final_state, run_slots.
  destruct (loop_steps w images stock_videos base (firstn n (enumerate pattern)) init)
    as [l [st [Hl Hs]]].
  rewrite Hl. cbn. split; [now exists l | exact Hs].
Qed.

Lemma after_split (n m : nat) :
  (n <= m)%nat -> steps' (after n) (skipn n (firstn m (enumerate pattern))) (after m).
Proof.
  intro H.
  destruct (run_slots_steps m) as [_ Hm]. destruct (run_slots_steps n) as [_ Hn].
  rewrite (firstn_split (enumerate pattern) H) in Hm.
  destruct (steps_app _ _ Hm) as [mid [H1 H2]].
  now rewrite (steps_deterministic H1 Hn) in H2.
Qed.

Lemma after_consumed_once (n : nat) : consumed_once (after n).
Proof.
  destruct (run_slots_steps n) as [_ Hn].
  eapply steps_consumed_once; [exact Hn|].
  split; [intros s [] | constructor].
Qed.

Lemma generate_single_video_total :
  exists l, generate_single_video w images stock_videos audio_path dpc
            = (l, Ok (map seg_path (segments (after 25)))).
Proof.
  destruct (run_slots_steps 25) as [[l Hl] _].
  exists l. unfold generate_single_video, plan.
  change (List.length pattern) with 25%nat. rewrite Hl. cbn.
  now rewrite !app_nil_r.
Qed.

End Planner.

Section PlannerClaims.

Import Single.

(** C9. The run always ends normally with the segments of the last state.
    No asset (kind, pool index) is behind two segments; the pool indices
    never decrease from one slot to a later one; when the render of a slot
    fails, the index of its pool still moves on, no segment is appended, and
    the failed asset is behind no segment of the output; and there are at
    most 25 segments, the length of the pattern. *)
Theorem pool_consumption (w : world) (images stock_videos : list path)
    (audio_path : option path) (dpc : Q) :
  let after := state_after w images stock_videos audio_path dpc in
  let base := base_duration w audio_path dpc in
  let out := segments (after 25%nat) in
  (exists l, generate_single_video w images stock_videos audio_path dpc
             = (l, Ok (map seg_path out)))
  /\ NoDup (map key out)
  /\ (forall n m, (n <= m)%nat ->
        (video_idx (after n) <= video_idx (after m))%nat
        /\ (image_idx (after n) <= image_idx (after m))%nat)
  /\ (forall n k,
        nth_error pattern n = Some k ->
        has_asset images stock_videos (after n) (n, k) = true ->
        ffmpeg w (render_cmd w images stock_videos base (after n) (n, k)) = false ->
        after (S n) = advance k (after n) None
        /\ ~ In (k, idx k (after n)) (map key out))
  /\ (List.length out <= List.length pattern)%nat
  /\ List.length pattern = 25%nat.
Proof.
  intros after base out. repeat split.
  - apply generate_single_video_total.
  - apply (after_consumed_once w images stock_videos audio_path dpc 25).
  - destruct (steps_extends (after_split w images stock_videos audio_path dpc H))
      as [Hv _]. exact Hv.
  - destruct (steps_extends (after_split w images stock_videos audio_path dpc H))
      as [_ [Hi _]]. exact Hi.
  - pose proof (after_split w images stock_videos audio_path dpc (Nat.le_succ_diag_r n))
      as Hstep.
    rewrite (skipn_firstn_one _ _ (nth_error_enumerate _ H)) in Hstep.
    inversion Hstep as [|? ? st1 ? ? Hs Hr]; subst. inversion Hr; subst.
    eapply step_deterministic; [exact Hs|].
    apply (@step_failed w images stock_videos base (after n) (n, k)); assumption.
  - assert (Hn : (n < 25)%nat).
    { change 25%nat with (List.length pattern).
      apply (proj1 (nth_error_Some pattern n)). congruence. }
    assert (Hle : (n <= 25)%nat) by lia.
    pose proof (after_split w images stock_videos audio_path dpc Hle) as Hrest.
    change (firstn 25 (enumerate pattern)) with (enumerate pattern) in Hrest.
    rewrite (skipn_nth_error _ _ (nth_error_enumerate _ H)) in Hrest.
    eapply failed_asset_never_used;
      [apply after_consumed_once | eassumption | eassumption | exact Hrest].
  - destruct (run_slots_steps w images stock_videos audio_path dpc 25) as [_ Hs].
    destruct (steps_extends Hs) as [_ [_ [Hlen _]]].
    change (firstn 25 (enumerate pattern)) with (enumerate pattern) in Hlen.
    change (List.length (enumerate pattern)) with 25%nat in Hlen.
    cbn [segments init List.length] in Hlen. exact Hlen.
Qed.

Lemma pool_consumption_witness :
  let out := segments (state_after flaky_world ["img/a.png"]
                         ["stock/bad.mp4"; "stock/good.mp4"] None (5 # 2) 25) in
  ~ In (0%nat, 0%nat) (map key out) /\ NoDup (map key out).
Proof.
  destruct (pool_consumption flaky_world ["img/a.png"]
              ["stock/bad.mp4"; "stock/good.mp4"] None (5 # 2))
    as [_ [Hnd [_ [Hfail _]]]].
  split.
  - apply (Hfail 0%nat 0%nat); vm_compute; reflexivity.
  - exact Hnd.
Defined.

(** The jitter moves a base in [[2.0, 2.5]] by at most 0.3 s, clamp included. *)
Lemma jitter_bound (b j : Q) :
  2 <= b -> b <= 5 # 2 -> - (3 # 10) <= j -> j <= 3 # 10 ->
  b - (3 # 10) <= py_max 2 (py_min 3 (b + j)) /\ py_max 2 (py_min 3 (b + j)) <= b + (3 # 10).
Proof.
  intros H1 H2 H3 H4. unfold py_max, py_min.
  destruct (Qlt_bool (b + j) 3) eqn:E1.
  - destruct (Qlt_bool 2 (b + j)) eqn:E2; [split; lra|].
    apply Qlt_bool_false_iff in E2. split; lra.
  - apply Qlt_bool_false_iff in E1. lra.
Qed.

(** [random()] is in [[0, 1)], so [uniform(a, b)] is in [[a, b]]. *)
Lemma random_unit_range (bits : N) : 0 <= random_unit bits /\ random_unit bits < 1.
Proof.
  unfold random_unit.
  assert (Hnz : (2 ^ 53)%N <> 0%N) by (vm_compute; discriminate).
  pose proof (N.mod_lt bits (2 ^ 53)%N Hnz) as H.
  set (m := N.modulo bits (2 ^ 53)%N) in *. clearbody m.
  change (2 ^ 53)%N with 9007199254740992%N in H.
  change (2 ^ 53)%positive with 9007199254740992%positive.
  split.
  - unfold Qle. cbn [Qnum Qden]. lia.
  - unfold Qlt. cbn [Qnum Qden]. lia.
Qed.

Lemma uniform_range (a b : Q) (bits : N) :
  a <= b -> a <= uniform a b bits /\ uniform a b bits <= b.
Proof.
  intro H. unfold uniform.
  destruct (random_unit_range bits) as [H0 H1].
  set (r := random_unit bits) in *.
  assert (Hm : 0 <= (b - a) * r) by (apply Qmult_le_0_compat; lra).
  assert (Hm' : 0 <= (b - a) * (1 - r)) by (apply Qmult_le_0_compat; lra).
  assert (E : (b - a) * (1 - r) == (b - a) - (b - a) * r) by ring.
  split; lra.
Qed.

(** C2. With a narration file, the base duration is the narration length
    over 25 (the pattern length) clamped to [[2.0, 2.5]]; each slot adds the
    jitter it draws with [random.uniform(-0.3, 0.3)], which is at most 0.3 s
    either way, and clamps the sum to [[2.0, 3.0]]; every slot duration, and
    so the duration of every produced segment, lies in [[2.0, 3.0]] and
    within 0.3 s of the base. *)
Theorem slot_duration_range (w : world) (images stock_videos : list path)
    (a : path) (dpc : Q) :
  truthy a = true -> file_exists w a = true ->
  let base := base_duration w (Some a) dpc in
  let out := segments (state_after w images stock_videos (Some a) dpc 25) in
  let jitter := fun p => uniform (- (3 # 10)) (3 # 10) (random_bits w p) in
  base = py_max 2 (py_min (5 # 2) (get_audio_duration w a / 25))
  /\ inject_Z (Z.of_nat (List.length pattern)) == 25
  /\ (2 <= base /\ base <= 5 # 2)
  /\ (forall p,
        (- (3 # 10) <= jitter p /\ jitter p <= 3 # 10)
        /\ segment_duration w base p = py_max 2 (py_min 3 (base + jitter p))
        /\ (2 <= segment_duration w base p /\ segment_duration w base p <= 3)
        /\ (base - (3 # 10) <= segment_duration w base p
            /\ segment_duration w base p <= base + (3 # 10)))
  /\ (forall s, In s out ->
        seg_duration s = segment_duration w base (seg_position s)
        /\ 2 <= seg_duration s /\ seg_duration s <= 3).
Proof.
  intros Ha He base out jitter.
  assert (Hbase : base = py_max 2 (py_min (5 # 2) (get_audio_duration w a / 25))).
  { unfold base, base_duration. now rewrite Ha, He. }
  assert (Hrange : 2 <= base /\ base <= 5 # 2).
  { rewrite Hbase. apply clamp_range. lra. }
  assert (Hslot : forall p, 2 <= segment_duration w base p
                            /\ segment_duration w base p <= 3).
  { intro p. unfold segment_duration. apply clamp_range. lra. }
  assert (Hj : forall p, - (3 # 10) <= jitter p /\ jitter p <= 3 # 10).
  { intro p. apply uniform_range. lra. }
  split; [exact Hbase|]. split; [reflexivity|]. split; [exact Hrange|]. split.
  - intro p. split; [apply Hj|]. split; [reflexivity|]. split; [apply Hslot|].
    destruct (Hj p). unfold segment_duration. fold (jitter p).
    apply jitter_bound; tauto.
  - intros s Hin.
    destruct (run_slots_steps w images stock_videos (Some a) dpc 25) as [_ Hs].
    destruct (steps_extends Hs) as [_ [_ [_ Hnew]]].
    destruct (Hnew s Hin) as [[] | [_ [_ Hd]]].
    fold base in Hd. rewrite Hd. split; [reflexivity | apply Hslot].
Qed.

Lemma slot_duration_range_witness :
  let w := probing_world "" None "audio/narration.mp3" (Some 62%float) in
  let base := base_duration w (Some "audio/narration.mp3") (5 # 2) in
  base == 248 # 100
  /\ 2 <= segment_duration w base 7 /\ segment_duration w base 7 <= 3.
Proof.
  intros w base.
  destruct (slot_duration_range w ["img/a.png"] ["stock/a.mp4"]
              "audio/narration.mp3" (5 # 2)) as [_ [_ [_ [Hslot _]]]].
  - reflexivity.
  - reflexivity.
  - split; [vm_compute; reflexivity|]. exact (proj1 (proj2 (proj2 (Hslot 7%nat)))).
Defined.

End PlannerClaims.

(** ** Engagement overlays *)

Section Overlays.

Import Engagement.

(** The two burn-ins, case by case: only [CalledProcessError] is handled. *)
Lemma overlay_cases (w : world) (video_path : path) (text_points : list point)
    (out : path) :
  let c := overlay_cmd video_path text_points out in
  add_text_overlay_intervals w video_path text_points out
  = ([Run c],
     if ffmpeg w c then Ok out
     else if is_CalledProcessError (run_error w c) then Ok video_path
          else Raise (run_error w c)).
Proof.
  cbn zeta. unfold add_text_overlay_intervals, run.
  destruct (ffmpeg w _); [reflexivity|]. cbn.
  destruct (is_CalledProcessError (run_error w _)); reflexivity.
Qed.

Lemma cta_cases (w : world) (video_path : path) (cta_text : string) (out : path) :
  let c := cta_cmd w video_path cta_text out in
  add_call_to_action w video_path cta_text out
  = ([Run c],
     if ffmpeg w c then Ok out
     else if is_CalledProcessError (run_error w c) then Ok video_path
          else Raise (run_error w c)).
Proof.
  cbn zeta. unfold add_call_to_action, run.
  destruct (ffmpeg w _); [reflexivity|]. cbn.
  destruct (is_CalledProcessError (run_error w _)); reflexivity.
Qed.

(** When the run that burns the text in ends with a failure status, both
    operations end normally and return the path of the input video. *)
Lemma overlay_exit_failure (w : world) (video_path : path)
    (text_points : list point) (cta_text : string) (out : path) :
  (ffmpeg w (overlay_cmd video_path text_points out) = false ->
   run_error w (overlay_cmd video_path text_points out) = CalledProcessError ->
   add_text_overlay_intervals w video_path text_points out
   = ([Run (overlay_cmd video_path text_points out)], Ok video_path))
  /\ (ffmpeg w (cta_cmd w video_path cta_text out) = false ->
      run_error w (cta_cmd w video_path cta_text out) = CalledProcessError ->
      add_call_to_action w video_path cta_text out
      = ([Run (cta_cmd w video_path cta_text out)], Ok video_path)).
Proof.
  split; intros H E.
  - rewrite overlay_cases. cbn zeta. now rewrite H, E.
  - rewrite cta_cases. cbn zeta. now rewrite H, E.
Qed.

(** When the run cannot be started, the exception is not one the handler
    names: it leaves the operation. *)
Lemma overlay_start_failure (w : world) (video_path : path)
    (text_points : list point) (cta_text : string) (out : path) :
  (ffmpeg w (overlay_cmd video_path text_points out) = false ->
   is_CalledProcessError (run_error w (overlay_cmd video_path text_points out)) = false ->
   outcome (add_text_overlay_intervals w video_path text_points out)
   = Raise (run_error w (overlay_cmd video_path text_points out)))
  /\ (ffmpeg w (cta_cmd w video_path cta_text out) = false ->
      is_CalledProcessError (run_error w (cta_cmd w video_path cta_text out)) = false ->
      outcome (add_call_to_action w video_path cta_text out)
      = Raise (run_error w (cta_cmd w video_path cta_text out))).
Proof.
  split; intros H E.
  - rewrite overlay_cases. cbn zeta. now rewrite H, E.
  - rewrite cta_cases. cbn zeta. now rewrite H, E.
Qed.

(** When the run succeeds the new file is returned. *)
Lemma overlay_success (w : world) (video_path : path) (text_points : list point)
    (out : path) :
  ffmpeg w (overlay_cmd video_path text_points out) = true ->
  add_text_overlay_intervals w video_path text_points out
  = ([Run (overlay_cmd video_path text_points out)], Ok out).
Proof. intro H. unfold add_text_overlay_intervals, run. now rewrite H. Qed.

End Overlays.

(** ** Engagement points *)

Section EngagementPoints.

Import Engagement.

Lemma key_phrases_length (content : string) :
  (List.length (key_phrases content) <= 5)%nat.
Proof.
  unfold key_phrases. rewrite length_map.
  eapply Nat.le_trans; [apply filter_length_le|].
  rewrite length_firstn. apply Nat.le_min_l.
Qed.

Lemma points_from_length (interval : float) (phrases : list string) :
  forall i, List.length (points_from interval i phrases) = List.length phrases.
Proof.
  induction phrases as [|ph rest IH]; intro i; cbn; [reflexivity | now rewrite IH].
Qed.

Lemma points_from_nth (interval : float) (phrases : list string) :
  forall i0 i p,
    nth_error (points_from interval i0 phrases) i = Some p ->
    start p = PrimFloat.mul interval (float_of_nat (i0 + i + 1))
    /\ duration p = 2%float
    /\ nth_error phrases i = Some (text p).
Proof.
  induction phrases as [|ph rest IH]; intros i0 [|i] p H; try discriminate.
  - cbn in H. injection H as <-. cbn. now rewrite Nat.add_0_r.
  - cbn [points_from nth_error] in H. destruct (IH _ _ _ H) as [Hs [Hd Ht]].
    repeat split; auto. rewrite Hs. do 3 f_equal. lia.
Qed.

(** *** The starts of the points, as doubles *)

(** [float(n)] is exact, and has a full mantissa, for the few integers the
    generator converts. *)
Lemma small_float (n : nat) :
  (1 <= n <= 6)%nat ->
  Double.normal_pos (float_of_nat n) = true
  /\ to_Q (float_of_nat n) == inject_Z (Z.of_nat n).
Proof.
  intro H.
  destruct n as [|[|[|[|[|[|[|n]]]]]]]; try lia; split; vm_compute; reflexivity.
Qed.

Lemma max_float_large : 16 <= Double.max_float.
Proof. vm_compute. discriminate. Qed.

(** The start [T / c * j] of the point of rank [j - 1] among [c - 1]: it is
    zero or a positive double and, times [c], within [2^-49 * T + 2^-1069] of [j * T].
    The second term covers the timelines so short that the interval falls
    below the normal range of the doubles. *)
Lemma start_bounds (T : float) (c j : nat) :
  0 < to_Q T -> (1 <= j < c)%nat -> (c <= 6)%nat ->
  let s := to_Q (PrimFloat.mul (PrimFloat.div T (float_of_nat c))
                               (float_of_nat j)) in
  let cq := inject_Z (Z.of_nat c) in
  let jq := inject_Z (Z.of_nat j) in
  Double.nonneg_SF
    (Prim2SF (PrimFloat.mul (PrimFloat.div T (float_of_nat c)) (float_of_nat j)))
  = true
  /\ 0 <= s
  /\ jq * to_Q T - (Double.pow2 (-49) * to_Q T + Double.pow2 (-1069)) <= cq * s
  /\ cq * s <= jq * to_Q T + (Double.pow2 (-49) * to_Q T + Double.pow2 (-1069)).
Proof.
  intros HT Hj Hc.
  destruct (@small_float c ltac:(lia)) as [_ Ec].
  destruct (@small_float j ltac:(lia)) as [Nj Ej].
  set (fc := float_of_nat c) in *. set (fj := float_of_nat j) in *.
  cbv zeta.
  set (cq := inject_Z (Z.of_nat c)) in *.
  set (jq := inject_Z (Z.of_nat j)) in *.
  assert (Hcq : 0 < cq).
  { unfold cq. change 0 with (inject_Z 0). rewrite <- Zlt_Qlt. lia. }
  assert (Hfc : 0 < to_Q fc) by (rewrite Ec; exact Hcq).
  set (X := to_Q T / cq).
  assert (HX : X * to_Q fc == to_Q T) by (rewrite Ec; unfold X; field; lra).
  assert (HXc : cq * X == to_Q T) by (unfold X; field; lra).
  pose proof (to_Q_le_max T) as HTmax.
  pose proof max_float_large as HM.
  pose proof (pow2_pos (-1075)) as Hp1.
  assert (Hp2 : Double.pow2 (-1022) == 9007199254740992 * Double.pow2 (-1075)).
  { replace (-1022)%Z with (53 + -1075)%Z by reflexivity.
    rewrite pow2_add. reflexivity. }
  assert (Hp3 : Double.pow2 (-1069) == 64 * Double.pow2 (-1075)).
  { replace (-1069)%Z with (6 + -1075)%Z by reflexivity.
    rewrite pow2_add. reflexivity. }
  assert (Hp4 : Double.pow2 (-1022) <= 1 # 4).
  { apply Qle_trans with (Double.pow2 (-2)); [apply pow2_le; lia|].
    apply Qle_refl. }
  assert (Hp5 : Double.pow2 (-49) == 1 # 562949953421312) by reflexivity.
  assert (HXpos : 0 < X) by (unfold X; apply Qlt_shift_div_l; lra).
  assert (HXmax : X <= Double.max_float).
  { apply Qle_trans with (to_Q T); [|exact HTmax].
    unfold X. apply Qle_shift_div_r; [exact Hcq|].
    assert (A : 1 <= cq).
    { unfold cq. change 1 with (inject_Z 1). rewrite <- Zle_Qle. lia. }
    assert (B : to_Q T * 1 <= to_Q T * cq) by (apply Qmult_le_l; lra).
    lra. }
  destruct (@div_error T fc X HT Hfc HX HXmax) as [Dn [Drel Dabs]].
  fold (to_Q (PrimFloat.div T fc)) in Drel, Dabs.
  pose proof (@nonneg_SF_value _ Dn) as Dpos.
  fold (to_Q (PrimFloat.div T fc)) in Dpos.
  set (fd := PrimFloat.div T fc) in *. set (d := to_Q fd) in *.
  rewrite eps_value in Drel.
  assert (Hprod : d * to_Q fj <= Double.max_float).
  { rewrite Ej. unfold jq, cq in *. clear Ec Ej Nj HX.
    destruct (Qlt_le_dec X (Double.pow2 (-1022))) as [Q1 | Q1];
      [apply Qlt_le_weak in Q1; specialize (Dabs Q1)
      | specialize (Drel Q1)];
      destruct c as [|[|[|[|[|[|[|c]]]]]]]; try lia;
      destruct j as [|[|[|[|[|[|j]]]]]]; try lia;
      cbv [inject_Z Z.of_nat Pos.of_succ_nat Pos.succ] in *; lra. }
  destruct (@mul_error fd fj Dn Nj Hprod) as [Sn [Srel Sabs]].
  fold (to_Q (PrimFloat.mul fd fj)) in Srel, Sabs.
  pose proof (@nonneg_SF_value _ Sn) as Spos.
  fold (to_Q (PrimFloat.mul fd fj)) in Spos.
  set (s := to_Q (PrimFloat.mul fd fj)) in *.
  rewrite eps_value in Srel.
  split; [exact Sn|]. split; [exact Spos|].
  rewrite Ej in Srel, Sabs. change (to_Q fd) with d in Srel, Sabs.
  rewrite Hp5. unfold jq, cq in *. clear Ec Ej Nj HX Hprod.
  destruct (Qlt_le_dec X (Double.pow2 (-1022))) as [Q1 | Q1];
    [apply Qlt_le_weak in Q1; specialize (Dabs Q1)
    | specialize (Drel Q1)];
    (destruct (Qlt_le_dec (d * inject_Z (Z.of_nat j)) (Double.pow2 (-1022)))
       as [Q2 | Q2];
     [apply Qlt_le_weak in Q2; specialize (Sabs Q2)
     | specialize (Srel Q2)]);
    destruct c as [|[|[|[|[|[|[|c]]]]]]]; try lia;
    destruct j as [|[|[|[|[|[|j]]]]]]; try lia;
    cbv [inject_Z Z.of_nat Pos.of_succ_nat Pos.succ] in *; split; lra.
Qed.

(** All the points of a timeline a little longer than [2 * (k + 1)] end
    inside it; when the last of [k >= 1] points ends inside the timeline,
    the timeline is not shorter than a little less than [2 * (k + 1)]. *)
Lemma rank_within (T : float) (c j : nat) :
  (1 <= j < c)%nat -> (c <= 6)%nat ->
  2 * inject_Z (Z.of_nat c) + Double.pow2 (-40) <= to_Q T ->
  to_Q (PrimFloat.mul (PrimFloat.div T (float_of_nat c)) (float_of_nat j))
  + to_Q 2%float <= to_Q T.
Proof.
  intros Hj Hc HT.
  assert (Hpos : 0 < to_Q T).
  { pose proof (pow2_pos (-40)).
    assert (0 <= inject_Z (Z.of_nat c))
      by (change 0 with (inject_Z 0); rewrite <- Zle_Qle; lia).
    lra. }
  destruct (@start_bounds T c j Hpos Hj Hc) as [_ [_ [_ U]]].
  set (s := to_Q (PrimFloat.mul (PrimFloat.div T (float_of_nat c))
                                (float_of_nat j))) in *.
  assert (E2 : to_Q 2%float == 2) by (vm_compute; reflexivity).
  assert (Hq : Double.pow2 (-1069) <= 1 # 1152921504606846976).
  { apply Qle_trans with (Double.pow2 (-60)); [apply pow2_le; lia|].
    apply Qle_refl. }
  assert (Hp5 : Double.pow2 (-49) == 1 # 562949953421312) by reflexivity.
  assert (Hp6 : Double.pow2 (-40) == 1 # 1099511627776) by reflexivity.
  rewrite E2. rewrite Hp5 in U. rewrite Hp6 in HT.
  destruct c as [|[|[|[|[|[|[|c]]]]]]]; try lia;
    destruct j as [|[|[|[|[|[|j]]]]]]; try lia;
    cbv [inject_Z Z.of_nat Pos.of_succ_nat Pos.succ] in *; lra.
Qed.

Lemma last_rank_within (T : float) (c : nat) :
  0 < to_Q T -> (2 <= c <= 6)%nat ->
  to_Q (PrimFloat.mul (PrimFloat.div T (float_of_nat c)) (float_of_nat (c - 1)))
  + to_Q 2%float <= to_Q T ->
  2 * inject_Z (Z.of_nat c) - Double.pow2 (-40) <= to_Q T.
Proof.
  intros Hpos Hc H.
  destruct (@start_bounds T c (c - 1) Hpos ltac:(lia) ltac:(lia))
    as [_ [_ [L _]]].
  set (s := to_Q (PrimFloat.mul (PrimFloat.div T (float_of_nat c))
                                (float_of_nat (c - 1)))) in *.
  assert (E2 : to_Q 2%float == 2) by (vm_compute; reflexivity).
  assert (Hq : Double.pow2 (-1069) <= 1 # 1152921504606846976).
  { apply Qle_trans with (Double.pow2 (-60)); [apply pow2_le; lia|].
    apply Qle_refl. }
  assert (Hp5 : Double.pow2 (-49) == 1 # 562949953421312) by reflexivity.
  assert (Hp6 : Double.pow2 (-40) == 1 # 1099511627776) by reflexivity.
  rewrite E2 in H. rewrite Hp5 in L. rewrite Hp6.
  destruct c as [|[|[|[|[|[|[|c]]]]]]]; try lia;
    cbv [Nat.sub inject_Z Z.of_nat Pos.of_succ_nat Pos.succ] in *; lra.
Qed.

(** The threshold [2 * (k+1)] of the exact arithmetic is not sharp on
    doubles: just below 12 s, five points all end inside the timeline. *)
Lemma threshold_not_sharp :
  to_Q 11.999999999999998%float < 12
  /\ Forall (within_timeline 11.999999999999998%float)
            (generate_engagement_points 11.999999999999998%float
               "One. Two. Three. Four. Five.").
Proof.
  split; [vm_compute; reflexivity|].
  vm_compute (generate_engagement_points _ _).
  repeat constructor; vm_compute; discriminate.
Qed.

(** C6, as the code has it. For a timeline of [T > 0] there is one point per
    non-blank piece among the first five pieces of the content cut at full
    stops, hence at most five; the point of rank [i] starts at the double
    [T / (k+1) * (i+1)], which is [(i+1) * T / (k+1)] up to the rounding of
    the two operations, and lasts 2.0 s; all the points end inside the
    timeline when [T >= 2 * (k+1) + 2^-40] and, when there is a point at
    all, only when [T >= 2 * (k+1) - 2^-40]. *)
Theorem engagement_points_spacing (T : float) (content : string) :
  0 < to_Q T ->
  let pts := generate_engagement_points T content in
  let k := List.length pts in
  let interval := PrimFloat.div T (float_of_nat (k + 1)) in
  k = List.length (key_phrases content)
  /\ (k <= 5)%nat
  /\ (forall i p, nth_error pts i = Some p ->
        start p = PrimFloat.mul interval (float_of_nat (i + 1))
        /\ duration p = 2%float
        /\ nth_error (key_phrases content) i = Some (text p)
        /\ Qabs (inject_Z (Z.of_nat (k + 1)) * to_Q (start p)
                 - inject_Z (Z.of_nat (i + 1)) * to_Q T)
           <= Double.pow2 (-49) * to_Q T + Double.pow2 (-1069))
  /\ (2 * inject_Z (Z.of_nat (k + 1)) + Double.pow2 (-40) <= to_Q T ->
      Forall (within_timeline T) pts)
  /\ ((1 <= k)%nat -> Forall (within_timeline T) pts ->
      2 * inject_Z (Z.of_nat (k + 1)) - Double.pow2 (-40) <= to_Q T).
Proof.
  intros HT pts k interval.
  assert (Hk : k = List.length (key_phrases content)).
  { unfold k, pts, generate_engagement_points. apply points_from_length. }
  assert (Hk5 : (k <= 5)%nat) by (rewrite Hk; apply key_phrases_length).
  assert (Hnth : forall i p, nth_error pts i = Some p ->
            (i < k)%nat
            /\ start p = PrimFloat.mul interval (float_of_nat (i + 1))
            /\ duration p = 2%float
            /\ nth_error (key_phrases content) i = Some (text p)).
  { intros i p H. split; [apply nth_error_Some; congruence|].
    unfold pts, generate_engagement_points in H.
    apply points_from_nth in H. unfold interval. rewrite Hk. exact H. }
  split; [exact Hk|]. split; [exact Hk5|]. split; [|split].
  - intros i p H. destruct (Hnth i p H) as [Hi [Hs [Hd Ht]]].
    repeat split; auto. rewrite Hs. unfold interval.
    destruct (@start_bounds T (k + 1) (i + 1) HT ltac:(lia) ltac:(lia))
      as [_ [_ [L U]]].
    apply Qabs_Qle_condition. split; lra.
  - intro Hlong. apply Forall_forall. intros p Hin.
    apply In_nth_error in Hin. destruct Hin as [i Hi].
    destruct (Hnth i p Hi) as [Hik [Hs [Hd _]]].
    unfold within_timeline. rewrite Hs, Hd. unfold interval.
    apply rank_within; [lia | lia | exact Hlong].
  - intros Hpos Hall.
    destruct (nth_error pts (k - 1)) as [p|] eqn:Hp.
    + destruct (Hnth _ _ Hp) as [_ [Hs [Hd _]]].
      rewrite Forall_forall in Hall.
      specialize (Hall p (nth_error_In _ _ Hp)).
      unfold within_timeline in Hall. rewrite Hs, Hd in Hall.
      unfold interval in Hall.
      replace (k - 1 + 1)%nat with (k + 1 - 1)%nat in Hall by lia.
      apply last_rank_within; [exact HT | lia | exact Hall].
    + apply nth_error_None in Hp. fold k in Hp. lia.
Qed.

Lemma engagement_points_spacing_witness :
  Forall (within_timeline 30%float)
         (generate_engagement_points 30%float "One. Two. Three. Four. Five. Six").
Proof.
  assert (HT : 0 < to_Q 30%float) by (vm_compute; reflexivity).
  destruct (@engagement_points_spacing 30%float
              "One. Two. Three. Four. Five. Six" HT)
    as [_ [_ [_ [H _]]]].
  apply H. vm_compute. discriminate.
Defined.

(** C6 as stated fails on short timelines: with five sentences and a
    timeline of 10 s the last point starts at 8.33 s and ends after 10 s. *)
Lemma engagement_point_overruns :
  0 < to_Q 10%float
  /\ ~ Forall (within_timeline 10%float)
              (generate_engagement_points 10%float "One. Two. Three. Four. Five.").
Proof.
  split; [vm_compute; reflexivity|].
  intro H. rewrite Forall_forall in H.
  specialize (H {| text := "Five";
                   start := PrimFloat.mul (PrimFloat.div 10%float 6%float) 5%float;
                   duration := 2%float |}).
  assert (Hin : In {| text := "Five";
                      start := PrimFloat.mul (PrimFloat.div 10%float 6%float) 5%float;
                      duration := 2%float |}
                   (generate_engagement_points 10%float "One. Two. Three. Four. Five.")).
  { vm_compute. do 4 right. left. reflexivity. }
  specialize (H Hin). unfold within_timeline in H. cbn [start duration] in H.
  vm_compute in H. apply H. reflexivity.
Qed.

End EngagementPoints.

(** ** The image provider chain *)

Section ProviderChain.

Import Image.

Lemma provider_calls_app (l1 l2 : list action) :
  provider_calls (l1 ++ l2) = provider_calls l1 ++ provider_calls l2.
Proof. unfold provider_calls. apply flat_map_app. Qed.

Lemma provider_calls_try (p : string) (l : list action) :
  provider_calls (Try p :: l) = p :: provider_calls l.
Proof. reflexivity. Qed.

Lemma attempt_raise (m : M path) (e : exn) :
  outcome m = Raise e -> attempt m = (log_of m, Ok None).
Proof.
  destruct m as [l [a|e']]; cbn; intro H; [discriminate|].
  now rewrite app_nil_r.
Qed.

(** The retry loop sends at most [remaining] requests, numbered from
    [attempt] on, pauses 20 s after each 503 answer, and calls no provider. *)
Lemma hf_loop_bounded (w : world) (out : path) (remaining : nat) :
  forall attempt response,
    let l := log_of (hf_loop w out attempt remaining response) in
    (List.length (posts l) <= remaining)%nat
    /\ Forall (fun s => s = 20%nat) (sleeps l)
    /\ (List.length (sleeps l) <= List.length (posts l))%nat
    /\ provider_calls l = [].
Proof.
  induction remaining as [|r IH]; intros attempt response; cbn zeta.
  - cbn. repeat split; auto.
  - cbn [hf_loop]. destruct (hf_post w out attempt) as [status content|].
    + destruct (Nat.eqb status 503).
      * specialize (IH (S attempt) (Some (status, content))). cbn zeta in IH.
        destruct (hf_loop w out (S attempt) r (Some (status, content))) as [l [a|e]];
          cbn in *; destruct IH as [H1 [H2 [H3 H4]]];
          repeat split; auto; try lia.
      * destruct (negb (Nat.eqb status 200)); cbn; repeat split; auto; lia.
    + cbn. repeat split; auto; lia.
Qed.

(** The requests and pauses of the retry loop: see [bounded_retries]. *)
Lemma hf_loop_pauses (w : world) (out : path) (remaining : nat) :
  forall attempt response,
    let l := log_of (hf_loop w out attempt remaining response) in
    posts l = seq attempt (List.length (posts l))
    /\ (List.length (posts l) <= remaining)%nat
    /\ (List.length (posts l) <= loading_answers w out l + 1)%nat
    /\ sleeps l = repeat 20%nat (loading_answers w out l).
Proof.
  unfold loading_answers.
  induction remaining as [|r IH]; intros attempt response; cbn zeta.
  - cbn. repeat split; auto.
  - cbn [hf_loop]. rewrite log_bind. cbn [tell log_of outcome fst snd app].
    destruct (hf_post w out attempt) as [status content|] eqn:Ha.
    + destruct (Nat.eqb status 503) eqn:E.
      * specialize (IH (S attempt) (Some (status, content))). cbn zeta in IH.
        rewrite log_bind. cbn [tell log_of outcome fst snd app].
        destruct IH as [H1 [H2 [H3 H4]]].
        unfold posts, sleeps in *. cbn [flat_map app filter List.length].
        rewrite Ha, E. cbn [List.length repeat seq].
        repeat split; try lia; congruence.
      * destruct (negb (Nat.eqb status 200)); cbn; rewrite Ha, E; cbn;
          repeat split; auto; lia.
    + cbn. rewrite Ha. cbn. repeat split; auto; lia.
Qed.

Lemma posts_app (l1 l2 : list action) : posts (l1 ++ l2) = posts l1 ++ posts l2.
Proof. unfold posts. apply flat_map_app. Qed.

Lemma sleeps_app (l1 l2 : list action) : sleeps (l1 ++ l2) = sleeps l1 ++ sleeps l2.
Proof. unfold sleeps. apply flat_map_app. Qed.

Lemma huggingface_pauses (w : world) (prompt : string) (out : path) :
  bounded_retries w out (log_of (generate_with_huggingface w prompt out)).
Proof.
  unfold generate_with_huggingface.
  destruct (has_key w "HUGGINGFACE_API_KEY");
    [|unfold bounded_retries, loading_answers; cbn; repeat split; auto; lia].
  pose proof (hf_loop_pauses w out max_retries 0 None) as H. cbn zeta in H.
  set (m := hf_loop w out 0 max_retries None) in *.
  unfold max_retries in H.
  assert (E : exists tail,
             log_of (tell (Try "huggingface") ;;;
                     try_except any_exception
                       (response <- m ;;
                        match response with
                        | Some (_, content) =>
                            tell (WriteBytes out content) ;;; ret out
                        | None => raise (NameError "response")
                        end)
                       (fun e => raise e))
             = Try "huggingface" :: log_of m ++ tail
             /\ posts tail = [] /\ sleeps tail = []).
  { clear H. destruct m as [l [[[status content]|]|e]]; cbn;
      rewrite <- ?app_assoc; cbn [app];
      eexists; (split; [reflexivity|]); split; reflexivity. }
  destruct E as [tail [-> [Hp Hs]]].
  unfold bounded_retries, loading_answers in *.
  change (Try "huggingface" :: log_of m ++ tail)
    with ([Try "huggingface"] ++ log_of m ++ tail).
  rewrite !posts_app, !sleeps_app, Hp, Hs, !app_nil_r. cbn [posts sleeps flat_map app].
  exact H.
Qed.

Lemma huggingface_bounded (w : world) (prompt : string) (out : path) :
  let l := log_of (generate_with_huggingface w prompt out) in
  (List.length (posts l) <= max_retries)%nat
  /\ Forall (fun s => s = 20%nat) (sleeps l)
  /\ provider_calls l = ["huggingface"].
Proof.
  cbn zeta. unfold generate_with_huggingface.
  destruct (has_key w "HUGGINGFACE_API_KEY");
    [|cbn; repeat split; auto; unfold max_retries; lia].
  destruct (hf_loop_bounded w out max_retries 0 None) as [H1 [H2 [_ H4]]].
  destruct (hf_loop w out 0 max_retries None) as [l [[[status content]|]|e]];
    cbn in *; unfold posts, sleeps, provider_calls in *;
    rewrite ?flat_map_app, ?app_nil_r; cbn; rewrite ?app_nil_r;
    repeat split; auto; now rewrite H4.
Qed.

Section AllFailing.

Variable w : world.
Variable prompt : string.
Hypothesis failing : all_failing w prompt.

Lemma pexels_attempt (out : path) :
  has_key w "PEXELS_API_KEY" = true ->
  attempt (generate_with_pexels w prompt out) = ([Try "pexels"], Ok None).
Proof.
  intro Hk. destruct failing as [Hp _].
  unfold generate_with_pexels. rewrite Hk, Hp. reflexivity.
Qed.

Lemma unsplash_attempt (out : path) :
  attempt (generate_with_unsplash w prompt out) = ([Try "unsplash"], Ok None).
Proof.
  destruct failing as [_ [Hu _]].
  unfold generate_with_unsplash. rewrite Hu. reflexivity.
Qed.

Lemma huggingface_attempt (out : path) :
  exists l, attempt (generate_with_huggingface w prompt out) = (l, Ok None)
            /\ provider_calls l = ["huggingface"].
Proof.
  destruct failing as [_ [_ [Hh _]]]. destruct (Hh out) as [e He].
  exists (log_of (generate_with_huggingface w prompt out)). split.
  - now apply attempt_raise with e.
  - apply huggingface_bounded.
Qed.

Lemma placeholder_raises (text : string) (out : path) :
  generate_placeholder w text out
  = ([Try "placeholder"], Raise (OtherError "placeholder")).
Proof.
  destruct failing as [_ [_ [_ Hs]]].
  unfold generate_placeholder. rewrite Hs. reflexivity.
Qed.

(** The body of the outer [try]: every configured provider once, in order,
    then the placeholder, whose exception escapes. *)
Lemma chain_all_failing (out : path) :
  exists l, chain w prompt out = (l, Raise (OtherError "placeholder"))
            /\ provider_calls l = enabled_chain w ++ ["placeholder"].
Proof.
  destruct (huggingface_attempt out) as [lh [Hh Hcalls]].
  unfold chain, enabled_chain.
  rewrite unsplash_attempt, placeholder_raises.
  destruct (has_key w "PEXELS_API_KEY") eqn:K1;
    [rewrite (pexels_attempt out K1)|];
    destruct (has_key w "HUGGINGFACE_API_KEY") eqn:K2; try rewrite Hh;
    destruct (has_key w "STABILITY_API_KEY") eqn:K3;
    destruct (has_key w "OPENAI_API_KEY") eqn:K4;
    cbn; eexists; (split; [reflexivity|]);
    rewrite ?provider_calls_try, ?provider_calls_app, ?Hcalls; reflexivity.
Qed.

(** One image: the placeholder is tried a second time by the handler, fails
    again, and the image is skipped. *)
Lemma one_image_all_failing (image_paths : list path) (i : nat) :
  exists l, one_image w prompt image_paths i = (l, Ok image_paths)
            /\ provider_calls l = enabled_chain w ++ ["placeholder"; "placeholder"].
Proof.
  destruct (chain_all_failing (image_file w i)) as [l [Hc Hl]].
  unfold one_image. rewrite Hc, placeholder_raises. cbn.
  eexists. split; [reflexivity|].
  rewrite ?app_nil_r, provider_calls_app, Hl, <- app_assoc. reflexivity.
Qed.

Lemma images_loop_all_failing (indices : list nat) (image_paths : list path) :
  exists l, images_loop w prompt indices image_paths = (l, Ok image_paths)
            /\ provider_calls l
               = List.concat (repeat (enabled_chain w ++ ["placeholder"; "placeholder"])
                                (List.length indices)).
Proof.
  induction indices as [|i rest IH].
  - exists []. split; reflexivity.
  - destruct (one_image_all_failing image_paths i) as [l1 [H1 C1]].
    destruct IH as [l2 [H2 C2]].
    exists (l1 ++ l2). split.
    + cbn [images_loop]. rewrite H1, bind_ok, H2. reflexivity.
    + rewrite provider_calls_app, C1, C2. reflexivity.
Qed.

End AllFailing.

(** C4, as the code has it. When every provider fails for the prompt, each
    image makes one call per provider of the chain, in the order of the
    source (the Stability and DALL-E branches name functions that do not
    exist and call nothing), then two calls to the placeholder;
    [generate_images] ends normally with an empty list.  In any world, the
    inference provider sends at most three requests, a further one only
    after a 503 answer, and pauses 20 s after each 503 answer and only then. *)
Theorem all_providers_failing (w : world) (prompt : string) (count : nat) :
  all_failing w prompt ->
  outcome (generate_images w prompt count) = Ok []
  /\ provider_calls (log_of (generate_images w prompt count))
     = List.concat (repeat (enabled_chain w ++ ["placeholder"; "placeholder"]) count)
  /\ forall out,
       bounded_retries w out (log_of (generate_with_huggingface w prompt out)).
Proof.
  intro H. unfold generate_images.
  destruct (images_loop_all_failing H (seq 0 count) []) as [l [Hl Hc]].
  rewrite Hl. cbn [outcome log_of fst snd]. rewrite length_seq in Hc.
  split; [reflexivity|]. split; [exact Hc|].
  intro out. apply huggingface_pauses.
Qed.

Lemma bleak_world_all_failing (prompt : string) : all_failing bleak_world prompt.
Proof.
  repeat split; try reflexivity.
  intro out. exists (ValueError "HUGGINGFACE_API_KEY not set"). reflexivity.
Qed.

Lemma all_providers_failing_witness :
  generate_images bleak_world "a mechanical keyboard" 1
  = ([Try "unsplash"; Try "placeholder"; Try "placeholder"], Ok []).
Proof.
  pose proof (all_providers_failing 1 (bleak_world_all_failing "a mechanical keyboard"))
    as [Hout _].
  rewrite (log_outcome (generate_images bleak_world "a mechanical keyboard" 1)), Hout.
  reflexivity.
Defined.

(** C4 as stated fails: with every provider failing nothing is raised, and
    the placeholder is called twice. *)
Lemma exhaustion_not_raised : ~ exhaustion_raised bleak_world "a mechanical keyboard".
Proof.
  intros [[e He] _]. vm_compute in He. discriminate.
Qed.

(** When the endpoint answers 503 to all three requests, the loop ends
    without a [break] and the last answer is written out as the image. *)
Lemma huggingface_still_loading (w : world) (prompt : string) (out content : path) :
  has_key w "HUGGINGFACE_API_KEY" = true ->
  (forall n, hf_post w out n = Response 503 content) ->
  generate_with_huggingface w prompt out
  = ([Try "huggingface"; Post out 0; Sleep 20; Post out 1; Sleep 20;
      Post out 2; Sleep 20; WriteBytes out content], Ok out).
Proof.
  intros Hk Hr. unfold generate_with_huggingface. rewrite Hk.
  unfold max_retries. cbn [hf_loop]. rewrite !Hr. reflexivity.
Qed.

End ProviderChain.

(* ================================================================== *)
(** * Further properties of the code *)
(* ================================================================== *)

(** ** Compilation of the final video *)

Section FinalVideo.

Import Final.

(** [generate_final_video] as a sequence of its three stages. *)
Lemma generate_final_video_stages (w : world) (intro_video : option path)
    (segments : list path) (audio_path outro_video output_filename : option path) :
  generate_final_video w intro_video segments audio_path outro_video output_filename
  = (concatenate_videos w
       (existing w intro_video ++ segments ++ existing w outro_video)
       (concat_target w) true ;;;
     merged <-
       match existing w audio_path with
       | [a] =>
           final_path <- add_audio_to_video w (concat_target w) a
                           (final_target w output_filename) Replace ;;
           ret (final_path, false)
       | _ => io w (Rename (concat_target w) (final_target w output_filename)) ;;;
              ret (final_target w output_filename, true)
       end ;;
     (if (if snd merged
          then String.eqb (concat_target w) (final_target w output_filename)
          else file_exists w (concat_target w))
         && negb (String.eqb (concat_target w) (fst merged))
      then io w (Unlink (concat_target w)) else ret tt) ;;;
     ret (fst merged)).
Proof. unfold generate_final_video. now rewrite reraise. Qed.

(** When the concatenation returns, it returns the requested path; an
    empty list raises [ValueError] before anything is done; at most two
    commands are run, and none with a cross-fade when transitions are off. *)
Theorem concatenate_outcomes (w : world) (paths : list path) (out : path) (wt : bool) :
  let r := concatenate_videos w paths out wt in
  (forall p, outcome r = Ok p -> p = out)
  /\ (paths = [] -> r = ([], Raise (ValueError "No videos to concatenate")))
  /\ (List.length (commands (log_of r)) <= 2)%nat
  /\ Forall (fun c => xfade_durations c = [])
            (commands (log_of (concatenate_videos w paths out false))).
Proof.
  cbn zeta.
  destruct paths as [|p1 [|p2 rest]].
  - cbn. repeat split; auto. intros p H. discriminate.
  - unfold concatenate_videos. rewrite copy_cases.
    destruct (negb (file_exists w p1)); [cbn; repeat split; auto; discriminate|].
    destruct (String.eqb p1 out); [cbn; repeat split; auto; discriminate|].
    destruct (fs_error w (Copy p1 out)); cbn; repeat split; auto; try discriminate.
    intros p H. now injection H.
  - assert (H2 : (2 <= List.length (p1 :: p2 :: rest))%nat) by (cbn; lia).
    assert (Hoff : Forall (fun c => xfade_durations c = [])
                     (commands (log_of (concatenate_videos w (p1 :: p2 :: rest) out false)))).
    { rewrite (concatenate_cases w (p1 :: p2 :: rest) out false H2). cbn zeta. cbn [andb].
      destruct (fs_error w (WriteConcatList _ _)); [constructor|].
      destruct (ffmpeg w (concat_cmd _ out));
        [destruct (file_exists w (concat_list w out))|];
        cbn; repeat constructor. }
    split; [|split; [discriminate | split; [|exact Hoff]]].
    + rewrite (concatenate_cases w (p1 :: p2 :: rest) out wt H2). cbn zeta.
      destruct (fs_error w (WriteConcatList _ _)); [discriminate|].
      destruct (wt && Nat.leb (List.length (p1 :: p2 :: rest)) 10).
      * rewrite (smooth_cases w (p1 :: p2 :: rest) out H2), simple_cases. cbn zeta.
        destruct (ffmpeg w (xfade_cmd _ out)); cbn.
        -- intros p H. now injection H.
        -- destruct (fs_error w (WriteConcatList _ _)); [discriminate|].
           destruct (ffmpeg w (concat_simple_cmd _ out)); [|discriminate].
           cbn. destruct (fs_error w (Unlink _)); [discriminate|].
           intros p H. now injection H.
      * destruct (ffmpeg w (concat_cmd _ out)); [|discriminate].
        destruct (file_exists w (concat_list w out)); cbn.
        -- destruct (fs_error w (Unlink _)); [discriminate|].
           intros p H. now injection H.
        -- intros p H. now injection H.
    + rewrite (concatenate_cases w (p1 :: p2 :: rest) out wt H2). cbn zeta.
      destruct (fs_error w (WriteConcatList _ _)); [cbn; lia|].
      destruct (wt && Nat.leb (List.length (p1 :: p2 :: rest)) 10).
      * rewrite (smooth_cases w (p1 :: p2 :: rest) out H2), simple_cases. cbn zeta.
        destruct (ffmpeg w (xfade_cmd _ out)); [cbn; lia|].
        destruct (fs_error w (WriteConcatList _ _)); [cbn; lia|].
        destruct (ffmpeg w (concat_simple_cmd _ out)); cbn; lia.
      * destruct (ffmpeg w (concat_cmd _ out));
          [destruct (file_exists w (concat_list w out))|]; cbn; lia.
Qed.

(** Without a usable narration file, the final video is the concatenation
    itself: after the actions of the concatenation the only action is the
    renaming of the concatenated file to the output path, nothing is merged
    and nothing is removed; the output path is returned when the
    concatenation and the renaming both succeed, and the exception of the
    one that fails is raised otherwise. *)
Theorem final_video_without_narration (w : world) (intro_video : option path)
    (segments : list path) (audio_path outro_video output_filename : option path) :
  existing w audio_path = [] ->
  let c := concatenate_videos w
             (existing w intro_video ++ segments ++ existing w outro_video)
             (concat_target w) true in
  let r := generate_final_video w intro_video segments audio_path outro_video
             output_filename in
  let renaming := Rename (concat_target w) (final_target w output_filename) in
  log_of r = log_of c ++ match outcome c with
                         | Ok _ => [renaming]
                         | Raise _ => []
                         end
  /\ commands (log_of r) = commands (log_of c)
  /\ outcome r = match outcome c with
                 | Ok _ => match fs_error w renaming with
                           | None => Ok (final_target w output_filename)
                           | Some e => Raise e
                           end
                 | Raise e => Raise e
                 end.
Proof.
  intros Ha c r renaming. subst r. rewrite generate_final_video_stages. rewrite Ha.
  fold c. unfold renaming. clear renaming.
  generalize (final_target w output_filename) as fo. intro fo.
  generalize dependent c. generalize (concat_target w) as cv. intros cv c.
  destruct c as [l [p|e]].
  - rewrite bind_ok, io_cases. cbn [log_of outcome fst snd].
    destruct (fs_error w (Rename cv fo)); cbn.
    + rewrite commands_app. cbn. rewrite !app_nil_r. now repeat split.
    + destruct (String.eqb cv fo); cbn;
        rewrite ?commands_app; cbn; rewrite ?app_nil_r; now repeat split.
  - cbn. rewrite app_nil_r. now repeat split.
Qed.

Lemma final_video_without_narration_witness :
  generate_final_video calm_world None ["a.mp4"; "b.mp4"] None None (Some "out.mp4")
  = ([WriteConcatList "videos/concat_list.txt" ["a.mp4"; "b.mp4"];
      Run (xfade_cmd ["a.mp4"; "b.mp4"] "videos/temp_concat_20240101_120000.mp4");
      Rename "videos/temp_concat_20240101_120000.mp4" "videos/out.mp4"],
     Ok "videos/out.mp4").
Proof.
  destruct (final_video_without_narration calm_world None ["a.mp4"; "b.mp4"]
              None None (Some "out.mp4")) as [Hl [_ Ho]].
  - reflexivity.
  - rewrite (log_outcome (generate_final_video calm_world None ["a.mp4"; "b.mp4"]
                            None None (Some "out.mp4"))), Hl, Ho.
    reflexivity.
Defined.



End FinalVideo.

(** ** More on the segment loop *)

Section SegmentLoopMore.

Import Single.

Variable w : world.
Variables images stock_videos : list path.
Variable dpc : Q.

Local Abbreviation step' := (step w images stock_videos dpc).
Local Abbreviation steps' := (steps w images stock_videos dpc).
Local Abbreviation sources_in_pool := (Vocabulary.sources_in_pool images stock_videos).

Lemma step_sources_in_pool (st st' : loop_state) (slot : nat * nat) :
  step' st slot st' -> sources_in_pool st -> sources_in_pool st'.
Proof.
  intros Hs Hin. destruct slot as [pos k].
  inversion Hs as [Hno | Has Hf | Has Hf]; subst; auto.
  unfold sources_in_pool. cbn [snd advance segments].
  apply Forall_app. split; [exact Hin|]. constructor; [|constructor].
  cbn [new_segment seg_source seg_kind].
  unfold has_asset in Has. apply andb_true_iff in Has. destruct Has as [_ Hlt].
  now apply Nat.ltb_lt in Hlt.
Qed.

Lemma steps_sources_in_pool (slots : list (nat * nat)) :
  forall st st', steps' st slots st' -> sources_in_pool st -> sources_in_pool st'.
Proof.
  induction slots as [|slot rest IH]; intros st st' H Hc.
  - inversion H; now subst.
  - inversion H as [|? ? st1 ? ? Hs Hr]; subst.
    eapply IH; [eassumption|]. eapply step_sources_in_pool; eassumption.
Qed.

Lemma sorted_snoc (l : list nat) (a : nat) :
  StronglySorted lt l -> Forall (fun p => (p < a)%nat) l ->
  StronglySorted lt (l ++ [a]).
Proof.
  induction l as [|x l IH]; intros Hs Hf; cbn.
  - repeat constructor.
  - apply StronglySorted_inv in Hs. destruct Hs as [Hs Hx].
    inversion Hf as [|? ? Hxa Hla]; subst.
    constructor; [now apply IH|].
    apply Forall_app. split; [exact Hx | now repeat constructor].
Qed.

(** Over slots numbered [a, a+1, ...], the positions of the segments stay
    strictly increasing. *)
Lemma steps_positions_sorted (kinds : list nat) :
  forall a st st',
    steps' st (combine (seq a (List.length kinds)) kinds) st' ->
    StronglySorted lt (map seg_position (segments st)) ->
    Forall (fun p => (p < a)%nat) (map seg_position (segments st)) ->
    StronglySorted lt (map seg_position (segments st')).
Proof.
  induction kinds as [|k kinds IH]; intros a st st' H Hs Hf.
  - inversion H; now subst.
  - cbn [List.length seq combine] in H.
    inversion H as [|? ? st1 ? ? Hstep Hr]; subst.
    apply (IH (S a) st1 st' Hr).
    + inversion Hstep as [Hno | Has Hok | Has Hfail]; subst; auto.
      cbn [snd advance segments]. rewrite map_app. cbn [map new_segment seg_position].
      now apply sorted_snoc.
    + inversion Hstep as [Hno | Has Hok | Has Hfail]; subst;
        cbn [snd advance segments]; rewrite ?map_app; cbn [map new_segment seg_position];
        rewrite ?Forall_app; repeat split;
        try (eapply Forall_impl; [|exact Hf]; cbn; intros; lia).
      repeat constructor.
Qed.

(** When every render succeeds, each pool is used up to the number of slots
    of its kind, and one segment is appended per asset consumed. *)
Lemma steps_all_rendered (slots : list (nat * nat)) :
  (forall c, ffmpeg w c = true) ->
  forall st st', steps' st slots st' ->
  (video_idx st <= List.length stock_videos)%nat ->
  (image_idx st <= List.length images)%nat ->
  video_idx st' = Nat.min (video_idx st + slots_of_kind 0 slots)
                          (List.length stock_videos)
  /\ image_idx st' = Nat.min (image_idx st + slots_of_kind 1 slots)
                             (List.length images)
  /\ (List.length (segments st') + video_idx st + image_idx st
      = List.length (segments st) + video_idx st' + image_idx st')%nat.
Proof.
  intro Hall. induction slots as [|[pos k] rest IH]; intros st st' H Hv Hi.
  - inversion H; subst. unfold slots_of_kind. cbn. lia.
  - inversion H as [|? ? st1 ? ? Hstep Hr]; subst.
    assert (Hcnt0 : slots_of_kind 0 ((pos, k) :: rest)
                    = ((if Nat.eqb k 0 then 1 else 0) + slots_of_kind 0 rest)%nat).
    { unfold slots_of_kind. cbn. now destruct (Nat.eqb k 0). }
    assert (Hcnt1 : slots_of_kind 1 ((pos, k) :: rest)
                    = ((if Nat.eqb k 1 then 1 else 0) + slots_of_kind 1 rest)%nat).
    { unfold slots_of_kind. cbn [filter snd]. now destruct (Nat.eqb k 1). }
    rewrite Hcnt0, Hcnt1.
    inversion Hstep as [Hno | Has Hok | Has Hfail]; subst.
    + destruct (IH st1 st' Hr Hv Hi) as [E1 [E2 E3]].
      unfold has_asset, idx, pool in Hno.
      destruct k as [|[|k]]; cbn [Nat.eqb orb andb] in Hno |- *.
      * apply Nat.ltb_ge in Hno. lia.
      * apply Nat.ltb_ge in Hno. lia.
      * lia.
    + unfold has_asset, idx, pool in Has.
      destruct k as [|[|k]]; cbn [Nat.eqb orb andb] in Has; try discriminate;
        apply Nat.ltb_lt in Has;
        match type of Hr with steps _ _ _ _ ?s _ _ =>
          assert (Hv' : (video_idx s <= List.length stock_videos)%nat) by (cbn; lia);
          assert (Hi' : (image_idx s <= List.length images)%nat) by (cbn; lia);
          destruct (IH s st' Hr Hv' Hi') as [E1 [E2 E3]]
        end;
        cbn [video_idx image_idx segments advance snd Nat.eqb] in E1, E2, E3 |- *;
        rewrite length_app in E3; cbn [List.length] in E3; lia.
    + rewrite Hall in Hfail. discriminate.
Qed.

(** The log of one iteration: the command of the slot, if it has an asset. *)
Lemma body_log (st : loop_state) (slot : nat * nat) :
  log_of (body w images stock_videos dpc st slot)
  = if has_asset images stock_videos st slot
    then [Run (render_cmd w images stock_videos dpc st slot)] else [].
Proof.
  destruct slot as [pos k]. unfold body, has_asset, render_cmd, idx, pool.
  destruct k as [|[|k]]; cbn [Nat.eqb orb andb].
  - destruct (Nat.ltb (video_idx st) (List.length stock_videos)); [|reflexivity].
    unfold run. now destruct (ffmpeg w _).
  - destruct (Nat.ltb (image_idx st) (List.length images)); [|reflexivity].
    unfold create_video_from_image, run. now destruct (ffmpeg w _).
  - reflexivity.
Qed.

(** The clip length asked for by the command of a slot. *)
Lemma render_cmd_limit (st : loop_state) (pos k : nat) :
  let d := segment_duration w dpc pos in
  let t := if Nat.eqb k 0 then d else py_min d (5 # 2) in
  limit_t (render_cmd w images stock_videos dpc st (pos, k)) = Some t
  /\ 2 <= t /\ t <= 3.
Proof.
  cbn zeta. unfold render_cmd.
  assert (Hd : 2 <= segment_duration w dpc pos /\ segment_duration w dpc pos <= 3).
  { unfold segment_duration. apply clamp_range. lra. }
  destruct (Nat.eqb k 0).
  - split; [reflexivity | exact Hd].
  - split; [reflexivity|].
    pose proof (py_min_upper (segment_duration w dpc pos) (5 # 2)) as Hu.
    unfold py_min in *.
    destruct (Qlt_bool (5 # 2) (segment_duration w dpc pos)); lra.
Qed.

(** Every segment the loop appends is the output of a command of its log. *)
Lemma loop_rendered (slots : list (nat * nat)) :
  forall st l st',
    loop w images stock_videos dpc slots st = (l, Ok st') ->
    forall s, In s (segments st') -> In s (segments st) \/ rendered w l s.
Proof.
  induction slots as [|slot rest IH]; intros st l st' H s Hin.
  - cbn in H. injection H as <- <-. now left.
  - cbn [loop] in H.
    destruct (body_step w images stock_videos dpc st slot) as [l1 [st1 [Hb Hs]]].
    assert (Hlog : has_asset images stock_videos st slot = true ->
                   In (Run (render_cmd w images stock_videos dpc st slot)) l1).
    { intro Has. pose proof (body_log st slot) as E. rewrite Hb, Has in E.
      cbn [log_of fst] in E. rewrite E. now left. }
    rewrite Hb, bind_ok in H.
    destruct (loop w images stock_videos dpc rest st1) as [l2 r2] eqn:Hl.
    cbn [fst snd] in H. injection H as <- Hr. subst r2.
    destruct (IH st1 l2 st' Hl s Hin) as [Hold | Hnew].
    + destruct slot as [pos k].
      inversion Hs as [Hno | Has Hok | Has Hfail]; subst; [now left | | now left].
      cbn [snd advance segments] in Hold. apply in_app_or in Hold.
      destruct Hold as [Hold | [<- | []]]; [now left|]. right.
      specialize (Hlog Has).
      destruct (render_cmd_limit st pos k) as [Ht [H2 H3]]. cbn zeta in Ht, H2, H3.
      eexists. eexists. split; [apply in_or_app; left; exact Hlog|].
      split; [exact Hok|]. split.
      * unfold render_cmd, new_segment. cbn [seg_path]. now destruct (Nat.eqb k 0).
      * split; [exact Ht|]. split; [exact H2|]. split; [exact H3|].
        cbn [new_segment seg_kind seg_duration].
        split; intro E; subst k; reflexivity.
    + right. destruct Hnew as [c [t [Hc Hrest]]].
      exists c, t. split; [apply in_or_app; now right | exact Hrest].
Qed.

End SegmentLoopMore.

(** ** More on [generate_single_video] and its helpers *)

Section PlannerMore.

Import Single.

Lemma in_enumerate_pattern (p k : nat) :
  In (p, k) (enumerate pattern) -> nth_error pattern p = Some k.
Proof.
  intro H. cbn in H.
  repeat (destruct H as [H | H]; [injection H as <- <-; reflexivity|]).
  contradiction.
Qed.

(** Whatever the narration, the requested duration and the jitter, every
    produced segment comes from an index inside its pool, has the kind of
    the pattern at its position, and is the output of a command that was
    run, succeeded and asked for a clip whose length lies in [[2.0, 3.0]]. *)
Theorem produced_segments_ok (w : world) (images stock_videos : list path)
    (audio_path : option path) (dpc : Q) :
  let r := generate_single_video w images stock_videos audio_path dpc in
  Forall (fun s => segment_ok images stock_videos s /\ rendered w (log_of r) s)
         (produced w images stock_videos audio_path dpc).
Proof.
  cbn zeta. apply Forall_forall. intros s Hin. unfold produced in Hin.
  destruct (run_slots_steps w images stock_videos audio_path dpc 25) as [[l Hl] Hs].
  split.
  - destruct (steps_extends Hs) as [_ [_ [_ Hnew]]].
    destruct (Hnew s Hin) as [[] | [_ [Hslot Hd]]].
    change (firstn 25 (enumerate pattern)) with (enumerate pattern) in Hslot.
    repeat split.
    + rewrite Hd. unfold segment_duration. apply py_max_lower.
    + rewrite Hd. unfold segment_duration.
      apply py_max_upper; [lra | apply py_min_upper].
    + assert (Hp : sources_in_pool images stock_videos
                     (state_after w images stock_videos audio_path dpc 25)).
      { eapply steps_sources_in_pool; [exact Hs | constructor]. }
      unfold sources_in_pool in Hp. rewrite Forall_forall in Hp. now apply Hp.
    + now apply in_enumerate_pattern.
  - assert (E : log_of (generate_single_video w images stock_videos audio_path dpc) = l).
    { unfold generate_single_video, plan.
      change (List.length pattern) with 25%nat. rewrite Hl. cbn.
      now rewrite !app_nil_r. }
    rewrite E. unfold run_slots in Hl.
    destruct (@loop_rendered _ _ _ _ _ _ _ _ Hl s Hin) as [[] | H]. exact H.
Qed.

(** The segments come out in pattern order: their positions increase strictly. *)
Theorem produced_in_pattern_order (w : world) (images stock_videos : list path)
    (audio_path : option path) (dpc : Q) :
  StronglySorted lt
    (map seg_position (produced w images stock_videos audio_path dpc)).
Proof.
  destruct (run_slots_steps w images stock_videos audio_path dpc 25) as [_ Hs].
  change (firstn 25 (enumerate pattern))
    with (combine (seq 0 (List.length pattern)) pattern) in Hs.
  eapply steps_positions_sorted; [exact Hs | constructor | constructor].
Qed.

(** When every render succeeds, the number of segments is the number of
    stock clips, capped at the 20 video slots, plus the number of images,
    capped at the 5 image slots. *)
Theorem all_rendered_count (w : world) (images stock_videos : list path)
    (audio_path : option path) (dpc : Q) :
  (forall c, ffmpeg w c = true) ->
  List.length (produced w images stock_videos audio_path dpc)
  = (Nat.min 20 (List.length stock_videos) + Nat.min 5 (List.length images))%nat.
Proof.
  intro Hall. unfold produced.
  destruct (run_slots_steps w images stock_videos audio_path dpc 25) as [_ Hs].
  destruct (steps_all_rendered Hall Hs) as [E1 [E2 E3]]; cbn [init video_idx image_idx];
    try lia.
  change (firstn 25 (enumerate pattern)) with (enumerate pattern) in E1, E2.
  change (slots_of_kind 0 (enumerate pattern)) with 20%nat in E1.
  change (slots_of_kind 1 (enumerate pattern)) with 5%nat in E2.
  cbn [init video_idx image_idx segments List.length] in E1, E2, E3. lia.
Qed.

Lemma all_rendered_count_witness :
  List.length (produced calm_world ["img/a.png"] ["stock/a.mp4"; "stock/b.mp4"]
                        None (5 # 2)) = 3%nat.
Proof.
  rewrite (all_rendered_count calm_world ["img/a.png"] ["stock/a.mp4"; "stock/b.mp4"]
             None (5 # 2)).
  - reflexivity.
  - intro c. reflexivity.
Defined.

Lemma py_int_upper (q : Q) (n : Z) : q <= inject_Z n -> (py_int q <= n)%Z.
Proof.
  intro H. unfold py_int. apply Z.quot_le_upper_bound; [reflexivity|].
  unfold Qle in H. cbn in H. lia.
Qed.

(** [create_video_from_image] runs one command; the clip it asks for lasts
    the requested duration capped at 2.5 s, with at most 75 zoom frames; the
    failure of the command is re-raised. *)
Theorem image_clip_capped (w : world) (image_path output_path : path) (duration : Q) :
  let r := create_video_from_image w image_path output_path duration in
  let c := image_cmd image_path duration output_path in
  log_of r = [Run c]
  /\ outcome r = (if ffmpeg w c then Ok output_path else Raise (run_error w c))
  /\ (exists t frames,
        limit_t c = Some t /\ t <= 5 # 2 /\ t <= duration
        /\ (t == duration \/ t == 5 # 2)
        /\ In (VZoompan frames) (filter_v c) /\ (frames <= 75)%Z).
Proof.
  cbn zeta. unfold create_video_from_image, run.
  split; [destruct (ffmpeg w _); reflexivity|].
  split; [destruct (ffmpeg w _); reflexivity|].
  exists (py_min duration (5 # 2)), (py_int (py_min duration (5 # 2) * 30)).
  split; [reflexivity|].
  pose proof (py_min_upper duration (5 # 2)) as H1.
  pose proof (py_min_upper_r duration (5 # 2)) as H2.
  split; [exact H2|]. split; [exact H1|]. split.
  - unfold py_min. destruct (Qlt_bool (5 # 2) duration); [right | left]; reflexivity.
  - split; [cbn; auto|]. apply py_int_upper.
    change (inject_Z 75) with 75. lra.
Qed.

(** [trim_video_segment] tries a stream copy, then a re-encode: it returns
    the output path exactly when one of the two succeeds, the re-encode
    being run only after a failed copy. *)
Theorem trim_fallback (w : world) (input_path output_path : path) (duration : Q) :
  let r := trim_video_segment w input_path output_path duration in
  let c1 := copy_trim_cmd input_path duration output_path in
  let c2 := reencode_trim_cmd input_path duration output_path in
  commands (log_of r) = (if ffmpeg w c1 then [c1] else [c1; c2])
  /\ outcome r = (if ffmpeg w c1 || ffmpeg w c2 then Ok output_path
                  else Raise (run_error w c2)).
Proof.
  cbn zeta. unfold trim_video_segment, run.
  destruct (ffmpeg w (copy_trim_cmd _ _ _)); [now split|].
  cbn. destruct (ffmpeg w (reencode_trim_cmd _ _ _)); now split.
Qed.

End PlannerMore.

(** ** More on the engagement overlays *)

Section OverlaysMore.

Import Engagement.

Lemma remove_char_chars (c : ascii) (s : string) :
  chars (remove_char c s) = filter (fun x => negb (Ascii.eqb x c)) (chars s).
Proof.
  unfold chars. induction s as [|x r IH]; cbn; [reflexivity|].
  destruct (Ascii.eqb x c); cbn; [exact IH | now f_equal].
Qed.

Lemma filter_filter {A} (f g : A -> bool) (l : list A) :
  filter f (filter g l) = filter (fun x => g x && f x) l.
Proof.
  induction l as [|x l IH]; cbn; [reflexivity|].
  destruct (g x); cbn; [destruct (f x); now rewrite IH | exact IH].
Qed.

(** Cleaning a text removes exactly the quotes, exclamation marks and
    colons, and keeps every other character in place. *)
Lemma clean_chars (s : string) :
  chars (clean s) = filter (fun x => negb (stripped_char x)) (chars s).
Proof.
  unfold clean. rewrite !remove_char_chars, !filter_filter.
  apply filter_ext. intro x. unfold stripped_char.
  destruct (Ascii.eqb x "'"), (Ascii.eqb x "!"), (Ascii.eqb x ":"); reflexivity.
Qed.

(** Every text burned into a video, overlay point or call to action, is
    the given text without its quotes, exclamation marks and colons: none
    of these characters reaches the drawtext filter. *)
Theorem burned_text_sanitised (w : world) (video_path : path)
    (text_points : list point) (cta_text : string) (out : path) :
  map (fun d => chars (dt_text d)) (drawtexts (overlay_cmd video_path text_points out))
  = map (fun p => filter (fun x => negb (stripped_char x)) (chars (text p))) text_points
  /\ map (fun d => chars (dt_text d)) (drawtexts (cta_cmd w video_path cta_text out))
     = [filter (fun x => negb (stripped_char x)) (chars cta_text)]
  /\ Forall (fun d => Forall (fun x => stripped_char x = false) (chars (dt_text d)))
            (drawtexts (overlay_cmd video_path text_points out)
             ++ drawtexts (cta_cmd w video_path cta_text out)).
Proof.
  assert (Hov : map (fun d => chars (dt_text d))
                    (drawtexts (overlay_cmd video_path text_points out))
                = map (fun p => filter (fun x => negb (stripped_char x)) (chars (text p)))
                      text_points).
  { unfold drawtexts, overlay_cmd. cbn [filter_v].
    induction text_points as [|p rest IH]; cbn; [reflexivity|].
    now rewrite IH, clean_chars. }
  assert (Hsafe : forall s, Forall (fun x => stripped_char x = false) (chars (clean s))).
  { intro s. rewrite clean_chars. apply Forall_forall. intros x Hx.
    apply filter_In in Hx. destruct Hx as [_ Hx]. now apply negb_true_iff in Hx. }
  split; [exact Hov|]. split.
  - unfold drawtexts, cta_cmd. cbn. now rewrite clean_chars.
  - apply Forall_app. split.
    + clear Hov. unfold drawtexts, overlay_cmd. cbn [filter_v].
      induction text_points as [|p rest IH]; cbn; constructor; auto.
      apply Hsafe.
    + unfold drawtexts, cta_cmd. cbn. constructor; [apply Hsafe | constructor].
Qed.

Lemma points_nth (T : float) (content : string) (i : nat) (p : point) :
  nth_error (generate_engagement_points T content) i = Some p ->
  start p = PrimFloat.mul
              (PrimFloat.div T (float_of_nat (List.length (key_phrases content) + 1)))
              (float_of_nat (i + 1))
  /\ duration p = 2%float
  /\ nth_error (key_phrases content) i = Some (text p).
Proof.
  intro H. unfold generate_engagement_points in H. now apply points_from_nth in H.
Qed.

Lemma points_texts (T : float) (content : string) :
  map text (generate_engagement_points T content) = key_phrases content.
Proof.
  unfold generate_engagement_points.
  generalize (PrimFloat.div T (float_of_nat (List.length (key_phrases content) + 1))).
  intro u. generalize 0%nat.
  induction (key_phrases content) as [|ph rest IH]; intro i; cbn;
    [reflexivity | now rewrite IH].
Qed.

(** *** The windows of the overlays *)

(** The end [start + 2.0] of a window, a sum of doubles: the exact sum up to
    one rounding. *)
Lemma window_end_bounds (s : float) :
  Double.nonneg_SF (Prim2SF s) = true ->
  to_Q s + 2 <= Double.max_float ->
  (to_Q s + 2) - (1 # 9007199254740992) * (to_Q s + 2)
  <= to_Q (PrimFloat.add s 2%float)
  /\ to_Q (PrimFloat.add s 2%float)
     <= (to_Q s + 2) + (1 # 9007199254740992) * (to_Q s + 2).
Proof.
  intros Hs Hmax.
  assert (E2 : to_Q 2%float == 2) by (vm_compute; reflexivity).
  assert (H2 : 0 < to_Q 2%float) by (vm_compute; reflexivity).
  assert (Hm : to_Q s + to_Q 2%float <= Double.max_float) by (rewrite E2; exact Hmax).
  destruct (@add_error s 2%float Hs H2 Hm) as [_ [Hrel _]].
  fold (to_Q (PrimFloat.add s 2%float)) in Hrel.
  pose proof (@nonneg_SF_value _ Hs) as Hpos. fold (to_Q s) in Hpos.
  assert (Hn : Double.pow2 (-1022) <= to_Q s + to_Q 2%float).
  { apply Qle_trans with (Double.pow2 0); [apply pow2_le; lia|].
    rewrite E2. change (Double.pow2 0) with 1. lra. }
  specialize (Hrel Hn). rewrite eps_value, E2 in Hrel. exact Hrel.
Qed.

(** On a timeline a little longer than [2 * c], with [c - 1] points, the
    window of an earlier point ends before a later point starts. *)
Lemma windows_apart (T : float) (c i j : nat) :
  (1 <= i < j)%nat -> (j < c)%nat -> (c <= 6)%nat ->
  2 * inject_Z (Z.of_nat c) + Double.pow2 (-40) <= to_Q T ->
  to_Q (PrimFloat.add
          (PrimFloat.mul (PrimFloat.div T (float_of_nat c)) (float_of_nat i))
          2%float)
  < to_Q (PrimFloat.mul (PrimFloat.div T (float_of_nat c)) (float_of_nat j)).
Proof.
  intros Hi Hj Hc HT.
  assert (Hpos : 0 < to_Q T).
  { pose proof (pow2_pos (-40)).
    assert (0 <= inject_Z (Z.of_nat c))
      by (change 0 with (inject_Z 0); rewrite <- Zle_Qle; lia).
    lra. }
  pose proof (@rank_within T c i ltac:(lia) Hc HT) as Hin.
  assert (E2 : to_Q 2%float == 2) by (vm_compute; reflexivity).
  rewrite E2 in Hin.
  destruct (@start_bounds T c i Hpos ltac:(lia) Hc) as [Ni [_ [_ Ui]]].
  destruct (@start_bounds T c j Hpos ltac:(lia) Hc) as [_ [_ [Lj _]]].
  pose proof (to_Q_le_max T) as HTmax.
  destruct (@window_end_bounds _ Ni ltac:(lra)) as [_ We].
  set (si := to_Q (PrimFloat.mul (PrimFloat.div T (float_of_nat c))
                                 (float_of_nat i))) in *.
  set (sj := to_Q (PrimFloat.mul (PrimFloat.div T (float_of_nat c))
                                 (float_of_nat j))) in *.
  set (e := to_Q (PrimFloat.add _ 2%float)) in *.
  assert (Hq : Double.pow2 (-1069) <= 1 # 1152921504606846976).
  { apply Qle_trans with (Double.pow2 (-60)); [apply pow2_le; lia|].
    apply Qle_refl. }
  assert (Hp5 : Double.pow2 (-49) == 1 # 562949953421312) by reflexivity.
  assert (Hp6 : Double.pow2 (-40) == 1 # 1099511627776) by reflexivity.
  rewrite Hp5 in Ui, Lj. rewrite Hp6 in HT.
  destruct c as [|[|[|[|[|[|[|c]]]]]]]; try lia;
    destruct i as [|[|[|[|[|i]]]]]; try lia;
    destruct j as [|[|[|[|[|[|j]]]]]]; try lia;
    cbv [inject_Z Z.of_nat Pos.of_succ_nat Pos.succ] in *; lra.
Qed.

(** On a timeline a little shorter than [2 * c], with [c - 1 >= 2] points,
    the second point starts before the window of the first one ends. *)
Lemma windows_meet (T : float) (c : nat) :
  0 < to_Q T -> (3 <= c <= 6)%nat ->
  to_Q T <= 2 * inject_Z (Z.of_nat c) - Double.pow2 (-40) ->
  to_Q (PrimFloat.mul (PrimFloat.div T (float_of_nat c)) (float_of_nat 2))
  <= to_Q (PrimFloat.add
             (PrimFloat.mul (PrimFloat.div T (float_of_nat c)) (float_of_nat 1))
             2%float).
Proof.
  intros Hpos Hc HT.
  destruct (@start_bounds T c 1 Hpos ltac:(lia) ltac:(lia)) as [N1 [P1 [L1 U1]]].
  destruct (@start_bounds T c 2 Hpos ltac:(lia) ltac:(lia)) as [_ [_ [_ U2]]].
  pose proof max_float_large as HM.
  assert (Hq : Double.pow2 (-1069) <= 1 # 1152921504606846976).
  { apply Qle_trans with (Double.pow2 (-60)); [apply pow2_le; lia|].
    apply Qle_refl. }
  pose proof (pow2_pos (-1069)) as Hq0.
  assert (Hp5 : Double.pow2 (-49) == 1 # 562949953421312) by reflexivity.
  assert (Hp6 : Double.pow2 (-40) == 1 # 1099511627776) by reflexivity.
  rewrite Hp5 in L1, U1, U2. rewrite Hp6 in HT.
  assert (Hsum : to_Q (PrimFloat.mul (PrimFloat.div T (float_of_nat c))
                                     (float_of_nat 1)) + 2
                 <= Double.max_float).
  { clear U2 L1.
    destruct c as [|[|[|[|[|[|[|c]]]]]]]; try lia;
      cbv [inject_Z Z.of_nat Pos.of_succ_nat Pos.succ] in *; lra. }
  destruct (@window_end_bounds _ N1 Hsum) as [We _].
  set (s1 := to_Q (PrimFloat.mul (PrimFloat.div T (float_of_nat c))
                                 (float_of_nat 1))) in *.
  set (s2 := to_Q (PrimFloat.mul (PrimFloat.div T (float_of_nat c))
                                 (float_of_nat 2))) in *.
  set (e := to_Q (PrimFloat.add _ 2%float)) in *.
  destruct c as [|[|[|[|[|[|[|c]]]]]]]; try lia;
    cbv [inject_Z Z.of_nat Pos.of_succ_nat Pos.succ] in *; lra.
Qed.

(** The threshold is not sharp for the windows either: just above 12 s,
    with five points, the third window ends exactly where the fourth point
    starts. *)
Lemma windows_touch :
  12 < to_Q 12.000000000000002%float
  /\ exists p q,
       nth_error (generate_engagement_points 12.000000000000002%float
                    "One. Two. Three. Four. Five.") 2 = Some p
       /\ nth_error (generate_engagement_points 12.000000000000002%float
                       "One. Two. Three. Four. Five.") 3 = Some q
       /\ PrimFloat.add (start p) (duration p) = start q.
Proof.
  split; [vm_compute; reflexivity|].
  eexists. eexists. split; [vm_compute; reflexivity|].
  split; [vm_compute; reflexivity|]. vm_compute. reflexivity.
Qed.

(** The window of a point is [between(t, start, start + duration)],
    the end being a sum of doubles. With [k] points on a timeline of
    [T >= 2 * (k+1) + 2^-40], every window ends strictly before the next
    point starts; with two points or more and [0 < T <= 2 * (k+1) - 2^-40],
    the second point starts before the first window ends. *)
Theorem overlay_windows_disjoint (T : float) (content : string) :
  let pts := generate_engagement_points T content in
  let k := List.length (key_phrases content) in
  let window_end := fun p => to_Q (PrimFloat.add (start p) (duration p)) in
  (2 * inject_Z (Z.of_nat (k + 1)) + Double.pow2 (-40) <= to_Q T ->
   forall i j p q, (i < j)%nat ->
     nth_error pts i = Some p -> nth_error pts j = Some q ->
     window_end p < to_Q (start q))
  /\ (0 < to_Q T -> (2 <= k)%nat ->
      to_Q T <= 2 * inject_Z (Z.of_nat (k + 1)) - Double.pow2 (-40) ->
      exists p q, nth_error pts 0 = Some p /\ nth_error pts 1 = Some q
                  /\ to_Q (start q) <= window_end p).
Proof.
  intros pts k window_end.
  assert (Hlen : List.length pts = k).
  { unfold pts. rewrite <- (length_map text), points_texts. reflexivity. }
  assert (Hk5 : (k <= 5)%nat) by apply key_phrases_length.
  split.
  - intros HT i j p q Hij Hp Hq.
    assert (Hjk : (j < k)%nat).
    { rewrite <- Hlen. apply nth_error_Some. congruence. }
    destruct (points_nth _ _ _ Hp) as [Sp [Dp _]].
    destruct (points_nth _ _ _ Hq) as [Sq _].
    fold k in Sp, Sq. unfold window_end. rewrite Sp, Sq, Dp.
    apply windows_apart; [lia | lia | lia | exact HT].
  - intros Hpos H2 HT.
    destruct (nth_error pts 0) as [p|] eqn:Hp;
      [|apply nth_error_None in Hp; lia].
    destruct (nth_error pts 1) as [q|] eqn:Hq;
      [|apply nth_error_None in Hq; lia].
    exists p, q. repeat split.
    destruct (points_nth _ _ _ Hp) as [Sp [Dp _]].
    destruct (points_nth _ _ _ Hq) as [Sq _].
    fold k in Sp, Sq. unfold window_end. rewrite Sp, Sq, Dp.
    apply windows_meet; [exact Hpos | lia | exact HT].
Qed.

Lemma overlay_windows_disjoint_witness :
  exists p q,
    nth_error (generate_engagement_points 30%float "One. Two. Three") 0 = Some p
    /\ nth_error (generate_engagement_points 30%float "One. Two. Three") 2 = Some q
    /\ to_Q (PrimFloat.add (start p) (duration p)) < to_Q (start q).
Proof.
  destruct (overlay_windows_disjoint 30%float "One. Two. Three") as [H _].
  eexists. eexists. split; [reflexivity|]. split; [reflexivity|].
  apply (H ltac:(vm_compute; discriminate) 0%nat 2%nat);
    [lia | reflexivity | reflexivity].
Defined.

(** *** Key phrases *)

Lemma split_no_separator (sep : ascii) (s : string) :
  Forall (fun piece => ~ In sep (chars piece)) (split sep s).
Proof.
  unfold chars. induction s as [|c r IH]; cbn.
  - constructor; [cbn; tauto | constructor].
  - destruct (Ascii.eqb c sep) eqn:E.
    + constructor; [cbn; tauto | exact IH].
    + apply Ascii.eqb_neq in E.
      destruct (split sep r) as [|h t].
      * constructor; [|constructor]. cbn. intros [H | []]. congruence.
      * inversion IH as [|? ? Hh Ht]; subst.
        constructor; [|exact Ht]. cbn. intros [H | H]; [congruence | now apply Hh].
Qed.

Lemma lstrip_chars (s : string) (x : ascii) :
  In x (chars (lstrip s)) -> In x (chars s).
Proof.
  unfold chars. induction s as [|c r IH]; cbn; [auto|].
  destruct (is_space c); cbn; auto.
Qed.

Lemma rstrip_chars (s : string) (x : ascii) :
  In x (chars (rstrip s)) -> In x (chars s).
Proof.
  unfold chars. induction s as [|c r IH]; cbn; [auto|].
  destruct (rstrip r) as [|c' r'] eqn:E.
  - destruct (is_space c); cbn; [intros [] | intros [H | []]; auto].
  - cbn. intros [H | H]; [auto | right; apply IH; exact H].
Qed.

Lemma prefix_chars (n : nat) (s : string) (x : ascii) :
  In x (chars (substring 0 n s)) -> In x (chars s).
Proof.
  unfold chars. revert s. induction n as [|n IH]; intros [|c r]; cbn; try tauto.
  intros [H | H]; [auto | right; now apply IH].
Qed.

Lemma prefix_length (n : nat) (s : string) :
  (String.length (substring 0 n s) <= n)%nat.
Proof.
  revert s. induction n as [|n IH]; intros [|c r]; cbn; try lia.
  specialize (IH r). lia.
Qed.

Lemma lstrip_head (s : string) : starts_with_space (lstrip s) = false.
Proof.
  induction s as [|c r IH]; cbn; [reflexivity|].
  destruct (is_space c) eqn:E; [exact IH | cbn; exact E].
Qed.

Lemma rstrip_head (s : string) :
  starts_with_space s = false -> starts_with_space (rstrip s) = false.
Proof.
  destruct s as [|c r]; cbn; [auto|]. intro H.
  destruct (rstrip r); [rewrite H|]; cbn; auto.
Qed.

Lemma prefix_head (n : nat) (s : string) :
  starts_with_space s = false -> starts_with_space (substring 0 n s) = false.
Proof. destruct n, s; cbn; auto. Qed.

Lemma firstn_incl {A} (n : nat) (l : list A) (x : A) :
  In x (firstn n l) -> In x l.
Proof.
  revert l. induction n as [|n IH]; intros [|y l]; cbn; try tauto.
  intros [H | H]; [auto | right; now apply IH].
Qed.

(** Every key phrase, hence the text of every overlay point, is non-empty,
    at most 50 characters long, free of full stops, and does not begin with
    white space. *)
Theorem key_phrases_ok (T : float) (content : string) :
  Forall phrase_ok (key_phrases content)
  /\ map text (generate_engagement_points T content) = key_phrases content.
Proof.
  split; [|apply points_texts].
  unfold key_phrases. apply Forall_forall. intros ph Hin.
  apply in_map_iff in Hin. destruct Hin as [s [<- Hs]].
  apply filter_In in Hs. destruct Hs as [Hs Hne].
  apply firstn_incl in Hs.
  pose proof (split_no_separator "." content) as Hsep.
  rewrite Forall_forall in Hsep. specialize (Hsep s Hs).
  unfold phrase_ok. repeat split.
  - unfold truthy in Hne. destruct (strip s) as [|c r]; [discriminate|]. discriminate.
  - apply prefix_length.
  - intro H. apply Hsep. unfold strip in H.
    now apply lstrip_chars, rstrip_chars, prefix_chars with 50%nat.
  - apply prefix_head. unfold strip. apply rstrip_head, lstrip_head.
Qed.

(** *** Pacing *)

Lemma replace_absent (old new s : string) :
  Main.contains old s = false -> str_replace old new s = s.
Proof.
  unfold str_replace. induction s as [|c r IH]; [reflexivity|].
  cbn [Main.contains replace_from]. intro H.
  apply orb_false_iff in H. destruct H as [Hp Hc].
  rewrite Hp. now rewrite (IH Hc).
Qed.

Lemma pace_loop_spec (w : world) (segments : list path) :
  forall optimized,
    pace_loop w segments optimized
    = (map (fun seg => Run (pace_cmd seg (paced seg))) segments,
       Ok (optimized ++ map (paced_or_kept w) segments)).
Proof.
  induction segments as [|seg rest IH]; intro optimized; cbn [pace_loop map].
  - unfold ret. now rewrite app_nil_r.
  - unfold pace_one, run, paced_or_kept. fold (paced seg).
    destruct (ffmpeg w (pace_cmd seg (paced seg))); cbn;
      rewrite IH, <- app_assoc; reflexivity.
Qed.

(** [optimize_pacing] never raises: it runs one command per segment and
    returns, in order, the paced file where the command succeeded and the
    segment itself where it failed.  For a segment whose name has no
    [.mp4] in it, the paced file is the segment itself. *)
Theorem optimize_pacing_keeps (w : world) (segments : list path) :
  optimize_pacing w segments
  = (map (fun seg => Run (pace_cmd seg (paced seg))) segments,
     Ok (map (paced_or_kept w) segments))
  /\ Forall (fun seg => Main.contains ".mp4" seg = false ->
                        paced_or_kept w seg = seg
                        /\ output (pace_cmd seg (paced seg)) = seg)
            segments.
Proof.
  split; [apply pace_loop_spec|].
  apply Forall_forall. intros seg _ H.
  unfold paced_or_kept, paced. rewrite (@replace_absent ".mp4" "_paced.mp4" seg H).
  split; [now destruct (ffmpeg w _) | reflexivity].
Qed.

End OverlaysMore.

(** ** More on the image provider chain *)

Section ProviderChainMore.

Import Image.

Lemma pexels_cases (w : world) (prompt : string) (out : path) :
  has_key w "PEXELS_API_KEY" = true ->
  generate_with_pexels w prompt out
  = ([Try "pexels"], if pexels w prompt out then Ok out else Raise RequestException).
Proof.
  intro K. unfold generate_with_pexels. rewrite K.
  now destruct (pexels w prompt out).
Qed.

Lemma unsplash_cases (w : world) (prompt : string) (out : path) :
  generate_with_unsplash w prompt out
  = ([Try "unsplash"], if unsplash w prompt out then Ok out else Raise RequestException).
Proof. unfold generate_with_unsplash. now destruct (unsplash w prompt out). Qed.

Lemma placeholder_cases (w : world) (text : string) (out : path) :
  generate_placeholder w text out
  = ([Try "placeholder"],
     if pil_save w text out then Ok out else Raise (OtherError "placeholder")).
Proof. unfold generate_placeholder. now destruct (pil_save w text out). Qed.

Lemma huggingface_cases (w : world) (prompt : string) (out : path) :
  exists l r,
    generate_with_huggingface w prompt out = (l, r)
    /\ provider_calls l = ["huggingface"]
    /\ (r = Ok out \/ exists e, r = Raise e).
Proof.
  destruct (huggingface_bounded w prompt out) as [_ [_ Hc]].
  exists (log_of (generate_with_huggingface w prompt out)),
         (outcome (generate_with_huggingface w prompt out)).
  split; [apply log_outcome|]. split; [exact Hc|].
  unfold generate_with_huggingface.
  destruct (has_key w "HUGGINGFACE_API_KEY"); [|right; eexists; reflexivity].
  destruct (hf_loop w out 0 max_retries None) as [l [[[status content]|]|e]]; cbn;
    [left; reflexivity | right; eexists; reflexivity | right; eexists; reflexivity].
Qed.

Lemma attempt_cases (l : list action) (r : result path) :
  attempt (l, r) = (l, Ok (match r with Ok p => Some p | Raise _ => None end)).
Proof. destruct r; cbn; now rewrite app_nil_r. Qed.

(** The body of the outer [try], for a non-empty target path: the providers
    of the chain are called in order up to the first that succeeds. *)
Lemma chain_until_success (w : world) (prompt : string) (out : path) :
  truthy out = true ->
  let providers := enabled_chain w ++ ["placeholder"] in
  provider_calls (log_of (chain w prompt out))
  = until_success (succeeds w prompt out) providers
  /\ outcome (chain w prompt out)
     = (if existsb (succeeds w prompt out) providers then Ok out
        else Raise (OtherError "placeholder")).
Proof.
  intro Ht. cbn zeta.
  destruct (huggingface_cases w prompt out) as [lh [rh [Eh [Ch Rh]]]].
  assert (Sh : succeeds w prompt out "huggingface"
               = match rh with Ok _ => true | Raise _ => false end).
  { change (succeeds w prompt out "huggingface")
      with (is_ok (generate_with_huggingface w prompt out)).
    unfold is_ok. now rewrite Eh. }
  assert (Sp : succeeds w prompt out "pexels" = pexels w prompt out) by reflexivity.
  assert (Su : succeeds w prompt out "unsplash" = unsplash w prompt out) by reflexivity.
  assert (Sl : succeeds w prompt out "placeholder" = pil_save w prompt out)
    by reflexivity.
  assert (Ss : succeeds w prompt out "stability" = false) by reflexivity.
  assert (Sd : succeeds w prompt out "dalle" = false) by reflexivity.
  unfold chain, enabled_chain, generate_with_stability, generate_with_dalle.
  rewrite unsplash_cases, placeholder_cases, Eh.
  destruct (has_key w "PEXELS_API_KEY") eqn:K1;
    [rewrite (pexels_cases w prompt out K1)|];
    destruct (has_key w "HUGGINGFACE_API_KEY") eqn:K2;
    destruct (has_key w "STABILITY_API_KEY") eqn:K3;
    destruct (has_key w "OPENAI_API_KEY") eqn:K4;
    destruct (pexels w prompt out) eqn:P;
    destruct (unsplash w prompt out) eqn:U;
    destruct (pil_save w prompt out) eqn:L;
    destruct Rh as [-> | [e ->]];
    cbn [until_success existsb app orb];
    rewrite ?Sp, ?Su, ?Sh, ?Sl, ?Ss, ?Sd, ?attempt_cases;
    cbn; repeat (progress (rewrite ?Ht; cbn));
    rewrite ?provider_calls_try, ?provider_calls_app, ?Ch;
    split; reflexivity.
Qed.

Lemma image_file_truthy (w : world) (i : nat) : truthy (image_file w i) = true.
Proof. reflexivity. Qed.

(** One iteration of the loop of [generate_images]. *)
Lemma one_image_shape (w : world) (prompt : string) (image_paths : list path)
    (i : nat) :
  let out := image_file w i in
  let providers := enabled_chain w ++ ["placeholder"] in
  provider_calls (log_of (one_image w prompt image_paths i))
  = until_success (succeeds w prompt out) providers
    ++ (if existsb (succeeds w prompt out) providers then [] else ["placeholder"])
  /\ outcome (one_image w prompt image_paths i)
     = Ok (if obtained w prompt i then image_paths ++ [out] else image_paths).
Proof.
  cbn zeta.
  destruct (@chain_until_success w prompt (image_file w i) (image_file_truthy w i))
    as [Hc Ho].
  cbn zeta in Hc, Ho. unfold one_image, obtained.
  destruct (chain w prompt (image_file w i)) as [l r].
  cbn [log_of outcome fst snd] in Hc, Ho. subst r. rewrite <- Hc.
  destruct (existsb (succeeds w prompt (image_file w i))
                    (enabled_chain w ++ ["placeholder"])).
  - cbn. now rewrite !app_nil_r.
  - rewrite placeholder_cases.
    destruct (pil_save w ("Image " ++ str_nat (i + 1))%string (image_file w i));
      cbn; rewrite ?app_nil_r, provider_calls_app; split; reflexivity.
Qed.

(** For each image the providers are called in the order of the chain, up
    to the first that succeeds and no further; when none succeeds, the
    placeholder is called once more by the handler. *)
Theorem provider_priority (w : world) (prompt : string) (image_paths : list path)
    (i : nat) :
  let out := image_file w i in
  let providers := enabled_chain w ++ ["placeholder"] in
  provider_calls (log_of (one_image w prompt image_paths i))
  = until_success (succeeds w prompt out) providers
    ++ (if existsb (succeeds w prompt out) providers then [] else ["placeholder"])
  /\ outcome (one_image w prompt image_paths i)
     = Ok (if obtained w prompt i then image_paths ++ [out] else image_paths).
Proof. exact (one_image_shape w prompt image_paths i). Qed.

Lemma images_loop_outcome (w : world) (prompt : string) (indices : list nat) :
  forall image_paths,
    outcome (images_loop w prompt indices image_paths)
    = Ok (image_paths ++ map (image_file w) (filter (obtained w prompt) indices)).
Proof.
  induction indices as [|i rest IH]; intro image_paths; cbn [images_loop filter map].
  - cbn. now rewrite app_nil_r.
  - rewrite outcome_bind.
    destruct (one_image_shape w prompt image_paths i) as [_ Ho]. cbn zeta in Ho.
    rewrite Ho, IH.
    destruct (obtained w prompt i); cbn [map]; [now rewrite <- app_assoc | reflexivity].
Qed.

(** [generate_images] never raises: it returns, in index order, the file
    of every index whose image was obtained, so at most [count] paths. *)
Theorem generate_images_result (w : world) (prompt : string) (count : nat) :
  outcome (generate_images w prompt count)
  = Ok (map (image_file w) (filter (obtained w prompt) (seq 0 count)))
  /\ (List.length (filter (obtained w prompt) (seq 0 count)) <= count)%nat.
Proof.
  split.
  - unfold generate_images. now rewrite images_loop_outcome.
  - pose proof (filter_length_le (obtained w prompt) (seq 0 count)) as H.
    now rewrite length_seq in H.
Qed.

(** As long as the drawing of the placeholder works, [generate_images]
    returns exactly [count] paths, one per index, whatever the providers do. *)
Theorem placeholder_guarantee (w : world) (prompt : string) (count : nat) :
  (forall text out, pil_save w text out = true) ->
  outcome (generate_images w prompt count) = Ok (map (image_file w) (seq 0 count)).
Proof.
  intro H. unfold generate_images. rewrite images_loop_outcome. cbn [app].
  do 2 f_equal. apply forallb_filter_id. apply forallb_forall.
  intros i _. unfold obtained. rewrite H. apply orb_true_r.
Qed.

Lemma placeholder_guarantee_witness :
  outcome (generate_images calm_world "a mechanical keyboard" 2)
  = Ok ["assets/image_20240101_120000_1.png"; "assets/image_20240101_120000_2.png"].
Proof.
  rewrite (placeholder_guarantee calm_world "a mechanical keyboard" 2).
  - reflexivity.
  - intros text out. reflexivity.
Defined.

(** The retry loop, when the first [j] answers are 503 and the next one is not. *)
Lemma hf_loop_first_answer (w : world) (out : path) (status : nat) (content : string)
    (j : nat) :
  forall attempt remaining response,
    (j < remaining)%nat ->
    (forall i, (i < j)%nat -> exists c, hf_post w out (attempt + i) = Response 503 c) ->
    hf_post w out (attempt + j) = Response status content ->
    status <> 503%nat ->
    let r := hf_loop w out attempt remaining response in
    posts (log_of r) = seq attempt (S j)
    /\ sleeps (log_of r) = repeat 20%nat j
    /\ outcome r = (if Nat.eqb status 200 then Ok (Some (status, content))
                    else Raise (ApiError status)).
Proof.
  induction j as [|j IH]; intros attempt remaining response Hlt H503 Hj Hs;
    destruct remaining as [|remaining]; try lia; cbn zeta; cbn [hf_loop].
  - rewrite Nat.add_0_r in Hj. rewrite Hj.
    apply Nat.eqb_neq in Hs. rewrite Hs.
    destruct (Nat.eqb status 200); cbn; repeat split; reflexivity.
  - destruct (H503 0%nat ltac:(lia)) as [c Hc].
    rewrite Nat.add_0_r in Hc. rewrite Hc. cbn [Nat.eqb].
    assert (Hlt' : (j < remaining)%nat) by lia.
    assert (H503' : forall i, (i < j)%nat ->
                      exists c', hf_post w out (S attempt + i) = Response 503 c').
    { intros i Hi. destruct (H503 (S i) ltac:(lia)) as [c' Hc'].
      exists c'. now replace (S attempt + i)%nat with (attempt + S i)%nat by lia. }
    assert (Hj' : hf_post w out (S attempt + j) = Response status content).
    { now replace (S attempt + j)%nat with (attempt + S j)%nat by lia. }
    specialize (IH (S attempt) remaining (Some (503%nat, c)) Hlt' H503' Hj' Hs).
    cbn zeta in IH. destruct IH as [Hp [Hsl Ho]].
    change (Nat.eqb 503 503) with true. cbn iota.
    rewrite !log_bind, !outcome_bind. cbn [tell log_of outcome fst snd app].
    repeat split.
    + unfold posts in *. cbn. now rewrite Hp.
    + unfold sleeps in *. cbn. now rewrite Hsl.
    + exact Ho.
Qed.

(** With its key, [generate_with_huggingface] sends requests until the
    first answer that is not a 503, at most three: it sleeps 20 s after each
    503, writes a 200 answer to the target file and returns its path, and
    raises on any other status without a further request.  Without the key
    it raises before any request. *)
Theorem huggingface_first_answer (w : world) (prompt : string) (out : path)
    (status : nat) (content : string) (j : nat) :
  (has_key w "HUGGINGFACE_API_KEY" = false ->
   generate_with_huggingface w prompt out
   = ([Try "huggingface"], Raise (ValueError "HUGGINGFACE_API_KEY not set")))
  /\ (has_key w "HUGGINGFACE_API_KEY" = true ->
      (j < 3)%nat ->
      (forall i, (i < j)%nat -> exists c, hf_post w out i = Response 503 c) ->
      hf_post w out j = Response status content ->
      status <> 503%nat ->
      let r := generate_with_huggingface w prompt out in
      posts (log_of r) = seq 0 (S j)
      /\ sleeps (log_of r) = repeat 20%nat j
      /\ outcome r = (if Nat.eqb status 200 then Ok out else Raise (ApiError status))
      /\ (status = 200%nat -> In (WriteBytes out content) (log_of r))).
Proof.
  split.
  - intro K. unfold generate_with_huggingface. now rewrite K.
  - intros K Hj H503 Hans Hs. cbn zeta.
    destruct (@hf_loop_first_answer w out status content j 0 max_retries None
                Hj H503 Hans Hs) as [Hp [Hsl Ho]].
    unfold generate_with_huggingface. rewrite K.
    destruct (hf_loop w out 0 max_retries None) as [l r].
    cbn [log_of outcome fst snd] in Hp, Hsl, Ho. subst r.
    destruct (Nat.eqb status 200) eqn:E.
    + cbn. unfold posts, sleeps in *. rewrite !flat_map_app, Hp, Hsl. cbn.
      rewrite !app_nil_r. repeat split; auto.
      intros _. right. apply in_or_app. right. now left.
    + cbn. rewrite !app_nil_r. repeat split; auto.
      intro H200. subst status. discriminate.
Qed.

Lemma huggingface_first_answer_witness :
  generate_with_huggingface warming_world "a mechanical keyboard" "assets/k.png"
  = ([Try "huggingface"; Post "assets/k.png" 0; Sleep 20; Post "assets/k.png" 1;
      WriteBytes "assets/k.png" "png-bytes"], Ok "assets/k.png")
  /\ sleeps (log_of (generate_with_huggingface warming_world
                       "a mechanical keyboard" "assets/k.png")) = [20%nat].
Proof.
  destruct (huggingface_first_answer warming_world "a mechanical keyboard"
              "assets/k.png" 200 "png-bytes" 1) as [_ H].
  destruct H as [_ [Hs _]]; try reflexivity.
  - lia.
  - intros i Hi. exists "loading". destruct i; [reflexivity | lia].
  - discriminate.
  - split; [reflexivity | exact Hs].
Defined.

End ProviderChainMore.

(** ** The orchestrator *)

Section Orchestrator.

Import Main.

(** The loop over a list of words none of which is blocked by an earlier one. *)
Lemma fold_add_keyword (lc : string) (base : list string) (l : list string) :
  forall acc,
    unblocked l = true ->
    existsb (fun k => existsb (String.eqb k) l) (map lower acc) = false ->
    fold_left (add_keyword lc) l (base ++ acc)
    = base ++ acc
      ++ filter (fun word => contains word lc
                             && negb (existsb (String.eqb word) (map lower base))) l.
Proof.
  induction l as [|x rest IH]; intros acc Hu Hacc; cbn [fold_left filter].
  - now rewrite app_nil_r.
  - cbn [unblocked] in Hu. apply andb_true_iff in Hu. destruct Hu as [Hx Hu].
    assert (Hnot : existsb (String.eqb x) (map lower acc) = false).
    { apply not_true_is_false. intro H. apply existsb_exists in H.
      destruct H as [k [Hk Hxk]]. apply String.eqb_eq in Hxk. subst k.
      assert (Hc : existsb (fun k => existsb (String.eqb k) (x :: rest)) (map lower acc)
                   = true).
      { apply existsb_exists. exists x. split; [exact Hk|]. cbn.
        now rewrite String.eqb_refl. }
      congruence. }
    assert (Hrest : existsb (fun k => existsb (String.eqb k) rest) (map lower acc)
                    = false).
    { apply not_true_is_false. intro H. apply existsb_exists in H.
      destruct H as [k [Hk Hkr]].
      assert (Hc : existsb (fun k => existsb (String.eqb k) (x :: rest)) (map lower acc)
                   = true).
      { apply existsb_exists. exists k. split; [exact Hk|]. cbn.
        now rewrite Hkr, orb_true_r. }
      congruence. }
    unfold add_keyword at 2.
    rewrite map_app, existsb_app, Hnot, orb_false_r.
    destruct (contains x lc && negb (existsb (String.eqb x) (map lower base))) eqn:E.
    + rewrite <- app_assoc. rewrite (IH (acc ++ [x]) Hu).
      * now rewrite <- !app_assoc.
      * rewrite map_app, existsb_app, Hrest. cbn. rewrite orb_false_r.
        apply not_true_is_false. intro H. apply existsb_exists in H.
        destruct H as [y [Hy Hxy]]. apply String.eqb_eq in Hxy.
        rewrite forallb_forall in Hx. specialize (Hx y Hy).
        rewrite <- Hxy, String.eqb_refl in Hx. discriminate.
    + now apply IH.
Qed.

Lemma fold_keywords (lc : string) (base l : list string) :
  unblocked l = true ->
  fold_left (add_keyword lc) l base
  = base ++ filter (fun word => contains word lc
                                && negb (existsb (String.eqb word) (map lower base))) l.
Proof.
  intro Hu. pose proof (@fold_add_keyword lc base l [] Hu eq_refl) as H.
  rewrite app_nil_r in H. exact H.
Qed.

Lemma important_words_unblocked : unblocked important_words = true.
Proof. vm_compute. reflexivity. Qed.

Lemma extract_keywords_eq (content : string) (original_keywords : option (list string)) :
  extract_content_keywords content original_keywords
  = firstn 7 (given original_keywords
              ++ filter (wanted content (given original_keywords)) important_words).
Proof.
  unfold extract_content_keywords. cbv zeta. fold (given original_keywords).
  rewrite (@fold_keywords (lower content) (given original_keywords)
             important_words important_words_unblocked).
  unfold wanted. reflexivity.
Qed.

(** [extract_content_keywords] returns the first seven of: the original
    keywords, followed by the important words that occur in the lowercased
    content and are not, lowercased, among the original keywords, in the
    order of the table. *)
Theorem keywords_extracted (content : string) (original_keywords : option (list string)) :
  extract_content_keywords content original_keywords
  = firstn 7 (given original_keywords
              ++ filter (wanted content (given original_keywords)) important_words)
  /\ (List.length (extract_content_keywords content original_keywords) <= 7)%nat.
Proof.
  split; [apply extract_keywords_eq|].
  rewrite extract_keywords_eq, length_firstn. apply Nat.le_min_l.
Qed.

Lemma lower_char_not_R (c : ascii) : lower_char c <> "R"%char.
Proof.
  destruct c as [[] [] [] [] [] [] [] []]; vm_compute; discriminate.
Qed.

Lemma lowered_has_no_RGB (s : string) : contains "RGB" (lower s) = false.
Proof.
  induction s as [|c r IH]; [reflexivity|].
  cbn [lower contains]. rewrite IH, orb_false_r.
  cbn [prefix]. destruct (ascii_dec "R" (lower_char c)) as [E | E]; [|reflexivity].
  exfalso. now apply (lower_char_not_R c).
Qed.

(** The table entry ["RGB"] is never extracted: it is looked for, in upper
    case, in the lowercased content.  It is in the result only when it is
    one of the original keywords. *)
Theorem rgb_never_extracted (content : string) (original_keywords : option (list string)) :
  In "RGB" (extract_content_keywords content original_keywords) ->
  In "RGB" (given original_keywords).
Proof.
  intro H. rewrite extract_keywords_eq in H.
  apply firstn_incl in H. apply in_app_or in H.
  destruct H as [H | H]; [exact H|].
  apply filter_In in H. destruct H as [_ H]. unfold wanted in H.
  apply andb_true_iff in H. destruct H as [H _].
  pose proof (lowered_has_no_RGB content) as Hno.
  rewrite H in Hno. discriminate Hno.
Qed.

Lemma rgb_never_extracted_witness :
  In "RGB" (given (Some ["RGB"; "mouse"])).
Proof.
  apply (@rgb_never_extracted "A mouse with RGB lights" (Some ["RGB"; "mouse"])).
  vm_compute. now left.
Defined.

(** After a successful compilation the two burn-ins are run one after the
    other, each on the result of the previous stage.  A burn-in that ends
    with a failure status keeps the file it was given and the run goes on;
    a burn-in whose process cannot be started ends the run with the
    exception of the process.  When the compilation raises, the exception
    passes through and no burn-in is run. *)
Theorem compile_and_engage_result (with_stem : path -> string -> path) (w : world)
    (hook_video intro_video : path) (segments : list path) (audio_path : path)
    (content : string) (l : list action) :
  let compiled := Final.generate_final_video w None
                    ([hook_video; intro_video] ++ segments) (Some audio_path)
                    None None in
  let r := compile_and_engage with_stem w hook_video intro_video segments
             audio_path content in
  let points := Engagement.generate_engagement_points
                  (if file_exists w audio_path
                   then Engagement.get_video_duration w audio_path else 30%float)
                  content in
  let handled := fun c => ffmpeg w c || is_CalledProcessError (run_error w c) in
  (forall p, compiled = (l, Ok p) ->
     let c1 := Engagement.overlay_cmd p points (with_stem p "_engaged") in
     let p1 := if ffmpeg w c1 then with_stem p "_engaged" else p in
     let c2 := Engagement.cta_cmd w p1 "Get Yours Now!" (with_stem p1 "_cta") in
     r = if handled c1
         then (l ++ [Run c1; Run c2],
               if handled c2
               then Ok (if ffmpeg w c2 then with_stem p1 "_cta" else p1)
               else Raise (run_error w c2))
         else (l ++ [Run c1], Raise (run_error w c1)))
  /\ (forall e, compiled = (l, Raise e) -> r = (l, Raise e)).
Proof.
  cbn zeta. split.
  - intros p H. unfold compile_and_engage. rewrite H. cbv zeta.
    rewrite bind_ok, overlay_cases. cbv zeta. cbn [fst snd].
    destruct (ffmpeg w (Engagement.overlay_cmd p _ _)) eqn:E1; cbn [orb].
    + rewrite bind_ok, cta_cases. cbv zeta. cbn [fst snd app].
      destruct (ffmpeg w (Engagement.cta_cmd w _ _ _)); cbn [orb]; [reflexivity|].
      destruct (is_CalledProcessError (run_error w _)); reflexivity.
    + destruct (is_CalledProcessError (run_error w _)).
      * rewrite bind_ok, cta_cases. cbv zeta. cbn [fst snd app].
        destruct (ffmpeg w (Engagement.cta_cmd w _ _ _)); cbn [orb]; [reflexivity|].
        destruct (is_CalledProcessError (run_error w _)); reflexivity.
      * cbn. reflexivity.
  - intros e H. unfold compile_and_engage. now rewrite H.
Qed.

Lemma compile_and_engage_result_witness :
  outcome (compile_and_engage (fun p suffix => (p ++ suffix)%string) calm_world
             "videos/hook.mp4" "videos/intro.mp4" ["videos/s0.mp4"]
             "audio/voice.mp3" "Great sound.")
  = Ok "videos/final_video_20240101_120000.mp4_engaged_cta".
Proof.
  destruct (compile_and_engage_result (fun p suffix => (p ++ suffix)%string)
              calm_world "videos/hook.mp4" "videos/intro.mp4" ["videos/s0.mp4"]
              "audio/voice.mp3" "Great sound."
              (log_of (Final.generate_final_video calm_world None
                         (["videos/hook.mp4"; "videos/intro.mp4"] ++ ["videos/s0.mp4"])
                         (Some "audio/voice.mp3") None None))) as [H _].
  rewrite (H "videos/final_video_20240101_120000.mp4"); reflexivity.
Defined.

(** C8. The two burn-ins name [CalledProcessError] only in their handler.
    When the transcoder cannot be started, [add_text_overlay_intervals] and
    [add_call_to_action] raise instead of returning the video they were
    given.  And a script with a NUL character in one of its sentences, an
    argument that [subprocess.run] refuses, ends steps 9 and 10 of the
    pipeline with [ValueError] although the video has been compiled. *)
Theorem overlay_failure_aborts :
  let points := Engagement.generate_engagement_points 30 "Great sound. Light to carry" in
  let script := ("Great" ++ String Ascii.zero "sound. Light to carry")%string in
  Engagement.add_text_overlay_intervals toolless_world "videos/final.mp4" points
    "videos/final_engaged.mp4"
  = ([Run (Engagement.overlay_cmd "videos/final.mp4" points "videos/final_engaged.mp4")],
     Raise (FileNotFoundError "ffmpeg"))
  /\ outcome (Engagement.add_call_to_action toolless_world "videos/final.mp4"
                "Get Yours Now!" "videos/final_cta.mp4")
     = Raise (FileNotFoundError "ffmpeg")
  /\ outcome (Final.generate_final_video nul_world None
                ["videos/hook.mp4"; "videos/intro.mp4"; "videos/s0.mp4"]
                (Some "audio/voice.mp3") None None)
     = Ok "videos/final_video_20240101_120000.mp4"
  /\ outcome (compile_and_engage (fun p suffix => (p ++ suffix)%string) nul_world
                "videos/hook.mp4" "videos/intro.mp4" ["videos/s0.mp4"]
                "audio/voice.mp3" script)
     = Raise (ValueError "embedded null byte").
Proof.
  cbv zeta. repeat split; vm_compute; reflexivity.
Qed.

End Orchestrator.

(** ** The cross-fade graph *)

Section CrossfadeGraph.

Import Final.

(** The cross-fade graph of two clips or more is closed: every filter reads
    an existing input or a free pad, every pad is produced once and consumed
    once, and the only pad left is the one mapped to the output file. *)
Theorem xfade_graph_closed (paths : list path) (out : path) :
  (2 <= List.length paths)%nat ->
  let n := List.length paths in
  let c := xfade_cmd paths out in
  List.length (inputs c) = n
  /\ pads_after n [] (filter_complex c) = Some [LVout (n - 1)]
  /\ maps c = [MapLabel (LVout (n - 1))].
Proof. exact (xfade_cmd_closed paths out). Qed.

Lemma xfade_graph_closed_witness :
  pads_after 3 [] (filter_complex (xfade_cmd ["a.mp4"; "b.mp4"; "c.mp4"] "out.mp4"))
  = Some [LVout 2].
Proof.
  destruct (xfade_graph_closed ["a.mp4"; "b.mp4"; "c.mp4"] "out.mp4") as [_ [H _]].
  - cbn. lia.
  - exact H.
Defined.

End CrossfadeGraph.
